(** * Sparsity: a shallow embedding of the sparse frame and of its
      partitioned counterpart

    The development follows the two Python modules of the repository:
    [sparsity/sparse_frame.py] (module [sparse_frame] below) and
    [sparsity/dask/core.py] (module [dask_core]).

    Modelling conventions.
    - Labels (row labels, column labels, group keys, categories) are integers
      ([Z]); the code only compares and sorts them.
    - Matrix entries are integers ([Z]).  A [scipy.sparse] matrix is modelled
      by its denotation: a declared column count and the list of its rows; the
      CSR/CSC/COO storage formats all denote the same matrix, so [tocsr] and
      [tocsc] are the identity.
    - The stored entries are binary64 numbers.  Module [sparse_frame]
      computes with the integers as they are, which is what the code does
      as long as no stored value and no sum needs rounding; module
      [float64] gives the functions that convert or add entries with the
      binary64 rounding written out, and the statements on stored values
      and on sums are made on it.
    - A Python exception is a value of [exn]; a computation that may raise
      returns [result A].
    - A pandas [MultiIndex] is not modelled: every index is a flat list of
      labels, so the [isinstance(..., pd.MultiIndex)] tests are always false.
    - Python floats are IEEE 754 binary64 numbers: they are modelled by the
      primitive floats of Rocq. *)

From Stdlib Require Import ZArith List Bool Lia Permutation Sorted.
From Stdlib Require Import Floats Uint63.
Import ListNotations.

Set Implicit Arguments.
Open Scope Z_scope.

(** ** Exceptions and the error monad *)

(** The messages of the [ValueError]s raised by the modelled code. *)
Inductive message : Type :=
| UnknownCategorical (offending : list Z)
    (* "unknown categorical features present %s during transform." *)
| CategoriesNotUnique      (* pandas: Categorical categories must be unique *)
| IncompatibleDimensions   (* scipy: blocks with incompatible dimensions *)
| DimensionMismatch        (* scipy: dot of matrices that do not conform *)
| IndexOutOfShape          (* scipy: coo entry outside the declared shape *)
| LengthsMustMatch         (* pandas: comparison of indexes of two lengths *)
| SliceStepZero            (* Python: slice step cannot be zero *)
| AxisMustBe0Or1           (* "axis mut be either 0 or 1" *)
| CannotUseLevel           (* "Connot use level in a non MultiIndex Frame" *)
| CannotConvertNaN.        (* Python: cannot convert float NaN to integer *)

Inductive exn : Type :=
| ValueError (m : message)
| AssertionError
| IndexError
| KeyError
| AttributeError
| NotImplementedError
| ZeroDivisionError
| OverflowError.

Definition result (A : Type) : Type := (exn + A)%type.

Definition ret {A} (a : A) : result A := inr a.
Definition raise {A} (e : exn) : result A := inl e.
Definition bind {A B} (m : result A) (k : A -> result B) : result B :=
  match m with
  | inl e => inl e
  | inr a => k a
  end.

Notation "x <- m ;; k" := (bind m (fun x => k))
  (at level 61, m at next level, right associativity).
Notation "' p <- m ;; k" := (bind m (fun x => let p := x in k))
  (at level 61, p pattern, m at next level, right associativity).

(** [assert c] of Python. *)
Definition py_assert (c : bool) : result unit :=
  if c then ret tt else raise AssertionError.

Fixpoint mapM {A B} (f : A -> result B) (l : list A) : result (list B) :=
  match l with
  | [] => ret []
  | a :: t => b <- f a ;; bs <- mapM f t ;; ret (b :: bs)
  end.

(** ** Python sequences: indexing and slicing *)

Definition zlength {A} (l : list A) : Z := Z.of_nat (length l).

(** [l[i]] for an integer [i]: a negative [i] counts from the end. *)
Definition py_getitem {A} (l : list A) (i : Z) : result A :=
  let j := if i <? 0 then i + zlength l else i in
  if 0 <=? j then
    match nth_error l (Z.to_nat j) with
    | Some a => ret a
    | None => raise IndexError
    end
  else raise IndexError.

(** [l[idx]] for an integer array [idx] (numpy "fancy" indexing). *)
Definition py_take {A} (l : list A) (idx : list Z) : result (list A) :=
  mapM (py_getitem l) idx.

(** A slice object [slice(start, stop, step)]; [None] is a missing bound. *)
Record slice : Type := Slice {
  start : option Z;
  stop : option Z;
  step : option Z
}.

(** [slice.indices(len)]: the bounds of the slice clipped to a sequence of
    length [len]. *)
Definition slice_indices (s : slice) (len : Z) : result (Z * Z * Z) :=
  let st := match step s with None => 1 | Some k => k end in
  if st =? 0 then raise (ValueError SliceStepZero) else
  let lower := if st <? 0 then -1 else 0 in
  let upper := if st <? 0 then len - 1 else len in
  let clip (b : Z) := if b <? 0 then Z.max (b + len) lower else Z.min b upper in
  let lo := match start s with
            | None => if st <? 0 then upper else lower
            | Some b => clip b
            end in
  let hi := match stop s with
            | None => if st <? 0 then lower else upper
            | Some b => clip b
            end in
  ret (lo, hi, st).

(** [range(i, hi, st)], unrolled at most [fuel] times. *)
Fixpoint py_range3 (fuel : nat) (i hi st : Z) : list Z :=
  match fuel with
  | O => []
  | S fuel' =>
      if (if 0 <? st then i <? hi else hi <? i)
      then i :: py_range3 fuel' (i + st) hi st
      else []
  end.

(** [range(n)]. *)
Definition py_range (n : Z) : list Z := map Z.of_nat (seq 0 (Z.to_nat n)).

(** [l[s]] for a slice object [s].  The positions selected by a slice are
    distinct positions of [l], so [length l] unrollings are enough. *)
Definition py_slice {A} (s : slice) (l : list A) : result (list A) :=
  '(lo, hi, st) <- slice_indices s (zlength l) ;;
  py_take l (py_range3 (length l) lo hi st).

(** ** numpy: sorting helpers *)

(** Insertion of a keyed position in a list sorted by key; the new element
    goes before the elements of equal key. *)
Fixpoint insert_key (k : Z) (p : Z) (l : list (Z * Z)) : list (Z * Z) :=
  match l with
  | [] => [(k, p)]
  | (k', p') :: t =>
      if k <=? k' then (k, p) :: l else (k', p') :: insert_key k p t
  end.

Definition sort_keyed (l : list (Z * Z)) : list (Z * Z) :=
  fold_right (fun kp acc => insert_key (fst kp) (snd kp) acc) [] l.

(** [np.argsort(keys)]: the positions of [keys] in increasing key order.
    numpy does not fix the order of equal keys (its default sort is not
    stable); the model keeps them in their original order, and nothing
    proved below depends on the order of equal keys. *)
Definition argsort (keys : list Z) : list Z :=
  map snd (sort_keyed (combine keys (py_range (zlength keys)))).

(** The keyed positions of [keys] in increasing key order, and the keys in
    that order: what [np.argsort] followed by the gathering of the keys
    yields. *)
Definition sorted_pairs (keys : list Z) : list (Z * Z) :=
  sort_keyed (combine keys (py_range (zlength keys))).

Definition sort_labels (keys : list Z) : list Z := map fst (sorted_pairs keys).

(** The order of two keyed positions: the order of their keys. *)
Definition key_le (a b : Z * Z) : Prop := fst a <= fst b.

Fixpoint insert_uniq (k : Z) (l : list Z) : list Z :=
  match l with
  | [] => [k]
  | k' :: t =>
      if k <? k' then k :: l
      else if k =? k' then l
      else k' :: insert_uniq k t
  end.

(** [np.unique(l)]: the distinct values of [l], sorted. *)
Definition unique (l : list Z) : list Z := fold_right insert_uniq [] l.

Definition mem (x : Z) (l : list Z) : bool := existsb (Z.eqb x) l.

Fixpoint nodupb (l : list Z) : bool :=
  match l with
  | [] => true
  | x :: t => negb (mem x t) && nodupb t
  end.

Fixpoint find_index (x : Z) (l : list Z) : option nat :=
  match l with
  | [] => None
  | y :: t => if x =? y then Some O
              else match find_index x t with
                   | Some n => Some (S n)
                   | None => None
                   end
  end.

(** Equality of two label arrays of one length, entry by entry, and the
    test [a.equals(b)] of pandas on two indexes: arrays of two lengths are
    not equal. *)
Fixpoint values_all_eq (a b : list Z) : bool :=
  match a, b with
  | [], [] => true
  | x :: a', y :: b' => (x =? y) && values_all_eq a' b'
  | _, _ => false
  end.

(** [np.all(a == b)] on two one-dimensional numpy arrays.  Arrays of one
    length compare entry by entry.  An array of length 1 is broadcast
    against the other one: against an empty array the comparison is empty,
    and [np.all] of an empty array is true.  Arrays of two other lengths do
    not broadcast: [a == b] is then the scalar [False]. *)
Definition np_all_eq (a b : list Z) : bool :=
  if Nat.eqb (length a) (length b) then values_all_eq a b
  else match a, b with
       | [x], _ => forallb (fun y => x =? y) b
       | _, [y] => forallb (fun x => x =? y) a
       | _, _ => false
       end.

(** ** scipy.sparse: matrices *)

(** A sparse matrix of shape [(length rows, ncols)].  The column count is
    part of the value: a matrix with no row still has a width.  The
    matrices of this development hold integers; what the binary64 type of
    the stored entries does to them is the matter of the section on the
    binary64 arithmetic below. *)
Record csr_matrix : Type := Matrix {
  ncols : nat;
  rows : list (list Z)
}.

Definition nrows (m : csr_matrix) : nat := length (rows m).
Definition mshape (m : csr_matrix) : nat * nat := (nrows m, ncols m).

(** Every row has the declared width. *)
Definition rect (m : csr_matrix) : Prop :=
  Forall (fun r => length r = ncols m) (rows m).

Definition zero_row (k : nat) : list Z := repeat 0 k.

(** [sparse.coo_matrix((n, k))]: the all-zero matrix of a given shape. *)
Definition zeros (n k : nat) : csr_matrix := Matrix k (repeat (zero_row k) n).

Definition shape_eqb (a b : nat * nat) : bool :=
  Nat.eqb (fst a) (fst b) && Nat.eqb (snd a) (snd b).

(** [sparse.vstack(blocks)]: the blocks must agree on their column count. *)
Definition sparse_vstack (blocks : list csr_matrix) : result csr_matrix :=
  match blocks with
  | [] => raise (ValueError IncompatibleDimensions)
  | b :: _ =>
      if forallb (fun c => Nat.eqb (ncols c) (ncols b)) blocks
      then ret (Matrix (ncols b) (flat_map rows blocks))
      else raise (ValueError IncompatibleDimensions)
  end.

Fixpoint zip_app (a b : list (list Z)) : list (list Z) :=
  match a, b with
  | r :: a', s :: b' => (r ++ s) :: zip_app a' b'
  | _, _ => []
  end.

(** [sparse.hstack([a, b])]: the two blocks must agree on their row count. *)
Definition sparse_hstack (a b : csr_matrix) : result csr_matrix :=
  if Nat.eqb (nrows a) (nrows b)
  then ret (Matrix (ncols a + ncols b) (zip_app (rows a) (rows b)))
  else raise (ValueError IncompatibleDimensions).

(** [m[idx]] and [m[idx, :]] for an integer array [idx]: the rows at the
    given positions, a negative position counting from the last row. *)
Definition take_rows (m : csr_matrix) (idx : list Z) : result csr_matrix :=
  rs <- py_take (rows m) idx ;; ret (Matrix (ncols m) rs).

(** [m[s, :]] for a slice object [s]. *)
Definition slice_rows (m : csr_matrix) (s : slice) : result csr_matrix :=
  rs <- py_slice s (rows m) ;; ret (Matrix (ncols m) rs).

(** [m[:-1, :]]: all rows but the last. *)
Definition drop_last_row (m : csr_matrix) : csr_matrix :=
  Matrix (ncols m) (removelast (rows m)).

Definition cell (m : csr_matrix) (i j : nat) : Z :=
  nth j (nth i (rows m) []) 0.

Definition column (m : csr_matrix) (j : nat) : list Z :=
  map (fun r => nth j r 0) (rows m).

(** [m.T] *)
Definition transpose (m : csr_matrix) : csr_matrix :=
  Matrix (nrows m) (map (column m) (seq 0 (ncols m))).

Fixpoint dot_product (u v : list Z) : Z :=
  match u, v with
  | x :: u', y :: v' => x * y + dot_product u' v'
  | _, _ => 0
  end.

(** [a.dot(b)]: the matrix product; the shapes must conform.  The sums are
    the exact ones: what the code computes as long as no sum needs
    rounding ([dot64] below rounds). *)
Definition dot (a b : csr_matrix) : result csr_matrix :=
  if Nat.eqb (ncols a) (nrows b)
  then ret (Matrix (ncols b)
              (map (fun r => map (fun j => dot_product r (column b j))
                                 (seq 0 (ncols b)))
                   (rows a)))
  else raise (ValueError DimensionMismatch).

Fixpoint zip_add (u v : list Z) : list Z :=
  match u, v with
  | x :: u', y :: v' => (x + y) :: zip_add u' v'
  | _, _ => []
  end.

Fixpoint zip_rows_add (a b : list (list Z)) : list (list Z) :=
  match a, b with
  | r :: a', s :: b' => zip_add r s :: zip_rows_add a' b'
  | _, _ => []
  end.

(** [a._binopt(b, op='_plus_')]: the entrywise sum of two matrices of one
    shape.  The sums are the exact ones: what the code computes as long
    as no sum needs rounding ([binopt_plus64] below rounds). *)
Definition binopt_plus (a b : csr_matrix) : csr_matrix :=
  Matrix (ncols a) (zip_rows_add (rows a) (rows b)).

(** ** scipy.sparse: the binary64 arithmetic of the entries

    The entries of a stored matrix are IEEE binary64 numbers: the row that
    [_init_csr] stacks under a matrix is a [float64] row, and [vstack] and
    [hstack] give their result the common type of their blocks.  The
    matrices of this development hold integer values.  [round53 z] is the
    binary64 number nearest to the integer [z], ties going to the even
    significand: the value [z] has once it is stored, and, the operations
    of IEEE arithmetic being correctly rounded, the value an operation
    delivers whose exact result is [z].  An integer of absolute value at
    most [2^53] is its own rounding.  Overflow (an absolute value of
    [2^1024] or more) is not modelled. *)
Definition round53 (z : Z) : Z :=
  let m := Z.abs z in
  let e := Z.log2 m - 52 in
  if e <=? 0 then z
  else
    let q := m / 2 ^ e in
    let r := m mod 2 ^ e in
    let half := 2 ^ (e - 1) in
    let q' := if r <? half then q
              else if half <? r then q + 1
              else if Z.even q then q else q + 1 in
    Z.sgn z * (q' * 2 ^ e).

Definition plus64 (x y : Z) : Z := round53 (x + y).
Definition times64 (x y : Z) : Z := round53 (x * y).

(** The range in which binary64 holds every integer exactly. *)
Definition exact64 (z : Z) : Prop := Z.abs z <= 2 ^ 53.

(** Every entry is at most [b] in absolute value. *)
Definition bounded_entries (b : Z) (m : csr_matrix) : Prop :=
  Forall (Forall (fun v => Z.abs v <= b)) (rows m).

(** The sum of the absolute values of a column: a bound on every sum of
    entries of the column, in whatever order they are added. *)
Definition abs_column_sum (m : csr_matrix) (j : nat) : Z :=
  fold_right Z.add 0 (map Z.abs (column m j)).

Definition abs_column_sums (m : csr_matrix) : list Z :=
  map (abs_column_sum m) (seq 0 (ncols m)).

Definition exact_sums (m : csr_matrix) : Prop :=
  Forall (fun s => s <= 2 ^ 53) (abs_column_sums m).

(** [m.astype(float64)]: what [vstack] and [hstack] do to a block of
    integers that meets a [float64] block. *)
Definition astype_float64 (m : csr_matrix) : csr_matrix :=
  Matrix (ncols m) (map (map round53) (rows m)).

Fixpoint zip_plus64 (u v : list Z) : list Z :=
  match u, v with
  | x :: u', y :: v' => plus64 x y :: zip_plus64 u' v'
  | _, _ => []
  end.

Fixpoint zip_rows_plus64 (a b : list (list Z)) : list (list Z) :=
  match a, b with
  | r :: a', s :: b' => zip_plus64 r s :: zip_rows_plus64 a' b'
  | _, _ => []
  end.

(** [a._binopt(b, op='_plus_')] on two [float64] matrices of one shape:
    every sum is rounded. *)
Definition binopt_plus64 (a b : csr_matrix) : csr_matrix :=
  Matrix (ncols a) (zip_rows_plus64 (rows a) (rows b)).

(** One entry of a product of [float64] matrices: the products are added
    to the running sum one after the other, in the order of the inner
    index, every product and every sum being rounded.  (The entries that
    are zero and not stored add nothing.) *)
Fixpoint dot_product64 (acc : Z) (u v : list Z) : Z :=
  match u, v with
  | x :: u', y :: v' => dot_product64 (plus64 acc (times64 x y)) u' v'
  | _, _ => acc
  end.

(** [a.dot(b)] on two [float64] matrices. *)
Definition dot64 (a b : csr_matrix) : result csr_matrix :=
  if Nat.eqb (ncols a) (nrows b)
  then ret (Matrix (ncols b)
              (map (fun r => map (fun j => dot_product64 0 r (column b j))
                                 (seq 0 (ncols b)))
                   (rows a)))
  else raise (ValueError DimensionMismatch).

(** The entry of a 0/1 membership row: 1 where the code is the column. *)
Definition indicator (c j : Z) : Z := if c =? j then 1 else 0.

(** The entry [(i, j)] of [coo_matrix((data, (row, col)))]: the entries of
    the triplet list that fall on one position add up. *)
Fixpoint coo_cell (entries : list (Z * (Z * Z))) (i j : Z) : Z :=
  match entries with
  | [] => 0
  | (v, (r, c)) :: t =>
      (if (r =? i) && (c =? j) then v else 0) + coo_cell t i j
  end.

(** [sparse.coo_matrix((data, (row_idx, col_idx)), shape=(n, k)).tocsr()]:
    every coordinate must lie inside the shape. *)
Definition coo_matrix (data : list Z) (row_idx col_idx : list Z)
    (n k : nat) : result csr_matrix :=
  let entries := combine data (combine row_idx col_idx) in
  if forallb (fun e => let '(_, (r, c)) := e in
                (0 <=? r) && (r <? Z.of_nat n) && (0 <=? c) && (c <? Z.of_nat k))
             entries
  then ret (Matrix k
              (map (fun i => map (fun j => coo_cell entries i j)
                                 (py_range (Z.of_nat k)))
                   (py_range (Z.of_nat n))))
  else raise (ValueError IndexOutOfShape).

(** ** pandas: label indexes *)

(** A label index: the sequence of its labels. *)
Definition Index : Type := list Z.

(** [_default_index(n)]: the positional range index [0, ..., n-1]. *)
Definition _default_index (n : nat) : Index := py_range (Z.of_nat n).

(** [labels.get_indexer(target)]: for each label of [target] its position
    in [labels], or [-1] when it is absent. *)
Definition get_indexer (labels target : Index) : list Z :=
  map (fun x => match find_index x labels with
                | Some p => Z.of_nat p
                | None => -1
                end) target.

Fixpoint is_monotonic (l : Index) : bool :=
  match l with
  | [] => true
  | x :: t => match t with
              | [] => true
              | y :: _ => (x <=? y) && is_monotonic t
              end
  end.

(** [a.union(b)]: [a] itself when [b] adds nothing to compare, else the
    sorted distinct labels of both. *)
Definition Index_union (a b : Index) : Index :=
  match b with
  | [] => a
  | _ => if values_all_eq a b then a
         else match a with
              | [] => b
              | _ => unique (a ++ b)
              end
  end.

(** The [how] argument of a join: ['left'] (the default of pandas) or
    ['outer']. *)
Inductive how : Type := how_left | how_outer.

(** [a.join(b, how=..., return_indexers=True)] for indexes of unique labels:
    the joined labels and, for each side, either [None] (the side already
    lists the joined labels, no gathering needed) or the position on that
    side of each joined label, [-1] marking a label the side does not carry.
    Two equal sorted indexes join to themselves with no indexer; a left
    join keeps the left labels; an outer join takes the union.  The joins
    of indexes with repeated labels (which pandas pairs like a relational
    join) are outside this model. *)
Definition Index_join (a b : Index) (h : how)
  : Index * option (list Z) * option (list Z) :=
  if is_monotonic a && is_monotonic b && values_all_eq a b
  then (a, None, None)
  else match h with
       | how_left => (a, None, Some (get_indexer b a))
       | how_outer =>
           let j := Index_union a b in
           (j, Some (get_indexer a j), Some (get_indexer b j))
       end.

(** [a.append(b)]: a NEW index holding the labels of [a] then those of [b];
    a pandas index is immutable, [a] itself is left as it is. *)
Definition Index_append (a b : Index) : Index := a ++ b.

(** ** sparsity/sparse_frame.py *)

Module sparse_frame.

(** The state of a [SparseFrame] object: its [__slots__], without the two
    indexer objects, [ndim] (always 2) and [_multi_index] (never set). *)
Record SparseFrame : Type := Frame {
  _index : Index;
  _columns : Index;
  _data : csr_matrix;
  shape : nat * nat
}.

(** [SparseFrame._init_csr] *)
Definition _init_csr (csr : csr_matrix) : result csr_matrix :=
  sparse_vstack [csr; zeros 1 (ncols csr)].

(** [SparseFrame.__init__(data, index=None, columns=None)].  The test
    [len(data.shape) != 2] is false for every [csr_matrix]; the lengths of
    the given labels are not checked (the two assertions are commented out
    in the source). *)
Definition __init__ (data : csr_matrix) (index columns : option Index)
  : result SparseFrame :=
  let '(N, K) := mshape data in
  let idx := match index with None => _default_index N | Some i => i end in
  let cols := match columns with None => _default_index K | Some c => c end in
  d <- _init_csr data ;;
  ret (Frame idx cols d (mshape data)).

(** The properties [index], [columns] and [data]. *)
Definition index (self : SparseFrame) : Index := _index self.
Definition columns (self : SparseFrame) : Index := _columns self.
Definition data (self : SparseFrame) : csr_matrix := drop_last_row (_data self).

(** [_aligned_csr_elop(a, b, a_idx, b_idx, op='_plus_')].  The join is
    called without [how], that is with the default ['left'] of pandas. *)
Definition _aligned_csr_elop (a b : csr_matrix) (a_idx b_idx : Index)
  : result (csr_matrix * Index) :=
  let '(join_idx, lidx, ridx) := Index_join a_idx b_idx how_left in
  a_new <- match lidx with
           | None => ret (drop_last_row a)
           | Some l => take_rows a l
           end ;;
  b_new <- match ridx with
           | None => ret (drop_last_row b)
           | Some r => take_rows b r
           end ;;
  _ <- py_assert (shape_eqb (mshape b_new) (mshape a_new)) ;;
  ret (binopt_plus a_new b_new, join_idx).

(** [_matrix_join(a, b, a_idx, b_idx, how='outer')] *)
Definition _matrix_join (a b : csr_matrix) (a_idx b_idx : Index)
  : result (csr_matrix * Index) :=
  let '(join_idx, lidx, ridx) := Index_join a_idx b_idx how_outer in
  a_new <- match lidx with
           | None => ret (drop_last_row a)
           | Some l => take_rows a l
           end ;;
  b_new <- match ridx with
           | None => ret (drop_last_row b)
           | Some r => take_rows b r
           end ;;
  d <- sparse_hstack a_new b_new ;;
  ret (d, join_idx).

(** [np.all(self._columns == other.columns)] on two pandas indexes: the
    comparison itself raises when the lengths differ. *)
Definition Index_all_eq (a b : Index) : result bool :=
  if Nat.eqb (length a) (length b) then ret (values_all_eq a b)
  else raise (ValueError LengthsMustMatch).

(** [SparseFrame.add] *)
Definition add (self other : SparseFrame) : result SparseFrame :=
  same <- Index_all_eq (_columns self) (columns other) ;;
  _ <- py_assert same ;;
  '(d, new_idx) <- _aligned_csr_elop (_data self) (_data other)
                     (index self) (index other) ;;
  __init__ d (Some new_idx) (Some (_columns self)).

(** [SparseFrame.sort_index] *)
Definition sort_index (self : SparseFrame) : result SparseFrame :=
  let passive_sort_idx := argsort (_index self) in
  d <- take_rows (_data self) passive_sort_idx ;;
  idx <- py_take (_index self) passive_sort_idx ;;
  __init__ d (Some idx) None.

(** [SparseFrame._slice] *)
Definition _slice (self : SparseFrame) (sliceobj : slice)
  : result SparseFrame :=
  d <- slice_rows (_data self) sliceobj ;;
  idx <- py_slice sliceobj (index self) ;;
  __init__ d (Some idx) None.

(** The [key] of [_ixs]: one position or an array of positions. *)
Inductive ixs_key : Type :=
| KeyInt (i : Z)
| KeyArray (l : list Z).

(** [SparseFrame._ixs(key, axis=0)] *)
Definition _ixs (self : SparseFrame) (key : ixs_key) (axis : Z)
  : result SparseFrame :=
  if negb (axis =? 0) then raise NotImplementedError else
  match key with
  | KeyInt i =>
      new_idx <- py_getitem (index self) i ;;
      d <- take_rows (_data self) [i] ;;
      __init__ d (Some [new_idx]) None
  | KeyArray l =>
      new_idx <- py_take (index self) l ;;
      d <- take_rows (_data self) l ;;
      __init__ d (Some new_idx) None
  end.

(** [SparseFrame.__setitem__(key, value)]: the new state of the frame.
    [self._columns.append(pd.Index([key]))] builds a new index and the
    statement drops it: [_columns] is not assigned; [shape] is not assigned
    either. *)
Definition __setitem__ (self : SparseFrame) (key : Z) (value : list Z)
  : result SparseFrame :=
  let csc := _data self in
  let val := Matrix 1 (map (fun v => [v]) (value ++ [0])) in
  new_data <- sparse_hstack csc val ;;
  let _ := Index_append (_columns self) [key] in
  ret (Frame (_index self) (_columns self) new_data (shape self)).

(** [SparseFrame.join(other, axis)], the branch taken when the labels of
    the other axis are identical. *)
Definition join_fast (self other : SparseFrame) (axis : Z)
  : result SparseFrame :=
  if axis =? 0 then
    d <- sparse_vstack [data self; data other] ;;
    __init__ d (Some (index self ++ index other)) (Some (_columns self))
  else
    d <- sparse_hstack (data self) (data other) ;;
    __init__ d (Some (index self)) (Some (_columns self ++ _columns other)).

(** [SparseFrame.join(other, axis)], the branch that aligns the labels of
    the other axis.  For [axis = 0] the source calls [data.T.to_csr()]: a
    scipy matrix has [tocsr] but no attribute [to_csr]. *)
Definition join_general (self other : SparseFrame) (axis : Z)
  : result SparseFrame :=
  if axis =? 0 then
    '(d, new_index) <- _matrix_join (transpose (_data self))
                         (transpose (_data other))
                         (_columns self) (_columns other) ;;
    let dT := transpose d in
    raise AttributeError
  else
    '(d, new_index) <- _matrix_join (_data self) (_data other)
                         (index self) (index other) ;;
    __init__ d (Some new_index) (Some (_columns self ++ _columns other)).

(** [SparseFrame.join(other, axis=0)] *)
Definition join (self other : SparseFrame) (axis : Z) : result SparseFrame :=
  if negb ((axis =? 0) || (axis =? 1)) then raise (ValueError AxisMustBe0Or1)
  else if axis =? 0 then
    if np_all_eq (_columns other) (_columns self)
    then join_fast self other axis
    else join_general self other axis
  else
    if np_all_eq (index self) (index other)
    then join_fast self other axis
    else join_general self other axis.

(** [pd.Categorical(values, categories)]: the codes of the values (the
    position of each value among the categories, [-1] for a value that is
    not a category) and the categories.  pandas refuses categories that are
    not unique. *)
Record Categorical : Type := MkCategorical {
  codes : list Z;
  categories : list Z
}.

Definition pd_Categorical (values cats : list Z) : result Categorical :=
  if nodupb cats then ret (MkCategorical (get_indexer cats values) cats)
  else raise (ValueError CategoriesNotUnique).

(** [_create_group_matrix(group_idx)]: [group_idx] is not a [Categorical]
    at the call of [groupby], so it is encoded against its own sorted
    distinct values. *)
Definition _create_group_matrix (group_idx : list Z) : result csr_matrix :=
  cat <- pd_Categorical group_idx (unique group_idx) ;;
  let col_idx := codes cat in
  let row_idx := py_range (zlength col_idx) in
  let ones := map (fun _ => 1) row_idx in
  coo_matrix ones row_idx col_idx (length group_idx)
             (length (categories cat)).

(** [csr_one_hot_series(s, categories)] *)
Definition csr_one_hot_series (s cats : list Z) : result csr_matrix :=
  cat <- pd_Categorical s cats ;;
  let n_features := length (categories cat) in
  let n_samples := length (codes cat) in
  let mask := map (fun c => negb (c =? -1)) (codes cat) in
  if existsb negb mask then
    raise (ValueError (UnknownCategorical
             (unique (map fst (filter (fun vm => negb (snd vm))
                                      (combine s mask))))))
  else
    let row_indices := py_range (Z.of_nat n_samples) in
    let col_indices := codes cat in
    let ones := map (fun _ => 1) row_indices in
    coo_matrix ones row_indices col_indices n_samples n_features.

(** [SparseFrame.groupby(by=None, level=0)]: [by] is [None] (or ["index"])
    or an explicit key array. *)
Definition groupby (self : SparseFrame) (by_ : option (list Z)) (level : Z)
  : result SparseFrame :=
  by' <- match by_ with
         | Some b =>
             _ <- py_assert (Nat.eqb (length b) (nrows (data self))) ;;
             ret b
         | None =>
             if negb (level =? 0) then raise (ValueError CannotUseLevel)
             else ret (index self)
         end ;;
  let group_idx := argsort by' in
  sorted_by <- py_take by' group_idx ;;
  gm <- _create_group_matrix sorted_by ;;
  picked <- take_rows (_data self) group_idx ;;
  prod <- dot (transpose picked) gm ;;
  let grouped_data := transpose prod in
  __init__ grouped_data (Some (unique by')) (Some (_columns self)).

(** The invariant of the data model: the stored matrix is the logical
    matrix followed by one all-zero row, every row has the declared width,
    the label indexes are as long as the logical matrix is high and wide,
    and [shape] is the logical shape. *)
Definition wf (f : SparseFrame) : Prop :=
  rows (_data f) = rows (data f) ++ [zero_row (ncols (_data f))] /\
  rect (_data f) /\
  length (_index f) = nrows (data f) /\
  length (_columns f) = ncols (_data f) /\
  shape f = mshape (data f).

(** The stored row a label resolves to in an alignment: the row at the
    position of the label, or the last stored row (the sentinel) when the
    frame does not carry the label. *)
Definition row_for (f : SparseFrame) (l : Z) : list Z :=
  match find_index l (_index f) with
  | Some p => nth p (rows (_data f)) []
  | None => last (rows (_data f)) []
  end.

(** The row of width [k] that holds a single 1, in column [p]. *)
Definition one_hot_row (k p : nat) : list Z :=
  map (fun j => if Nat.eqb j p then 1 else 0) (seq 0 k).

(** The rows of [body] whose key, at the same position in [keys], is [k]. *)
Definition rows_with_key (k : Z) (keys : list Z) (body : list (list Z))
  : list (list Z) :=
  map snd (filter (fun kr : Z * list Z => fst kr =? k) (combine keys body)).

(** The entrywise sum of rows of one width. *)
Definition sum_rows (width : nat) (rs : list (list Z)) : list Z :=
  fold_right zip_add (zero_row width) rs.

(** The logical row of a frame under a label: the row at the position of
    the label, or a row of zeros when the frame does not carry the label. *)
Definition logical_row_for (f : SparseFrame) (l : Z) : list Z :=
  match find_index l (_index f) with
  | Some p => nth p (rows (data f)) []
  | None => zero_row (ncols (_data f))
  end.

(** How many rows of a two-column table hold the pair [(g, c)]. *)
Definition count_pairs (g c : Z) (left right : list Z) : Z :=
  Z.of_nat (length (filter (fun gc : Z * Z => (fst gc =? g) && (snd gc =? c))
                           (combine left right))).

(** *** The rest of the class *)

(** A dense [pd.DataFrame]: its values, its row labels, its column
    labels. *)
Record DataFrame : Type := MkDataFrame {
  df_values : list (list Z);
  df_index : Index;
  df_columns : Index
}.

(** [pd.DataFrame(values, index=..., columns=...)] on a dense matrix: the
    labels must fit the shape of the values, else pandas raises a
    [ValueError] ("Shape of passed values is ..., indices imply ...",
    rendered here by the message of a dimension mismatch). *)
Definition pd_DataFrame (values : csr_matrix) (index columns : Index)
  : result DataFrame :=
  if Nat.eqb (length index) (nrows values)
     && Nat.eqb (length columns) (ncols values)
  then ret (MkDataFrame (rows values) index columns)
  else raise (ValueError IncompatibleDimensions).

(** [SparseFrame.head(n=5)] *)
Definition head (self : SparseFrame) (n : Z) : result DataFrame :=
  let n := Z.min n (zlength (_index self)) in
  d <- slice_rows (_data self) (Slice None (Some n) None) ;;
  idx <- py_slice (Slice None (Some n) None) (_index self) ;;
  pd_DataFrame d idx (_columns self).

(** [SparseFrame.concat(tables, axis=0)]: [reduce] folds [join] from the
    left over the tables, the first one being the start.  The sequence is
    given by its first table and the others ([reduce] of an empty sequence
    raises [TypeError] before any frame is touched). *)
Definition concat (first : SparseFrame) (others : list SparseFrame)
    (axis : Z) : result SparseFrame :=
  fold_left (fun acc table => a <- acc ;; join a table axis)
            others (ret first).

(** [_sparse_groupby_sum_cs(cs, group_col, categorical_col, categories)]:
    [cs] is given by its two columns [cs[group_col]] and
    [cs[categorical_col]]; [categories] is the list of categories (not the
    path of a stored table). *)
Definition _sparse_groupby_sum_cs (cs_group cs_categorical : list Z)
    (cats : list Z) : result SparseFrame :=
  one_hot <- csr_one_hot_series cs_categorical cats ;;
  table <- __init__ one_hot (Some cs_group) (Some cats) ;;
  groupby table None 0.

End sparse_frame.

(** ** sparsity/sparse_frame.py, with the arithmetic of the storage

    The definitions of [sparse_frame] read the entries of a matrix as the
    integers they are and add them as integers: that is what the code
    computes as long as no stored value and no sum needs rounding.  The
    functions of the class that convert or add entries are given here once
    more, line by line as above, with the binary64 conversions and
    operations of scipy written out. *)

Module float64.
Import sparse_frame.

(** [SparseFrame._init_csr]: the row added under [csr] is a [float64]
    row, so [vstack] converts the entries of [csr] to [float64]; a matrix
    that is a [float64] matrix already is left as it is (the conversion is
    idempotent). *)
Definition _init_csr (csr : csr_matrix) : result csr_matrix :=
  sparse_vstack [astype_float64 csr; zeros 1 (ncols csr)].

(** [SparseFrame.__init__(data, index=None, columns=None)] *)
Definition __init__ (data : csr_matrix) (index columns : option Index)
  : result SparseFrame :=
  let '(N, K) := mshape data in
  let idx := match index with None => _default_index N | Some i => i end in
  let cols := match columns with None => _default_index K | Some c => c end in
  d <- _init_csr data ;;
  ret (Frame idx cols d (mshape data)).

(** [_aligned_csr_elop(a, b, a_idx, b_idx, op='_plus_')] *)
Definition _aligned_csr_elop (a b : csr_matrix) (a_idx b_idx : Index)
  : result (csr_matrix * Index) :=
  let '(join_idx, lidx, ridx) := Index_join a_idx b_idx how_left in
  a_new <- match lidx with
           | None => ret (drop_last_row a)
           | Some l => take_rows a l
           end ;;
  b_new <- match ridx with
           | None => ret (drop_last_row b)
           | Some r => take_rows b r
           end ;;
  _ <- py_assert (shape_eqb (mshape b_new) (mshape a_new)) ;;
  ret (binopt_plus64 a_new b_new, join_idx).

(** [SparseFrame.add] *)
Definition add (self other : SparseFrame) : result SparseFrame :=
  same <- Index_all_eq (_columns self) (columns other) ;;
  _ <- py_assert same ;;
  '(d, new_idx) <- _aligned_csr_elop (_data self) (_data other)
                     (index self) (index other) ;;
  __init__ d (Some new_idx) (Some (_columns self)).

(** [SparseFrame.__setitem__(key, value)]: [value] is a sequence of
    integers, [hstack] converts its column to [float64]. *)
Definition __setitem__ (self : SparseFrame) (key : Z) (value : list Z)
  : result SparseFrame :=
  let csc := _data self in
  let val := Matrix 1 (map (fun v => [v]) (value ++ [0])) in
  new_data <- sparse_hstack csc (astype_float64 val) ;;
  let _ := Index_append (_columns self) [key] in
  ret (Frame (_index self) (_columns self) new_data (shape self)).

(** [SparseFrame.groupby(by=None, level=0)]: the membership matrix is a
    [float64] matrix ([dtype='f8']) and the product is a [float64]
    product. *)
Definition groupby (self : SparseFrame) (by_ : option (list Z)) (level : Z)
  : result SparseFrame :=
  by' <- match by_ with
         | Some b =>
             _ <- py_assert (Nat.eqb (length b) (nrows (data self))) ;;
             ret b
         | None =>
             if negb (level =? 0) then raise (ValueError CannotUseLevel)
             else ret (index self)
         end ;;
  let group_idx := argsort by' in
  sorted_by <- py_take by' group_idx ;;
  gm <- _create_group_matrix sorted_by ;;
  picked <- take_rows (_data self) group_idx ;;
  prod <- dot64 (transpose picked) gm ;;
  let grouped_data := transpose prod in
  __init__ grouped_data (Some (unique by')) (Some (_columns self)).

End float64.

(** ** Python numbers: floats *)

(** The float nearest to an integer; exact below [2^53], which covers every
    partition count met here. *)
Definition float_of_Z (z : Z) : float :=
  if z <? 0 then PrimFloat.opp (PrimFloat.of_uint63 (Uint63.of_Z (- z)))
  else PrimFloat.of_uint63 (Uint63.of_Z z).

(** [a / b] on two Python integers: true division, a float. *)
Definition py_truediv (a b : Z) : result float :=
  if b =? 0 then raise ZeroDivisionError
  else ret (PrimFloat.div (float_of_Z a) (float_of_Z b)).

(** [int(x)] on a float: truncation towards zero. *)
Definition py_int (x : float) : result Z :=
  match Prim2SF x with
  | S754_zero _ => ret 0
  | S754_finite s m e =>
      let mag := if 0 <=? e then Z.pos m * 2 ^ e else Z.pos m / 2 ^ (- e) in
      ret (if s then - mag else mag)
  | S754_infinity _ => raise OverflowError
  | S754_nan => raise (ValueError CannotConvertNaN)
  end.

(** ** sparsity/dask/core.py *)

Module dask_core.

(** The name of a collection in a task graph.  [tokenize(df)] is a function
    of [df._name] ([normalize_token] is registered so), hence
    ['repartition-%d-%s' % (npartitions, tokenize(df))] is determined by
    [npartitions] and the name of [df]. *)
Inductive gname : Type :=
| Source (id : Z)
| RepartitionName (npartitions : Z) (token : gname).

Fixpoint gname_eqb (a b : gname) : bool :=
  match a, b with
  | Source i, Source j => i =? j
  | RepartitionName n a', RepartitionName m b' => (n =? m) && gname_eqb a' b'
  | _, _ => false
  end.

Definition key : Type := (gname * Z)%type.

Definition key_eqb (a b : key) : bool :=
  gname_eqb (fst a) (fst b) && (snd a =? snd b).

(** A task: a partition that is already there, or the call
    [(sp.SparseFrame.vstack, [keys])]. *)
Inductive task : Type :=
| Partition (f : sparse_frame.SparseFrame)
| VstackTask (keys : list key).

(** A task graph: a dict from keys to tasks, as an association list read
    from the front. *)
Definition graph : Type := list (key * task).

Fixpoint lookup (g : graph) (k : key) : option task :=
  match g with
  | [] => None
  | (k', t) :: g' => if key_eqb k k' then Some t else lookup g' k
  end.

(** [toolz.merge(a, b)]: the entries of [b] win. *)
Definition merge (a b : graph) : graph := b ++ a.

(** The partitioned frame of [dask/core.py]. *)
Record SparseFrame : Type := DaskFrame {
  dask : graph;
  _name : gname;
  _meta : sparse_frame.SparseFrame;
  known_divisions : bool;
  divisions : list (option Z)
}.

(** [SparseFrame.__init__(dsk, name, meta, divisions)].  [_make_meta]
    hands back a meta that is an empty frame as it is; the metas met here
    are the metas of partitioned frames, which the spec has empty. *)
Definition __init__ (dsk : graph) (name : gname)
    (meta : sparse_frame.SparseFrame) (divs : list (option Z)) : SparseFrame :=
  DaskFrame dsk name meta (negb (Nat.eqb (length divs) 0)) divs.

(** The property [npartitions]. *)
Definition npartitions (self : SparseFrame) : Z :=
  zlength (divisions self) - 1.

(** What [repartition_npartitions] does: it hands back its argument, builds
    a frame of merged partitions, or takes the growing branch (interpolated
    or split divisions), which is not modelled. *)
Inductive repartitioned : Type :=
| Unchanged (df : SparseFrame)
| Merged (df : SparseFrame)
| Growing.

(** [new_partitions_boundaries] of [repartition_npartitions]. *)
Definition new_partitions_boundaries (old new : Z) : result (list Z) :=
  npartitions_ratio <- py_truediv old new ;;
  mapM (fun new_partition_index =>
          py_int (PrimFloat.mul (float_of_Z new_partition_index)
                                npartitions_ratio))
       (py_range (new + 1)).

(** [range(lo, hi)] *)
Definition py_range2 (lo hi : Z) : list Z :=
  py_range3 (Z.to_nat (hi - lo)) lo hi 1.

(** [repartition_npartitions(df, npartitions)] *)
Definition repartition_npartitions (df : SparseFrame) (n : Z)
  : result repartitioned :=
  let new_name := RepartitionName n (_name df) in
  if npartitions df =? n then ret (Unchanged df)
  else if npartitions df >? n then
    bounds <- new_partitions_boundaries (npartitions df) n ;;
    dsk <- mapM (fun new_partition_index =>
                   lo <- py_getitem bounds new_partition_index ;;
                   hi <- py_getitem bounds (new_partition_index + 1) ;;
                   ret ((new_name, new_partition_index),
                        VstackTask (map (fun old_partition_index =>
                                           (_name df, old_partition_index))
                                        (py_range2 lo hi))))
                (py_range n) ;;
    divs <- mapM (py_getitem (divisions df)) bounds ;;
    ret (Merged (__init__ (merge (dask df) dsk) new_name (_meta df) divs))
  else ret Growing.

(** Modelled from the spec: [sp.SparseFrame.vstack], the function the merge
    tasks call, is not defined in sparse_frame.py.  The spec has each new
    partition be the vertical concatenation of the old partitions of its
    group: the rows and the row labels of the frames one after the other,
    under the columns of the first. *)
Definition SparseFrame_vstack (frames : list sparse_frame.SparseFrame)
  : result sparse_frame.SparseFrame :=
  match frames with
  | [] => raise (ValueError IncompatibleDimensions)
  | f :: _ =>
      d <- sparse_vstack (map sparse_frame.data frames) ;;
      sparse_frame.__init__ d (Some (flat_map sparse_frame.index frames))
                            (Some (sparse_frame.columns f))
  end.

(** Modelled from the spec: the task scheduler is an external collaborator;
    it runs the task of a key after the tasks of the keys it reads.
    [fuel] bounds the depth of the dependencies followed. *)
Fixpoint get (fuel : nat) (g : graph) (k : key)
  : result sparse_frame.SparseFrame :=
  match fuel with
  | O => raise KeyError
  | S fuel' =>
      match lookup g k with
      | None => raise KeyError
      | Some (Partition f) => ret f
      | Some (VstackTask ks) =>
          frames <- mapM (get fuel' g) ks ;; SparseFrame_vstack frames
      end
  end.

(** [SparseFrame._keys] *)
Definition _keys (self : SparseFrame) : list key :=
  map (fun i => (_name self, i)) (py_range (npartitions self)).

(** The keys a task reads. *)
Definition task_inputs (t : task) : list key :=
  match t with
  | Partition _ => []
  | VstackTask ks => ks
  end.

(** The row count of every partition of a frame, once its tasks are run. *)
Definition partition_row_counts (fuel : nat) (self : SparseFrame)
  : result (list nat) :=
  mapM (fun k => f <- get fuel (dask self) k ;;
                 ret (nrows (sparse_frame.data f)))
       (_keys self).

(** The keys read by the tasks of the partitions of a frame, in partition
    order. *)
Definition consumed_keys (self : SparseFrame) : list key :=
  flat_map (fun k => match lookup (dask self) k with
                     | Some t => task_inputs t
                     | None => []
                     end)
           (_keys self).

End dask_core.

(** ** Concrete frames *)

Module examples.
Import sparse_frame.

(** [SparseFrame(np.array([[1]]), index=[0], columns=[0])] and
    [SparseFrame(np.array([[2]]), index=[1], columns=[0])]: one column, two
    different row labels. *)
Definition frame_a : SparseFrame :=
  Frame [0] [0] (Matrix 1 [[1]; [0]]) (1%nat, 1%nat).
Definition frame_b : SparseFrame :=
  Frame [1] [0] (Matrix 1 [[2]; [0]]) (1%nat, 1%nat).

(** [SparseFrame(np.array([[2]]), index=[1], columns=[5])]: another column
    label. *)
Definition frame_c : SparseFrame :=
  Frame [1] [5] (Matrix 1 [[2]; [0]]) (1%nat, 1%nat).

(** [SparseFrame(np.array([[1], [2]]))]: two rows under the default labels
    0 and 1, one column under the default label 0. *)
Definition frame_two : SparseFrame :=
  Frame [0; 1] [0] (Matrix 1 [[1]; [2]; [0]]) (2%nat, 1%nat).

(** The same two rows under the column label 7. *)
Definition frame_named : SparseFrame :=
  Frame [0; 1] [7] (Matrix 1 [[1]; [2]; [0]]) (2%nat, 1%nat).

(** Three rows labelled 1, 0, 1. *)
Definition frame_dup : SparseFrame :=
  Frame [1; 0; 1] [0] (Matrix 1 [[1]; [2]; [3]; [0]]) (3%nat, 1%nat).

(** A partitioned frame of fifteen one-row partitions, labelled 0 to 14,
    with the divisions 0, 1, ..., 14, 14. *)
Definition unit_partition (i : Z) : SparseFrame :=
  Frame [i] [0] (Matrix 1 [[1]; [0]]) (1%nat, 1%nat).

Definition empty_meta : SparseFrame :=
  Frame [] [0] (Matrix 1 [[0]]) (0%nat, 1%nat).

Definition fifteen : dask_core.SparseFrame :=
  dask_core.__init__
    (map (fun i => ((dask_core.Source 0, i),
                    dask_core.Partition (unit_partition i)))
         (py_range 15))
    (dask_core.Source 0) empty_meta
    (map Some (py_range 15 ++ [14])).

End examples.
Unset Implicit Arguments.

(** * Properties *)

(** ** Lists, indexing and slicing *)

Lemma inr_inj {A B} (a b : B) : @inr A B a = inr b -> a = b.
Proof. now intros [= ->]. Qed.

Lemma mapM_map_ok {A B} (f : A -> result B) (g : A -> B) (l : list A) :
  (forall a, In a l -> f a = inr (g a)) -> mapM f l = inr (map g l).
Proof.
  induction l as [|a t IH]; intros H; simpl; [reflexivity|].
  rewrite (H a (or_introl eq_refl)). simpl.
  rewrite IH; [reflexivity|]. intros b Hb. apply H. now right.
Qed.

Lemma mapM_length {A B} (f : A -> result B) (l : list A) (r : list B) :
  mapM f l = inr r -> length r = length l.
Proof.
  revert r. induction l as [|a t IH]; intros r; simpl.
  - intros [= <-]. reflexivity.
  - destruct (f a); simpl; [discriminate|].
    destruct (mapM f t); simpl; [discriminate|].
    intros [= <-]. simpl. f_equal. now apply IH.
Qed.

Lemma zlength_app {A} (l1 l2 : list A) :
  zlength (l1 ++ l2) = zlength l1 + zlength l2.
Proof. unfold zlength. rewrite length_app. lia. Qed.

Lemma py_getitem_nonneg {A} (l : list A) (i : nat) (d : A) :
  (i < length l)%nat -> py_getitem l (Z.of_nat i) = inr (nth i l d).
Proof.
  intros Hi. unfold py_getitem.
  destruct (Z.ltb_spec (Z.of_nat i) 0); [lia|].
  destruct (Z.leb_spec 0 (Z.of_nat i)); [|lia].
  rewrite Nat2Z.id. rewrite (nth_error_nth' l d Hi). reflexivity.
Qed.

Lemma py_getitem_last {A} (l : list A) (x : A) :
  py_getitem (l ++ [x]) (-1) = inr x.
Proof.
  unfold py_getitem. change (-1 <? 0) with true. cbv beta iota zeta.
  replace (-1 + zlength (l ++ [x])) with (Z.of_nat (length l))
    by (rewrite zlength_app; unfold zlength; change (length [x]) with 1%nat; lia).
  destruct (Z.leb_spec 0 (Z.of_nat (length l))); [|lia].
  rewrite Nat2Z.id, nth_error_app2 by lia.
  rewrite Nat.sub_diag. reflexivity.
Qed.

Lemma py_range_length (n : nat) : length (py_range (Z.of_nat n)) = n.
Proof. unfold py_range. now rewrite length_map, length_seq, Nat2Z.id. Qed.

Lemma py_range_of_nat (n : nat) : py_range (Z.of_nat n) = map Z.of_nat (seq 0 n).
Proof. unfold py_range. now rewrite Nat2Z.id. Qed.

Lemma py_take_positions {A} (l : list A) (d : A) (ps : list nat) :
  Forall (fun p => (p < length l)%nat) ps ->
  py_take l (map Z.of_nat ps) = inr (map (fun p => nth p l d) ps).
Proof.
  intros H. unfold py_take.
  rewrite (mapM_map_ok _ (fun z => nth (Z.to_nat z) l d)).
  - rewrite map_map. f_equal. apply map_ext. intros p. now rewrite Nat2Z.id.
  - intros z Hz. apply in_map_iff in Hz. destruct Hz as [p [<- Hp]].
    rewrite Nat2Z.id. apply py_getitem_nonneg.
    rewrite Forall_forall in H. now apply H.
Qed.

Lemma map_nth_seq {A} (l : list A) (d : A) :
  map (fun p => nth p l d) (seq 0 (length l)) = l.
Proof.
  induction l as [|a t IH]; simpl; [reflexivity|].
  f_equal. rewrite <- seq_shift, map_map. exact IH.
Qed.

Lemma map_nth_seq_app {A} (l t : list A) (d : A) :
  map (fun p => nth p (l ++ t) d) (seq 0 (length l)) = l.
Proof.
  transitivity (map (fun p => nth p l d) (seq 0 (length l))).
  - apply map_ext_in. intros p Hp. apply in_seq in Hp.
    apply app_nth1. lia.
  - apply map_nth_seq.
Qed.

(** ** Matrices *)

Lemma rect_app (k : nat) (a b : list (list Z)) :
  rect (Matrix k (a ++ b)) <-> rect (Matrix k a) /\ rect (Matrix k b).
Proof. unfold rect. simpl. apply Forall_app. Qed.

Lemma zero_row_length (k : nat) : length (zero_row k) = k.
Proof. apply repeat_length. Qed.

Lemma zip_add_zero_r (r : list Z) :
  zip_add r (zero_row (length r)) = r.
Proof.
  induction r as [|x t IH]; simpl; [reflexivity|].
  f_equal; [lia|exact IH].
Qed.

Lemma zip_add_comm (u v : list Z) : zip_add u v = zip_add v u.
Proof.
  revert v. induction u as [|x u IH]; destruct v as [|y v]; simpl; try reflexivity.
  f_equal; [lia|apply IH].
Qed.

Lemma zip_add_length (u v : list Z) (k : nat) :
  length u = k -> length v = k -> length (zip_add u v) = k.
Proof.
  revert v k. induction u as [|x u IH]; destruct v as [|y v]; intros k; simpl;
    intros Hu Hv; try congruence.
  destruct k; [discriminate|]. f_equal. apply IH; congruence.
Qed.

(** ** Label lookup *)

Lemma values_all_eq_true (a b : list Z) : values_all_eq a b = true <-> a = b.
Proof.
  revert b. induction a as [|x a IH]; destruct b as [|y b]; simpl;
    try (split; [discriminate|discriminate]); [tauto|].
  rewrite andb_true_iff, Z.eqb_eq, IH. split.
  - intros [-> ->]. reflexivity.
  - intros [= -> ->]. split; reflexivity.
Qed.

Lemma np_all_eq_of_eq (a b : list Z) : a = b -> np_all_eq a b = true.
Proof.
  intros <-. unfold np_all_eq. rewrite Nat.eqb_refl.
  now apply values_all_eq_true.
Qed.

(** Two different arrays of unique labels compare as different, unless one
    holds a single label and the other none. *)
Lemma np_all_eq_false (a b : list Z) :
  NoDup a -> NoDup b -> a <> b -> (length a + length b <> 1)%nat ->
  np_all_eq a b = false.
Proof.
  intros Ha Hb Hne Hl. unfold np_all_eq.
  destruct (Nat.eqb (length a) (length b)) eqn:E.
  - destruct (values_all_eq a b) eqn:V; [|reflexivity].
    apply values_all_eq_true in V. contradiction.
  - destruct a as [|x [|x' a]], b as [|y [|y' b]]; try reflexivity;
      try (cbn [length] in Hl; lia); try discriminate E.
    + cbn [forallb]. destruct (Z.eqb_spec x y) as [->|]; [|reflexivity].
      destruct (Z.eqb_spec y y') as [->|]; [|reflexivity].
      exfalso. inversion Hb as [|? ? Hin _]. apply Hin. now left.
    + cbn [forallb]. destruct (Z.eqb_spec x y) as [->|]; [|reflexivity].
      destruct (Z.eqb_spec x' y) as [->|]; [|reflexivity].
      exfalso. inversion Ha as [|? ? Hin _]. apply Hin. now left.
Qed.

Lemma find_index_Some (x : Z) (l : list Z) (p : nat) :
  find_index x l = Some p -> nth_error l p = Some x /\ (p < length l)%nat.
Proof.
  revert p. induction l as [|y t IH]; intros p; simpl; [discriminate|].
  destruct (Z.eqb_spec x y) as [->|Hne].
  - intros [= <-]. split; [reflexivity|lia].
  - destruct (find_index x t) as [q|]; [|discriminate].
    intros [= <-]. destruct (IH q eq_refl) as [H1 H2]. split; [exact H1|lia].
Qed.

Lemma find_index_None (x : Z) (l : list Z) :
  find_index x l = None <-> ~ In x l.
Proof.
  induction l as [|y t IH]; simpl; [tauto|].
  destruct (Z.eqb_spec x y) as [->|Hne].
  - split; [discriminate|]. intros H. exfalso. apply H. now left.
  - destruct (find_index x t) as [q|].
    + split; [discriminate|]. intros H. exfalso.
      assert (Hn : ~ In x t) by tauto. apply IH in Hn. discriminate.
    + split; [|reflexivity]. intros _ [H|H]; [congruence|].
      now apply (proj1 IH).
Qed.

Lemma find_index_In (x : Z) (l : list Z) :
  In x l -> exists p, find_index x l = Some p.
Proof.
  intros H. destruct (find_index x l) as [p|] eqn:E; [eauto|].
  apply find_index_None in E. contradiction.
Qed.

Lemma find_index_nth (l : list Z) (p : nat) (d : Z) :
  NoDup l -> (p < length l)%nat -> find_index (nth p l d) l = Some p.
Proof.
  intros Hnd. revert p. induction Hnd as [|y t Hy Hnd IH]; intros p Hp; simpl in *;
    [lia|].
  destruct p as [|p].
  - now rewrite Z.eqb_refl.
  - destruct (Z.eqb_spec (nth p t d) y) as [E|_].
    + exfalso. apply Hy. rewrite <- E. apply nth_In. lia.
    + rewrite IH by lia. reflexivity.
Qed.

Lemma nodupb_NoDup (l : list Z) : nodupb l = true <-> NoDup l.
Proof.
  induction l as [|x t IH]; simpl.
  - split; [constructor|reflexivity].
  - rewrite andb_true_iff, negb_true_iff, IH. unfold mem. split.
    + intros [H1 H2]. constructor; [|exact H2]. intros Hin.
      assert (E : existsb (Z.eqb x) t = true)
        by (apply existsb_exists; exists x; split; [exact Hin|apply Z.eqb_refl]).
      congruence.
    + intros H. inversion H as [|? ? Hx Ht]; subst. split; [|exact Ht].
      destruct (existsb (Z.eqb x) t) eqn:E; [|reflexivity].
      apply existsb_exists in E. destruct E as [y [Hy Hxy]].
      apply Z.eqb_eq in Hxy. subst. contradiction.
Qed.

Lemma zip_rows_add_map {A} (f g : A -> list Z) (l : list A) :
  zip_rows_add (map f l) (map g l) = map (fun x => zip_add (f x) (g x)) l.
Proof. induction l as [|a t IH]; simpl; [reflexivity|]. now rewrite IH. Qed.

(** ** Sorting *)

Lemma insert_key_perm (k p : Z) (l : list (Z * Z)) :
  Permutation (insert_key k p l) ((k, p) :: l).
Proof.
  induction l as [|[k' p'] t IH]; simpl; [reflexivity|].
  destruct (k <=? k'); [reflexivity|].
  rewrite IH. apply perm_swap.
Qed.

Lemma sort_keyed_perm (l : list (Z * Z)) : Permutation (sort_keyed l) l.
Proof.
  induction l as [|[k p] t IH]; simpl; [reflexivity|].
  rewrite insert_key_perm. now constructor.
Qed.

Lemma insert_key_sorted (k p : Z) (l : list (Z * Z)) :
  StronglySorted key_le l -> StronglySorted key_le (insert_key k p l).
Proof.
  induction 1 as [|[k' p'] t Ht IH Hall]; simpl.
  - constructor; constructor.
  - destruct (Z.leb_spec k k') as [Hle|Hgt].
    + constructor; [constructor; assumption|].
      constructor; [exact Hle|].
      rewrite Forall_forall in *. intros y Hy. specialize (Hall y Hy).
      unfold key_le in *. simpl in *. lia.
    + constructor; [exact IH|].
      rewrite Forall_forall in *. intros y Hy.
      apply (Permutation_in _ (insert_key_perm k p t)) in Hy.
      destruct Hy as [<-|Hy]; [unfold key_le; simpl; lia|now apply Hall].
Qed.

Lemma sort_keyed_sorted (l : list (Z * Z)) : StronglySorted key_le (sort_keyed l).
Proof.
  induction l as [|[k p] t IH]; simpl; [constructor|].
  now apply insert_key_sorted.
Qed.

Lemma sorted_map_fst (l : list (Z * Z)) :
  StronglySorted key_le l -> StronglySorted Z.le (map fst l).
Proof.
  induction 1 as [|a t Ht IH Hall]; simpl; constructor; [exact IH|].
  rewrite Forall_forall in *. intros y Hy. apply in_map_iff in Hy.
  destruct Hy as [b [<- Hb]]. now apply Hall.
Qed.

(** Two sorted lists with the same elements, counted, are one list. *)
Lemma sorted_perm_eq (l1 l2 : list Z) :
  StronglySorted Z.le l1 -> StronglySorted Z.le l2 -> Permutation l1 l2 ->
  l1 = l2.
Proof.
  intros H1. revert l2. induction H1 as [|x t Ht IH Hx]; intros l2 H2 HP.
  - apply Permutation_nil in HP. now subst.
  - destruct H2 as [|y u Hu Hy].
    + apply Permutation_sym, Permutation_nil in HP. discriminate.
    + assert (x = y).
      { rewrite Forall_forall in Hx, Hy.
        assert (Hin1 : In x (y :: u)) by (apply (Permutation_in _ HP); now left).
        assert (Hin2 : In y (x :: t))
          by (apply (Permutation_in _ (Permutation_sym HP)); now left).
        destruct Hin1 as [E|Hin1]; [congruence|].
        destruct Hin2 as [E|Hin2]; [congruence|].
        specialize (Hx _ Hin2). specialize (Hy _ Hin1). lia. }
      subst y. f_equal. apply IH; [exact Hu|].
      now apply Permutation_cons_inv in HP.
Qed.

Lemma argsort_eq (keys : list Z) : argsort keys = map snd (sorted_pairs keys).
Proof. reflexivity. Qed.

Lemma combine_seq_In (k p : Z) (l : list Z) (s : nat) :
  In (k, p) (combine l (map Z.of_nat (seq s (length l)))) ->
  exists q, p = Z.of_nat (s + q) /\ (q < length l)%nat
            /\ nth_error l q = Some k.
Proof.
  revert s. induction l as [|x t IH]; intros s; simpl; [tauto|].
  intros [E|Hin].
  - injection E as -> <-. exists 0%nat. repeat split; [f_equal; lia|lia].
  - destruct (IH _ Hin) as [q (-> & Hq & Hn)].
    exists (S q). repeat split; [f_equal; lia|lia|exact Hn].
Qed.

Lemma combine_positions_In (keys : list Z) (k p : Z) :
  In (k, p) (combine keys (py_range (zlength keys))) ->
  exists q, p = Z.of_nat q /\ (q < length keys)%nat /\ nth_error keys q = Some k.
Proof.
  unfold zlength. rewrite py_range_of_nat. intros H.
  destruct (combine_seq_In _ _ _ _ H) as [q (-> & Hq & Hn)].
  exists q. repeat split; assumption.
Qed.

Lemma sorted_pairs_In (keys : list Z) (k p : Z) :
  In (k, p) (sorted_pairs keys) ->
  exists q, p = Z.of_nat q /\ (q < length keys)%nat /\ nth_error keys q = Some k.
Proof.
  intros H. apply combine_positions_In.
  exact (Permutation_in _ (sort_keyed_perm _) H).
Qed.

Lemma combine_fst_positions (keys : list Z) :
  map fst (combine keys (py_range (zlength keys))) = keys.
Proof.
  unfold zlength. rewrite py_range_of_nat. generalize 0%nat.
  induction keys as [|x t IH]; intros s; simpl; [reflexivity|].
  now rewrite IH.
Qed.

Lemma sort_labels_perm (keys : list Z) : Permutation (sort_labels keys) keys.
Proof.
  unfold sort_labels, sorted_pairs.
  rewrite (Permutation_map fst (sort_keyed_perm _)).
  now rewrite combine_fst_positions.
Qed.

Lemma sort_labels_sorted (keys : list Z) : StronglySorted Z.le (sort_labels keys).
Proof. apply sorted_map_fst, sort_keyed_sorted. Qed.

Lemma sort_labels_of_perm (a b : list Z) :
  Permutation a b -> sort_labels a = sort_labels b.
Proof.
  intros H. apply sorted_perm_eq; try apply sort_labels_sorted.
  rewrite !sort_labels_perm. exact H.
Qed.

(** Gathering a list at the positions given by [argsort]. *)
Lemma py_take_argsort {A} (keys : list Z) (l : list A) (d : A) :
  (length keys <= length l)%nat ->
  py_take l (argsort keys)
  = inr (map (fun kp => nth (Z.to_nat (snd kp)) l d) (sorted_pairs keys)).
Proof.
  intros Hlen. rewrite argsort_eq. unfold py_take.
  rewrite (mapM_map_ok _ (fun z => nth (Z.to_nat z) l d)).
  - now rewrite map_map.
  - intros z Hz. apply in_map_iff in Hz. destruct Hz as [[k p] [<- Hin]].
    destruct (sorted_pairs_In _ _ _ Hin) as [q (-> & Hq & _)]. simpl.
    rewrite Nat2Z.id. apply py_getitem_nonneg. lia.
Qed.

Lemma py_take_argsort_keys (keys : list Z) :
  py_take keys (argsort keys) = inr (sort_labels keys).
Proof.
  rewrite (py_take_argsort keys keys 0) by lia. f_equal.
  unfold sort_labels. apply map_ext_in. intros [k p] Hin.
  destruct (sorted_pairs_In _ _ _ Hin) as [q (-> & Hq & Hn)]. simpl.
  rewrite Nat2Z.id. now apply nth_error_nth.
Qed.

(** ** Slices *)

Lemma py_range3_bounds (fuel : nat) (i hi st x : Z) :
  In x (py_range3 fuel i hi st) ->
  (0 < st -> i <= x < hi) /\ (st <= 0 -> hi < x <= i).
Proof.
  revert i. induction fuel as [|fuel IH]; intros i; simpl; [tauto|].
  destruct (Z.ltb_spec 0 st) as [Hst|Hst].
  - destruct (Z.ltb_spec i hi) as [Hi|Hi]; simpl; [|tauto].
    intros [<-|Hin]; [split; lia|].
    destruct (IH _ Hin) as [H1 _]. split; lia.
  - destruct (Z.ltb_spec hi i) as [Hi|Hi]; simpl; [|tauto].
    intros [<-|Hin]; [split; lia|].
    destruct (IH _ Hin) as [_ H2]. split; lia.
Qed.

Lemma slice_indices_ok (s : slice) (len : Z) :
  0 <= len -> step s <> Some 0 ->
  exists lo hi st,
    slice_indices s len = inr (lo, hi, st) /\ st <> 0 /\
    (0 < st -> 0 <= lo /\ hi <= len) /\
    (st < 0 -> lo <= len - 1 /\ -1 <= hi).
Proof.
  intros Hlen Hstep. unfold slice_indices.
  set (st := match step s with Some k => k | None => 1 end).
  assert (Hst : st <> 0).
  { unfold st. destruct (step s) as [k|]; [|lia]. congruence. }
  destruct (Z.eqb_spec st 0) as [E|_]; [contradiction|].
  eexists _, _, st. split; [reflexivity|]. split; [exact Hst|].
  split; intros Hs.
  - destruct (Z.ltb_spec st 0); [lia|]. split.
    + destruct (start s) as [b|]; [|lia].
      destruct (Z.ltb_spec b 0); lia.
    + destruct (stop s) as [b|]; [|lia].
      destruct (Z.ltb_spec b 0); lia.
  - destruct (Z.ltb_spec st 0); [|lia]. split.
    + destruct (start s) as [b|]; [|lia].
      destruct (Z.ltb_spec b 0); lia.
    + destruct (stop s) as [b|]; [|lia].
      destruct (Z.ltb_spec b 0); lia.
Qed.

Lemma py_take_in_range {A} (l : list A) (idx : list Z) :
  Forall (fun i => - zlength l <= i < zlength l) idx ->
  exists r, py_take l idx = inr r.
Proof.
  unfold py_take. induction 1 as [|i t Hi _ [r IH]]; simpl; [eauto|].
  assert (exists a, py_getitem l i = inr a) as [a Ha].
  { unfold py_getitem, zlength in *.
    set (j := if i <? 0 then i + Z.of_nat (length l) else i).
    assert (Hj : 0 <= j < Z.of_nat (length l))
      by (unfold j; destruct (Z.ltb_spec i 0); lia).
    destruct (Z.leb_spec 0 j); [|lia].
    destruct (nth_error l (Z.to_nat j)) eqn:E; [eauto|].
    apply nth_error_None in E. lia. }
  rewrite Ha, IH. simpl. eauto.
Qed.

(** A slice with a non-zero step always selects. *)
Lemma py_slice_ok {A} (s : slice) (l : list A) :
  step s <> Some 0 -> exists r, py_slice s l = inr r.
Proof.
  intros Hstep. unfold py_slice.
  destruct (slice_indices_ok s (zlength l)) as (lo & hi & st & E & Hst & Hp & Hn);
    [unfold zlength; lia|exact Hstep|].
  rewrite E. simpl. apply py_take_in_range. apply Forall_forall. intros x Hx.
  apply py_range3_bounds in Hx. destruct Hx as [H1 H2].
  destruct (Z.lt_total 0 st) as [H|[H|H]]; [|lia|].
  - specialize (H1 H). specialize (Hp H). lia.
  - assert (Hs : st < 0) by lia. specialize (H2 ltac:(lia)). specialize (Hn Hs). lia.
Qed.

Lemma py_range3_unit (fuel : nat) (a b : nat) :
  (b - a <= fuel)%nat ->
  py_range3 fuel (Z.of_nat a) (Z.of_nat b) 1 = map Z.of_nat (seq a (b - a)).
Proof.
  revert a. induction fuel as [|fuel IH]; intros a Hf; simpl.
  - replace (b - a)%nat with 0%nat by lia. reflexivity.
  - destruct (Z.ltb_spec (Z.of_nat a) (Z.of_nat b)) as [Hlt|Hge].
    + replace (b - a)%nat with (S (b - S a)) by lia. simpl. f_equal.
      replace (Z.of_nat a + 1) with (Z.of_nat (S a)) by lia.
      apply IH. lia.
    + replace (b - a)%nat with 0%nat by lia. reflexivity.
Qed.

Lemma map_nth_seq_window {A} (l : list A) (d : A) (a m : nat) :
  (a + m <= length l)%nat ->
  map (fun p => nth p l d) (seq a m) = firstn m (skipn a l).
Proof.
  revert a m. induction l as [|x t IH]; intros a m H; simpl in H.
  - replace m with 0%nat by lia. now destruct a.
  - destruct a as [|a].
    + destruct m as [|m]; [reflexivity|]. simpl. f_equal.
      rewrite <- seq_shift, map_map. apply (IH 0%nat m). lia.
    + rewrite <- seq_shift, map_map. simpl. apply IH. lia.
Qed.

(** The slice [a:b] with [0 <= a <= b <= len]: the window of [b - a]
    elements that starts at [a]. *)
Lemma py_slice_window {A} (l : list A) (a b : nat) :
  (a <= b <= length l)%nat ->
  py_slice (Slice (Some (Z.of_nat a)) (Some (Z.of_nat b)) None) l
  = inr (firstn (b - a) (skipn a l)).
Proof.
  intros H. unfold py_slice, slice_indices, zlength. simpl.
  destruct (Z.ltb_spec (Z.of_nat a) 0); [lia|].
  destruct (Z.ltb_spec (Z.of_nat b) 0); [lia|].
  rewrite !Z.min_l by lia. simpl.
  rewrite py_range3_unit by lia.
  destruct l as [|x t].
  - simpl in H. replace (b - a)%nat with 0%nat by lia.
    replace a with 0%nat by lia. reflexivity.
  - rewrite (py_take_positions _ x).
    + f_equal. apply map_nth_seq_window. lia.
    + apply Forall_forall. intros p Hp. apply in_seq in Hp. lia.
Qed.

Lemma combine_positions_rows {A} (keys : list Z) (l : list A) (d : A) (s : nat) :
  (s + length keys <= length l)%nat ->
  map (fun kp => (fst kp, nth (Z.to_nat (snd kp)) l d))
      (combine keys (map Z.of_nat (seq s (length keys))))
  = combine keys (skipn s l).
Proof.
  revert s. induction keys as [|k t IH]; intros s H; simpl in *; [reflexivity|].
  rewrite Nat2Z.id. rewrite IH by lia.
  assert (E : skipn s l = nth s l d :: skipn (S s) l).
  { clear -H. revert l H. induction s as [|s IHs]; intros [|x u] H; simpl in *;
      try lia; [reflexivity|]. apply IHs. lia. }
  rewrite E. reflexivity.
Qed.

Lemma In_window {A} (l : list A) (a m : nat) (x : A) :
  In x (firstn m (skipn a l)) -> In x l.
Proof.
  intros H. rewrite <- (firstn_skipn a l). apply in_or_app. right.
  rewrite <- (firstn_skipn m (skipn a l)). apply in_or_app. now left.
Qed.

(** ** Coordinate matrices with unit entries *)

Lemma coo_cell_units (codes : list Z) (s i : nat) (j : Z) :
  coo_cell (combine (map (fun _ => 1) (map Z.of_nat (seq s (length codes))))
                    (combine (map Z.of_nat (seq s (length codes))) codes))
           (Z.of_nat i) j
  = if (s <=? i)%nat && (i <? s + length codes)%nat
    then indicator (nth (i - s) codes 0) j else 0.
Proof.
  revert s. induction codes as [|c t IH]; intros s;
    cbn [length seq map combine coo_cell].
  - destruct (Nat.leb_spec s i); [|reflexivity].
    destruct (Nat.ltb_spec i (s + 0)); [lia|reflexivity].
  - rewrite IH. clear IH. unfold indicator.
    destruct (Z.eqb_spec (Z.of_nat s) (Z.of_nat i)) as [E|E].
    + apply Nat2Z.inj in E. subst i.
      destruct (Nat.leb_spec s s); [|lia].
      destruct (Nat.ltb_spec s (s + S (length t))); [|lia].
      destruct (Nat.leb_spec (S s) s); [lia|].
      rewrite Nat.sub_diag. cbn [andb nth]. destruct (c =? j); reflexivity.
    + assert (s <> i) by congruence. cbn [andb].
      destruct (Nat.leb_spec (S s) i), (Nat.leb_spec s i); try lia; cbn [andb];
        try reflexivity.
      destruct (Nat.ltb_spec i (S s + length t)),
               (Nat.ltb_spec i (s + S (length t))); try lia; try reflexivity.
      replace (i - s)%nat with (S (i - S s)) by lia. reflexivity.
Qed.

Lemma coo_matrix_units (codes : list Z) (n k : nat) :
  n = length codes ->
  Forall (fun c => 0 <= c < Z.of_nat k) codes ->
  coo_matrix (map (fun _ => 1) (py_range (Z.of_nat n))) (py_range (Z.of_nat n))
             codes n k
  = inr (Matrix k (map (fun c => map (indicator c) (py_range (Z.of_nat k)))
                       codes)).
Proof.
  intros -> Hc. unfold coo_matrix. rewrite !py_range_of_nat.
  set (R := map Z.of_nat (seq 0 (length codes))).
  assert (Hchk : forallb
            (fun e : Z * (Z * Z) => let '(_, (r, c)) := e in
               (0 <=? r) && (r <? Z.of_nat (length codes)) && (0 <=? c)
               && (c <? Z.of_nat k))
            (combine (map (fun _ => 1) R) (combine R codes)) = true).
  { apply forallb_forall. intros [v [r c]] Hin. apply in_combine_r in Hin.
    pose proof (in_combine_l _ _ _ _ Hin) as Hr.
    pose proof (in_combine_r _ _ _ _ Hin) as Hcd.
    unfold R in Hr. apply in_map_iff in Hr. destruct Hr as [q [<- Hq]].
    apply in_seq in Hq. rewrite Forall_forall in Hc. specialize (Hc c Hcd).
    repeat (apply andb_true_iff; split); try apply Z.leb_le; try apply Z.ltb_lt; lia. }
  rewrite Hchk. unfold ret. do 2 f_equal. unfold R.
  rewrite map_map.
  transitivity (map (fun i : nat => map (indicator (nth i codes 0))
                                        (map Z.of_nat (seq 0 k)))
                    (seq 0 (length codes))).
  - apply map_ext_in. intros i Hi. apply in_seq in Hi.
    apply map_ext. intros j. rewrite coo_cell_units.
    destruct (Nat.leb_spec 0 i); [|lia].
    destruct (Nat.ltb_spec i (0 + length codes)); [|lia].
    simpl. now rewrite Nat.sub_0_r.
  - rewrite <- (map_map (fun i => nth i codes 0)
                  (fun c => map (indicator c) (map Z.of_nat (seq 0 k)))).
    now rewrite map_nth_seq.
Qed.

(** ** [np.unique] *)

Lemma insert_uniq_In (k x : Z) (l : list Z) :
  In x (insert_uniq k l) <-> x = k \/ In x l.
Proof.
  induction l as [|y t IH]; simpl; [intuition|].
  destruct (Z.ltb_spec k y); simpl; [intuition|].
  destruct (Z.eqb_spec k y); simpl; [subst; intuition|].
  rewrite IH. intuition.
Qed.

Lemma unique_In (x : Z) (l : list Z) : In x (unique l) <-> In x l.
Proof.
  induction l as [|y t IH]; simpl; [tauto|].
  rewrite insert_uniq_In, IH. intuition.
Qed.

Lemma insert_uniq_sorted (k : Z) (l : list Z) :
  StronglySorted Z.lt l -> StronglySorted Z.lt (insert_uniq k l).
Proof.
  induction 1 as [|y t Ht IH Hall]; simpl.
  - constructor; constructor.
  - destruct (Z.ltb_spec k y) as [Hlt|Hge].
    + constructor; [constructor; assumption|].
      constructor; [exact Hlt|].
      rewrite Forall_forall in *. intros z Hz. specialize (Hall z Hz). lia.
    + destruct (Z.eqb_spec k y) as [->|Hne]; [constructor; assumption|].
      constructor; [exact IH|].
      rewrite Forall_forall in *. intros z Hz. apply insert_uniq_In in Hz.
      destruct Hz as [->|Hz]; [lia|now apply Hall].
Qed.

(** The result of [np.unique] is strictly increasing. *)
Lemma unique_sorted (l : list Z) : StronglySorted Z.lt (unique l).
Proof.
  induction l as [|y t IH]; simpl; [constructor|].
  now apply insert_uniq_sorted.
Qed.

Lemma strictly_sorted_NoDup (l : list Z) : StronglySorted Z.lt l -> NoDup l.
Proof.
  induction 1 as [|y t Ht IH Hall]; constructor; [|exact IH].
  intros Hin. rewrite Forall_forall in Hall. specialize (Hall y Hin). lia.
Qed.

Lemma unique_NoDup (l : list Z) : NoDup (unique l).
Proof. apply strictly_sorted_NoDup, unique_sorted. Qed.

(** Two strictly increasing lists with the same elements are one list. *)
Lemma strictly_sorted_ext (l1 l2 : list Z) :
  StronglySorted Z.lt l1 -> StronglySorted Z.lt l2 ->
  (forall x, In x l1 <-> In x l2) -> l1 = l2.
Proof.
  intros H1 H2 Hext. apply sorted_perm_eq.
  - eapply StronglySorted_ind with (P := StronglySorted Z.le); [constructor| |exact H1].
    intros a l _ IH Hall. constructor; [exact IH|].
    eapply Forall_impl; [|exact Hall]. simpl. intros; lia.
  - eapply StronglySorted_ind with (P := StronglySorted Z.le); [constructor| |exact H2].
    intros a l _ IH Hall. constructor; [exact IH|].
    eapply Forall_impl; [|exact Hall]. simpl. intros; lia.
  - apply NoDup_Permutation; [now apply strictly_sorted_NoDup
                             |now apply strictly_sorted_NoDup|exact Hext].
Qed.

Lemma unique_of_perm (a b : list Z) :
  Permutation a b -> unique a = unique b.
Proof.
  intros HP. apply strictly_sorted_ext; try apply unique_sorted.
  intros x. rewrite !unique_In. split; apply Permutation_in;
    [exact HP|exact (Permutation_sym HP)].
Qed.

(** ** Transposition and product *)

Lemma nth_map_seq {A} (h : nat -> A) (m j : nat) (d : A) :
  (j < m)%nat -> nth j (map h (seq 0 m)) d = h j.
Proof.
  intros H. rewrite (nth_indep _ d (h 0%nat)) by (now rewrite length_map, length_seq).
  rewrite map_nth. now rewrite seq_nth.
Qed.

(** [P.T.dot(G).T]: row [j] of the result lists, for each column [c] of
    [P], the product of that column with column [j] of [G]. *)
Lemma transpose_dot_transpose (P G : csr_matrix) :
  nrows P = nrows G ->
  (prod <- dot (transpose P) G ;; ret (transpose prod))
  = inr (Matrix (ncols P)
           (map (fun j => map (fun c => dot_product (column P c) (column G j))
                              (seq 0 (ncols P)))
                (seq 0 (ncols G)))).
Proof.
  intros H. unfold dot. cbn [transpose ncols]. rewrite H, Nat.eqb_refl.
  unfold transpose, nrows, ret, bind. cbn [rows ncols].
  rewrite !length_map, length_seq. do 2 f_equal.
  apply map_ext_in. intros j Hj. apply in_seq in Hj.
  unfold column at 1. cbn [rows]. rewrite !map_map.
  apply map_ext. intros c.
  now rewrite (nth_map_seq (fun j' => dot_product (column P c) (column G j')))
    by lia.
Qed.

Lemma zip_add_swap (x y r : list Z) :
  zip_add x (zip_add y r) = zip_add y (zip_add x r).
Proof.
  revert y r. induction x as [|a x IH]; intros [|b y] [|c r]; simpl;
    try reflexivity.
  f_equal; [lia|apply IH].
Qed.

Lemma zip_add_map_seq (x : list Z) (g : nat -> Z) :
  zip_add x (map g (seq 0 (length x)))
  = map (fun c => nth c x 0 + g c) (seq 0 (length x)).
Proof.
  revert g. induction x as [|a x IH]; intros g; simpl; [reflexivity|].
  f_equal. rewrite <- seq_shift, !map_map. apply IH.
Qed.

Lemma map_zero_seq (k : nat) : map (fun _ : nat => 0) (seq 0 k) = repeat 0 k.
Proof.
  generalize 0%nat. induction k as [|k IH]; intros s; simpl; [reflexivity|].
  now rewrite IH.
Qed.

(** ** The sparse frame *)

Module SparseFrameProps.
Import sparse_frame.

(** *** Construction and the sentinel row *)

Lemma _init_csr_eq (csr : csr_matrix) :
  _init_csr csr = inr (Matrix (ncols csr) (rows csr ++ [zero_row (ncols csr)])).
Proof.
  unfold _init_csr, sparse_vstack. simpl.
  rewrite Nat.eqb_refl. simpl. reflexivity.
Qed.

Lemma __init___eq (d : csr_matrix) (index columns : option Index) :
  __init__ d index columns =
  inr (Frame (match index with None => _default_index (nrows d) | Some i => i end)
             (match columns with None => _default_index (ncols d) | Some c => c end)
             (Matrix (ncols d) (rows d ++ [zero_row (ncols d)]))
             (mshape d)).
Proof.
  unfold __init__. simpl. rewrite _init_csr_eq. reflexivity.
Qed.

Lemma _default_index_length (n : nat) : length (_default_index n) = n.
Proof. apply py_range_length. Qed.

(** The accessor [data] of a constructed frame is the matrix it was built
    from: the sentinel row is not part of the logical view. *)
Lemma data_of_init (d : csr_matrix) (index columns : option Index) (f : SparseFrame) :
  __init__ d index columns = inr f -> data f = d.
Proof.
  rewrite __init___eq. intros [= <-]. unfold data, drop_last_row. simpl.
  rewrite removelast_last. now destruct d.
Qed.

(** A frame built by the constructor from a rectangular matrix and labels
    of the right lengths satisfies the invariant. *)
Lemma __init___wf (d : csr_matrix) (index columns : option Index) (f : SparseFrame) :
  rect d ->
  match index with Some i => length i = nrows d | None => True end ->
  match columns with Some c => length c = ncols d | None => True end ->
  __init__ d index columns = inr f -> wf f.
Proof.
  intros Hr Hi Hc. rewrite __init___eq. intros [= <-].
  unfold wf, data, drop_last_row, mshape, nrows. simpl.
  rewrite removelast_last. repeat split.
  - destruct d as [k rs]. apply rect_app. split; [exact Hr|].
    unfold rect. simpl. constructor; [apply zero_row_length|constructor].
  - destruct index; [exact Hi|apply _default_index_length].
  - destruct columns; [exact Hc|apply _default_index_length].
Qed.

Lemma wf_nrows (f : SparseFrame) :
  wf f -> nrows (_data f) = S (nrows (data f)).
Proof.
  intros (H & _). unfold nrows at 1. rewrite H, length_app.
  unfold nrows. cbn [length]. lia.
Qed.

Lemma wf_rect_data (f : SparseFrame) : wf f -> rect (data f).
Proof.
  intros (H & Hr & _). unfold rect in *. rewrite H in Hr.
  apply Forall_app in Hr. exact (proj1 Hr).
Qed.

(** The last stored row of a frame that satisfies the invariant is zero. *)
Lemma wf_sentinel (f : SparseFrame) :
  wf f -> py_getitem (rows (_data f)) (-1) = inr (zero_row (ncols (_data f))).
Proof. intros (H & _). rewrite H. apply py_getitem_last. Qed.

(** Two frames under the same column labels have the same width. *)
Lemma wf_same_width (A B : SparseFrame) :
  wf A -> wf B -> _columns A = _columns B ->
  ncols (_data B) = ncols (_data A).
Proof. intros (_ & _ & _ & H1 & _) (_ & _ & _ & H2 & _) Hc. congruence. Qed.

(** A concrete frame satisfies the invariant by computation. *)
Ltac wf_by_computation :=
  unfold wf, rect; simpl; repeat split; repeat constructor.

(** *** Alignment and [add] *)

Lemma body_rows_for (f : SparseFrame) :
  wf f -> NoDup (_index f) -> rows (data f) = map (row_for f) (_index f).
Proof.
  intros (H & _ & Hi & _) Hnd. unfold nrows in Hi.
  transitivity (map (fun p => row_for f (nth p (_index f) 0))
                    (seq 0 (length (_index f)))).
  - etransitivity;
      [symmetry; apply (map_nth_seq_app (rows (data f))
                          [zero_row (ncols (_data f))] [])|].
    rewrite <- H, <- Hi. apply map_ext_in. intros p Hp. apply in_seq in Hp.
    unfold row_for. rewrite find_index_nth by (try assumption; lia). reflexivity.
  - rewrite <- (map_map (fun p => nth p (_index f) 0) (row_for f)).
    now rewrite map_nth_seq.
Qed.

Lemma take_rows_for (f : SparseFrame) (labels : Index) :
  wf f ->
  py_take (rows (_data f)) (get_indexer (_index f) labels)
  = inr (map (row_for f) labels).
Proof.
  intros Hwf. pose proof (wf_nrows _ Hwf) as Hn.
  pose proof (wf_sentinel _ Hwf) as Hs.
  destruct Hwf as (H & _ & Hi & _). unfold nrows in *.
  unfold py_take, get_indexer. induction labels as [|l t IH]; simpl; [reflexivity|].
  rewrite IH. unfold row_for.
  destruct (find_index l (_index f)) as [p|] eqn:E.
  - apply find_index_Some in E. destruct E as [_ Hp].
    rewrite (py_getitem_nonneg _ _ []) by lia. reflexivity.
  - rewrite Hs. simpl. rewrite H. now rewrite last_last.
Qed.

(** What [add] computes on frames of unique labels: the labels and the
    columns of the left frame, and for each label the sum of the rows the
    label resolves to on both sides. *)
Lemma add_eq (A B : SparseFrame) :
  wf A -> wf B -> NoDup (_index A) -> NoDup (_index B) ->
  _columns A = _columns B ->
  add A B =
  inr (Frame (_index A) (_columns A)
         (Matrix (ncols (_data A))
            (map (fun l => zip_add (row_for A l) (row_for B l)) (_index A)
             ++ [zero_row (ncols (_data A))]))
         (length (_index A), ncols (_data A))).
Proof.
  intros HA HB NA NB Hc.
  pose proof (wf_same_width A B HA HB Hc) as Hk.
  unfold add, columns, index. rewrite <- Hc. unfold Index_all_eq.
  rewrite Nat.eqb_refl. simpl.
  rewrite (proj2 (values_all_eq_true _ _) eq_refl). simpl.
  assert (Hal : _aligned_csr_elop (_data A) (_data B) (_index A) (_index B)
    = inr (Matrix (ncols (_data A))
             (map (fun l => zip_add (row_for A l) (row_for B l)) (_index A)),
           _index A)).
  { unfold _aligned_csr_elop, Index_join.
    pose proof (body_rows_for _ HA NA) as EA.
    destruct (is_monotonic (_index A) && is_monotonic (_index B)
              && values_all_eq (_index A) (_index B)) eqn:Hcond.
    - apply andb_true_iff in Hcond. destruct Hcond as [_ Heq].
      apply values_all_eq_true in Heq.
      pose proof (body_rows_for _ HB NB) as EB. rewrite <- Heq in EB.
      simpl. unfold mshape, nrows, drop_last_row. simpl.
      fold (data A). fold (data B).
      unfold data, drop_last_row in EA, EB. simpl in EA, EB.
      rewrite EA, EB, !length_map, Hk. unfold shape_eqb. simpl.
      rewrite !Nat.eqb_refl. simpl. unfold binopt_plus. simpl.
      now rewrite (zip_rows_add_map (row_for A) (row_for B)).
    - simpl. unfold take_rows. rewrite (take_rows_for _ _ HB). simpl.
      unfold mshape, nrows. simpl.
      unfold data, drop_last_row in EA. simpl in EA.
      rewrite EA, !length_map, Hk. unfold shape_eqb. simpl.
      rewrite !Nat.eqb_refl. simpl. unfold binopt_plus. simpl.
      now rewrite EA, (zip_rows_add_map (row_for A) (row_for B)). }
  rewrite Hal. simpl. rewrite __init___eq. unfold mshape, nrows. simpl.
  now rewrite length_map.
Qed.

Lemma row_for_In (f : SparseFrame) (l : Z) :
  wf f -> In (row_for f l) (rows (_data f)).
Proof.
  intros Hwf. pose proof (wf_nrows _ Hwf) as Hn.
  destruct Hwf as (H & _ & Hi & _). unfold nrows in *. unfold row_for.
  destruct (find_index l (_index f)) as [p|] eqn:E.
  - apply find_index_Some in E. apply nth_In. lia.
  - rewrite H. rewrite last_last. apply in_or_app. right. now left.
Qed.

Lemma row_for_length (f : SparseFrame) (l : Z) :
  wf f -> length (row_for f l) = ncols (_data f).
Proof.
  intros Hwf. pose proof (row_for_In f l Hwf) as Hin.
  destruct Hwf as (_ & Hr & _). unfold rect in Hr.
  rewrite Forall_forall in Hr. now apply Hr.
Qed.

(** A label the frame does not carry resolves to the all-zero row. *)
Lemma row_for_absent (f : SparseFrame) (l : Z) :
  wf f -> ~ In l (_index f) -> row_for f l = zero_row (ncols (_data f)).
Proof.
  intros (H & _) Hl. unfold row_for.
  rewrite (proj2 (find_index_None l (_index f)) Hl).
  rewrite H. now rewrite last_last.
Qed.

Lemma row_for_built (idx cols : Index) (k : nat) (g : Z -> list Z)
    (z : list Z) (sh : nat * nat) (l : Z) :
  In l idx ->
  row_for (Frame idx cols (Matrix k (map g idx ++ [z])) sh) l = g l.
Proof.
  intros Hin. unfold row_for. simpl.
  destruct (find_index_In l idx Hin) as [p E]. rewrite E.
  apply find_index_Some in E. destruct E as [Hn Hp].
  rewrite app_nth1 by (rewrite length_map; exact Hp).
  rewrite (nth_indep _ [] (g l)) by (rewrite length_map; exact Hp).
  rewrite map_nth. f_equal. now apply nth_error_nth.
Qed.

Lemma wf_built (idx cols : Index) (k : nat) (X : list (list Z)) :
  Forall (fun r => length r = k) X -> length idx = length X ->
  length cols = k ->
  wf (Frame idx cols (Matrix k (X ++ [zero_row k])) (length X, k)).
Proof.
  intros HX Hi Hc. unfold wf, data, drop_last_row, mshape, nrows, rect. simpl.
  rewrite removelast_last. repeat split; try assumption.
  apply Forall_app. split; [exact HX|].
  constructor; [apply zero_row_length|constructor].
Qed.

(** C1 (amended): for two frames with identical column labels and disjoint
    sets of unique row labels, [add] returns a frame whose row labels are
    exactly those of the LEFT operand (the alignment is a left join, not a
    union), and each row of the result equals the left operand's row of
    that label, with no residual contribution from the right operand (the
    missing side resolves to the all-zero sentinel row): the result is the
    left operand itself. *)
Theorem add_disjoint_is_left_operand (A B : SparseFrame) :
  wf A -> wf B -> NoDup (_index A) -> NoDup (_index B) ->
  _columns A = _columns B ->
  (forall l, In l (_index A) -> ~ In l (_index B)) ->
  add A B = inr A.
Proof.
  intros HA HB NA NB Hc Hdis. rewrite (add_eq A B HA HB NA NB Hc).
  pose proof (wf_same_width A B HA HB Hc) as Hk.
  assert (E : map (fun l => zip_add (row_for A l) (row_for B l)) (_index A)
              = rows (data A)).
  { rewrite (body_rows_for A HA NA). apply map_ext_in. intros l Hl.
    rewrite (row_for_absent B l HB (Hdis l Hl)), Hk.
    rewrite <- (row_for_length A l HA). apply zip_add_zero_r. }
  rewrite E. destruct HA as (H & _ & Hi & _ & Hs).
  rewrite <- H, Hi. unfold mshape in Hs. unfold data in Hs at 2. simpl in Hs.
  rewrite <- Hs. destruct A as [i c [k rs] sh]. reflexivity.
Qed.

Lemma wf_frame_a : wf examples.frame_a.
Proof. wf_by_computation. Defined.

Lemma wf_frame_b : wf examples.frame_b.
Proof. wf_by_computation. Defined.

Lemma NoDup_singleton (x : Z) : NoDup [x].
Proof. constructor; [intros []|constructor]. Defined.

Lemma add_disjoint_is_left_operand_witness :
  wf examples.frame_a /\ wf examples.frame_b /\
  add examples.frame_a examples.frame_b = inr examples.frame_a.
Proof.
  split; [exact wf_frame_a|]. split; [exact wf_frame_b|].
  apply (add_disjoint_is_left_operand examples.frame_a examples.frame_b).
  - exact wf_frame_a.
  - exact wf_frame_b.
  - apply NoDup_singleton.
  - apply NoDup_singleton.
  - reflexivity.
  - simpl. intros l [<-|[]] [H|[]]. discriminate.
Defined.

(** C1, as stated, fails: the frames [[1]] labelled 0 and [[2]] labelled 1
    have disjoint labels and one shared column; their sum carries the label
    0 only, not the union {0, 1}. *)
Lemma add_disjoint_labels_are_not_the_union :
  exists R,
    add examples.frame_a examples.frame_b = inr R /\
    ~ (forall l, In l (index R) <->
                 In l (index examples.frame_a) \/ In l (index examples.frame_b)).
Proof.
  exists examples.frame_a. split; [reflexivity|].
  intros H. specialize (H 1). simpl in H.
  destruct (proj2 H) as [E|[]]; [right; now left|discriminate].
Qed.

(** *** [sort_index] *)

Lemma sorted_pairs_length (keys : list Z) :
  length (sorted_pairs keys) = length keys.
Proof.
  unfold sorted_pairs. rewrite (Permutation_length (sort_keyed_perm _)).
  rewrite length_combine. unfold zlength. rewrite py_range_length. lia.
Qed.

Lemma sort_labels_length (keys : list Z) :
  length (sort_labels keys) = length keys.
Proof. unfold sort_labels. rewrite length_map. apply sorted_pairs_length. Qed.

Lemma sort_index_eq_pairs (f : SparseFrame) :
  (length (_index f) <= nrows (_data f))%nat ->
  sort_index f =
  inr (Frame (sort_labels (_index f)) (_default_index (ncols (_data f)))
         (Matrix (ncols (_data f))
            (map (fun kp => nth (Z.to_nat (snd kp)) (rows (_data f)) [])
                 (sorted_pairs (_index f))
             ++ [zero_row (ncols (_data f))]))
         (length (_index f), ncols (_data f))).
Proof.
  intros Hlen. unfold sort_index, take_rows.
  rewrite (py_take_argsort (_index f) (rows (_data f)) []) by exact Hlen.
  simpl. rewrite py_take_argsort_keys. simpl. rewrite __init___eq.
  unfold mshape, nrows. simpl. now rewrite length_map, sorted_pairs_length.
Qed.

Lemma sort_index_eq (f : SparseFrame) :
  wf f -> NoDup (_index f) ->
  sort_index f =
  inr (Frame (sort_labels (_index f)) (_default_index (ncols (_data f)))
         (Matrix (ncols (_data f))
            (map (row_for f) (sort_labels (_index f))
             ++ [zero_row (ncols (_data f))]))
         (length (_index f), ncols (_data f))).
Proof.
  intros Hwf Hnd. pose proof (wf_nrows _ Hwf) as Hn.
  destruct Hwf as (_ & _ & Hi & _).
  rewrite sort_index_eq_pairs by lia. do 3 f_equal.
  unfold sort_labels. rewrite map_map. f_equal. apply map_ext_in. intros [k p] Hin.
  destruct (sorted_pairs_In _ _ _ Hin) as [q (-> & Hq & Hnth)]. simpl.
  rewrite Nat2Z.id. unfold row_for.
  rewrite <- (nth_error_nth _ _ 0 Hnth), find_index_nth by assumption.
  reflexivity.
Qed.

(** *** [add] and [sort_index] *)

(** The sum of two frames satisfies the invariant: its last stored row is
    zero and its labels fit its rows. *)
Lemma add_keeps_invariant (A B : SparseFrame) :
  wf A -> wf B -> NoDup (_index A) -> NoDup (_index B) ->
  _columns A = _columns B ->
  exists r, add A B = inr r /\ wf r /\
            index r = index A /\ columns r = columns A.
Proof.
  intros HA HB NA NB Hc. rewrite (add_eq A B HA HB NA NB Hc).
  eexists. split; [reflexivity|]. split; [|split; reflexivity].
  pose proof (wf_same_width A B HA HB Hc) as Hk.
  set (g := fun l => zip_add (row_for A l) (row_for B l)).
  replace (length (_index A)) with (length (map g (_index A)))
    by apply length_map.
  apply wf_built.
  - apply Forall_forall. intros r Hr. apply in_map_iff in Hr.
    destruct Hr as [l [<- _]]. unfold g. apply zip_add_length.
    + now apply row_for_length.
    + rewrite <- Hk. now apply row_for_length.
  - now rewrite length_map.
  - now destruct HA as (_ & _ & _ & H1 & _).
Qed.

Lemma add_sort_index_eq (A B : SparseFrame) :
  wf A -> wf B -> NoDup (_index A) -> NoDup (_index B) ->
  _columns A = _columns B ->
  (ab <- add A B ;; sort_index ab) =
  inr (Frame (sort_labels (_index A)) (_default_index (ncols (_data A)))
         (Matrix (ncols (_data A))
            (map (fun l => zip_add (row_for A l) (row_for B l))
                 (sort_labels (_index A))
             ++ [zero_row (ncols (_data A))]))
         (length (_index A), ncols (_data A))).
Proof.
  intros HA HB NA NB Hc.
  destruct (add_keeps_invariant A B HA HB NA NB Hc) as (r & E & Hwf & _).
  rewrite E. rewrite (add_eq A B HA HB NA NB Hc) in E. apply inr_inj in E.
  subst r. cbn [bind].
  rewrite (sort_index_eq _ Hwf NA). cbn [_index _data ncols]. do 4 f_equal.
  apply map_ext_in. intros l Hl. apply row_for_built.
  exact (Permutation_in _ (sort_labels_perm _) Hl).
Qed.

(** C4 (amended): for two frames with identical column labels whose unique
    row labels are the same set (in any order), [add] is commutative up to
    the order of the result: [A.add(B).sort_index()] and
    [B.add(A).sort_index()] are the same frame, labels and matrix. *)
Theorem add_sort_index_commutes (A B : SparseFrame) :
  wf A -> wf B -> NoDup (_index A) -> NoDup (_index B) ->
  _columns A = _columns B ->
  Permutation (_index A) (_index B) ->
  exists R,
    (ab <- add A B ;; sort_index ab) = inr R /\
    (ba <- add B A ;; sort_index ba) = inr R.
Proof.
  intros HA HB NA NB Hc HP. eexists. split.
  - apply (add_sort_index_eq A B HA HB NA NB Hc).
  - rewrite (add_sort_index_eq B A HB HA NB NA (eq_sym Hc)).
    pose proof (wf_same_width A B HA HB Hc) as Hk.
    rewrite Hk, (sort_labels_of_perm _ _ (Permutation_sym HP)).
    rewrite (Permutation_length (Permutation_sym HP)).
    do 4 f_equal. apply map_ext. intros l. apply zip_add_comm.
Qed.

(** Two different frames on the labels 0 and 1, listed in two orders: the
    rows [[1]], [[2]] under the labels 1, 0 and the rows [[10]], [[20]]
    under the labels 0, 1. *)
Lemma add_sort_index_commutes_witness :
  exists R,
    (ab <- add (Frame [1; 0] [0] (Matrix 1 [[1]; [2]; [0]]) (2%nat, 1%nat))
               (Frame [0; 1] [0] (Matrix 1 [[10]; [20]; [0]]) (2%nat, 1%nat)) ;;
     sort_index ab) = inr R /\
    (ba <- add (Frame [0; 1] [0] (Matrix 1 [[10]; [20]; [0]]) (2%nat, 1%nat))
               (Frame [1; 0] [0] (Matrix 1 [[1]; [2]; [0]]) (2%nat, 1%nat)) ;;
     sort_index ba) = inr R.
Proof.
  apply (add_sort_index_commutes
           (Frame [1; 0] [0] (Matrix 1 [[1]; [2]; [0]]) (2%nat, 1%nat))
           (Frame [0; 1] [0] (Matrix 1 [[10]; [20]; [0]]) (2%nat, 1%nat))).
  - wf_by_computation.
  - wf_by_computation.
  - apply nodupb_NoDup. reflexivity.
  - apply nodupb_NoDup. reflexivity.
  - reflexivity.
  - apply perm_swap.
Defined.

(** C4, as stated, fails: with the frames [[1]] labelled 0 and [[2]]
    labelled 1 (one shared column), [A.add(B).sort_index()] is the row
    [[1]] labelled 0 and [B.add(A).sort_index()] is the row [[2]] labelled
    1. *)
Lemma add_sort_index_does_not_commute :
  (ab <- add examples.frame_a examples.frame_b ;; sort_index ab)
    = inr examples.frame_a /\
  (ba <- add examples.frame_b examples.frame_a ;; sort_index ba)
    = inr examples.frame_b /\
  examples.frame_a <> examples.frame_b.
Proof. repeat split. discriminate. Qed.

(** *** Row slicing *)

Lemma wf_frame_two : wf examples.frame_two.
Proof. wf_by_computation. Defined.

Lemma wf_frame_named : wf examples.frame_named.
Proof. wf_by_computation. Defined.

(** C2: the claim fails on the code.  On the two-row frame
    [SparseFrame([[1], [2]])] the slice [1:] (what [iloc[1:]] passes to
    [_slice]) is taken on the stored matrix, sentinel row included: the
    result carries the one label 1 but its logical view [data] has two
    rows, the second being the sentinel row of the source.  The position
    [-1] given to [_ixs] selects the last label, 1, and the last stored
    row, the sentinel, instead of the row [[2]] of that label. *)
Theorem _slice_selects_the_sentinel_row :
  __init__ (Matrix 1 [[1]; [2]]) None None = inr examples.frame_two /\
  (exists r,
     _slice examples.frame_two (Slice (Some 1) None None) = inr r /\
     index r = [1] /\
     rows (data r) = [[2]; [0]] /\
     length (index r) <> nrows (data r)) /\
  (exists r,
     _ixs examples.frame_two (KeyInt (-1)) 0 = inr r /\
     index r = [1] /\
     rows (data r) = [[0]]).
Proof.
  split; [reflexivity|]. split.
  - eexists. split; [reflexivity|]. simpl. repeat split. discriminate.
  - eexists. split; [reflexivity|]. simpl. repeat split.
Qed.

(** Slicing inside the logical rows is sound: for [0 <= a <= b <= n] the
    slice [a:b] returns the labels and the logical rows of the same window,
    and the result satisfies the invariant. *)
Lemma _slice_window (f : SparseFrame) (a b : nat) :
  wf f -> (a <= b <= nrows (data f))%nat ->
  exists r,
    _slice f (Slice (Some (Z.of_nat a)) (Some (Z.of_nat b)) None) = inr r /\
    index r = firstn (b - a) (skipn a (index f)) /\
    rows (data r) = firstn (b - a) (skipn a (rows (data f))) /\
    wf r.
Proof.
  intros Hwf Hab. pose proof (wf_nrows _ Hwf) as Hn.
  pose proof (wf_rect_data _ Hwf) as Hrect.
  destruct Hwf as (H & Hr & Hi & Hc & Hs). unfold nrows in *.
  unfold _slice, slice_rows, index.
  rewrite py_slice_window by lia. simpl.
  rewrite py_slice_window by lia. simpl.
  rewrite __init___eq. eexists. split; [reflexivity|].
  unfold data, drop_last_row. simpl. rewrite removelast_last.
  assert (E : firstn (b - a) (skipn a (rows (_data f)))
              = firstn (b - a) (skipn a (rows (data f)))).
  { rewrite H. rewrite skipn_app, firstn_app, length_skipn.
    replace (b - a - (length (rows (data f)) - a))%nat with 0%nat by lia.
    replace (a - length (rows (data f)))%nat with 0%nat by lia.
    simpl. now rewrite app_nil_r. }
  split; [reflexivity|]. split; [exact E|].
  rewrite E. unfold mshape, nrows. simpl.
  apply wf_built.
  - unfold rect in Hrect. rewrite Forall_forall in *. intros r Hin.
    apply Hrect. exact (In_window _ _ _ _ Hin).
  - rewrite !length_firstn, !length_skipn.
    change (removelast (rows (_data f))) with (rows (data f)). lia.
  - apply _default_index_length.
Qed.

(** *** Column assignment *)

Lemma zip_app_app (a a' b b' : list (list Z)) :
  length a = length b ->
  zip_app (a ++ a') (b ++ b') = zip_app a b ++ zip_app a' b'.
Proof.
  revert b. induction a as [|r a IH]; destruct b as [|s b]; simpl;
    intros H; try discriminate; [reflexivity|].
  f_equal. apply IH. congruence.
Qed.

Lemma zero_row_snoc (k : nat) : zero_row k ++ [0] = zero_row (k + 1).
Proof. unfold zero_row. now rewrite repeat_app. Qed.

(** Whatever the key and the values, a column assignment that returns
    leaves the column labels (and [shape]) as they were. *)
Lemma __setitem___keeps_columns (f : SparseFrame) (key : Z) (value : list Z)
    (r : SparseFrame) :
  __setitem__ f key value = inr r ->
  _columns r = _columns f /\ _index r = _index f /\ shape r = shape f.
Proof.
  unfold __setitem__. destruct (sparse_hstack _ _); simpl; [discriminate|].
  intros [= <-]. simpl. repeat split.
Qed.

(** The storage after a column assignment of the right length: one more
    column, holding the values, and an all-zero last row. *)
Lemma __setitem___storage (f : SparseFrame) (key : Z) (value : list Z) :
  wf f -> length value = nrows (data f) ->
  exists r,
    __setitem__ f key value = inr r /\
    ncols (_data r) = (ncols (_data f) + 1)%nat /\
    rows (data r) = zip_app (rows (data f)) (map (fun v => [v]) value) /\
    rows (_data r) = rows (data r) ++ [zero_row (ncols (_data r))].
Proof.
  intros Hwf Hlen. pose proof (wf_nrows _ Hwf) as Hn.
  destruct Hwf as (H & _). unfold nrows in *.
  unfold __setitem__, sparse_hstack, nrows. simpl.
  rewrite length_map, length_app, Hn. simpl.
  replace (length value + 1)%nat with (S (length value)) by lia.
  rewrite Hlen, Nat.eqb_refl. simpl. eexists. split; [reflexivity|].
  unfold data, drop_last_row. cbn [_data ncols rows].
  assert (E : zip_app (rows (_data f)) (map (fun v => [v]) (value ++ [0]))
              = zip_app (rows (data f)) (map (fun v => [v]) value)
                ++ [zero_row (ncols (_data f) + 1)]).
  { rewrite H at 1. rewrite map_app, zip_app_app by (rewrite length_map; lia).
    simpl. now rewrite zero_row_snoc. }
  rewrite E, removelast_last. repeat split.
Qed.

(** C5: the claim fails on the code.  On the two-row frame
    [SparseFrame([[1], [2]])], [frame[6] = [1, 1]] adds the column of
    values to the storage, with an all-zero last row, but the column Label
    Index is still [[0]]: the label 6 is not there, and the one column
    label no longer matches the two columns of the matrix. *)
Theorem __setitem___does_not_extend_columns :
  exists r,
    __setitem__ examples.frame_two 6 [1; 1] = inr r /\
    columns r = [0] /\
    rows (_data r) = [[1; 1]; [2; 1]; [0; 0]] /\
    ncols (data r) = 2%nat /\
    length (columns r) <> ncols (data r).
Proof.
  eexists. split; [reflexivity|]. simpl. repeat split. discriminate.
Qed.

(** C9 (amended): a column assignment whose values vector is not as long
    as the frame has rows fails with a [ValueError], raised by the
    dimension check of the horizontal stacking; no assertion guards the
    assignment. *)
Theorem __setitem___length_mismatch (f : SparseFrame) (key : Z) (value : list Z) :
  wf f -> length value <> nrows (data f) ->
  __setitem__ f key value = inl (ValueError IncompatibleDimensions).
Proof.
  intros Hwf Hlen. pose proof (wf_nrows _ Hwf) as Hn.
  unfold __setitem__, sparse_hstack.
  assert (E : Nat.eqb (nrows (_data f))
                (nrows (Matrix 1 (map (fun v => [v]) (value ++ [0])))) = false).
  { apply Nat.eqb_neq. rewrite Hn. unfold nrows at 2. cbn [rows].
    rewrite length_map, length_app. cbn [length]. lia. }
  rewrite E. reflexivity.
Qed.

Lemma __setitem___length_mismatch_witness :
  wf examples.frame_two /\
  __setitem__ examples.frame_two 6 [1] = inl (ValueError IncompatibleDimensions).
Proof.
  split; [exact wf_frame_two|].
  apply (__setitem___length_mismatch examples.frame_two 6 [1]).
  - exact wf_frame_two.
  - vm_compute. lia.
Defined.

(** C9, as stated, fails: assigning one value to the two-row frame raises,
    but the exception is not an [AssertionError]. *)
Lemma __setitem___mismatch_is_not_an_assertion :
  length [1] <> nrows (data examples.frame_two) /\
  __setitem__ examples.frame_two 6 [1] <> inl AssertionError.
Proof. split; [vm_compute; lia|discriminate]. Qed.

(** *** Positional selection and the column labels *)

Lemma combine_map_both {A B C} (f : A -> B) (g : A -> C) (l : list A) :
  combine (map f l) (map g l) = map (fun a => (f a, g a)) l.
Proof. induction l as [|a t IH]; simpl; [reflexivity|]. now rewrite IH. Qed.

Lemma combine_app_r {A B} (a : list A) (b c : list B) :
  length a = length b -> combine a (b ++ c) = combine a b.
Proof.
  revert b. induction a as [|x a IH]; destruct b as [|y b]; simpl;
    intros H; try discriminate; [reflexivity|].
  f_equal. apply IH. congruence.
Qed.

Lemma init_default_columns (d : csr_matrix) (idx : option Index) (r : SparseFrame) :
  __init__ d idx None = inr r -> columns r = _default_index (ncols d).
Proof. rewrite __init___eq. now intros [= <-]. Qed.

Lemma sort_index_columns (f r : SparseFrame) :
  sort_index f = inr r -> columns r = _default_index (ncols (_data f)).
Proof.
  unfold sort_index, take_rows.
  destruct (py_take (rows (_data f)) _); simpl; [discriminate|].
  destruct (py_take (_index f) _); simpl; [discriminate|].
  intros E. exact (init_default_columns _ _ _ E).
Qed.

Lemma _slice_columns (f r : SparseFrame) (s : slice) :
  _slice f s = inr r -> columns r = _default_index (ncols (_data f)).
Proof.
  unfold _slice, slice_rows.
  destruct (py_slice s (rows (_data f))); simpl; [discriminate|].
  destruct (py_slice s (index f)); simpl; [discriminate|].
  intros E. exact (init_default_columns _ _ _ E).
Qed.

Lemma _ixs_columns (f r : SparseFrame) (key : ixs_key) (axis : Z) :
  _ixs f key axis = inr r -> columns r = _default_index (ncols (_data f)).
Proof.
  unfold _ixs, take_rows. destruct (negb (axis =? 0)); [discriminate|].
  destruct key as [i|l].
  - destruct (py_getitem (index f) i); simpl; [discriminate|].
    destruct (py_take (rows (_data f)) [i]); simpl; [discriminate|].
    intros E. exact (init_default_columns _ _ _ E).
  - destruct (py_take (index f) l); simpl; [discriminate|].
    destruct (py_take (rows (_data f)) l); simpl; [discriminate|].
    intros E. exact (init_default_columns _ _ _ E).
Qed.

Lemma py_take_nonneg {A} (l : list A) (d : A) (idx : list Z) :
  Forall (fun i => 0 <= i < zlength l) idx ->
  py_take l idx = inr (map (fun i => nth (Z.to_nat i) l d) idx).
Proof.
  intros H. unfold py_take. apply mapM_map_ok. intros i Hi.
  rewrite Forall_forall in H. specialize (H i Hi). unfold zlength in H.
  rewrite <- (Z2Nat.id i) at 1 by lia. apply py_getitem_nonneg. lia.
Qed.

Lemma wf_body_nth (f : SparseFrame) (i : nat) :
  wf f -> (i < nrows (data f))%nat ->
  nth i (rows (_data f)) [] = nth i (rows (data f)) [].
Proof. intros (H & _) Hi. rewrite H. now apply app_nth1. Qed.

(** What the code keeps of the positional selections: for every frame (in
    particular one whose column labels are not the default ones),
    [sort_index], [_slice] and [_ixs] return frames whose column Label
    Index is the default positional range index of the matrix width, not
    the original column labels; [sort_index] permutes the (label, row)
    pairs into sorted label order; [_slice] applies one slice object to the
    labels and to the stored rows, and pairs the labels with their rows
    for a window inside the logical rows; [_ixs] pairs the labels with
    their rows at positions counted from the start. *)
Lemma positional_selection_resets_columns (f : SparseFrame) :
  wf f ->
  let K := ncols (_data f) in
  let n := nrows (data f) in
  (exists r, sort_index f = inr r /\
     columns r = _default_index K /\
     index r = sort_labels (index f) /\
     Permutation (combine (index r) (rows (data r)))
                 (combine (index f) (rows (data f)))) /\
  (forall s, step s <> Some 0 ->
     exists r, _slice f s = inr r /\
       columns r = _default_index K /\
       py_slice s (index f) = inr (index r) /\
       py_slice s (rows (_data f)) = inr (rows (data r))) /\
  (forall a b, (a <= b <= n)%nat ->
     exists r,
       _slice f (Slice (Some (Z.of_nat a)) (Some (Z.of_nat b)) None) = inr r /\
       columns r = _default_index K /\
       index r = firstn (b - a) (skipn a (index f)) /\
       rows (data r) = firstn (b - a) (skipn a (rows (data f)))) /\
  (forall i, (i < n)%nat ->
     exists r, _ixs f (KeyInt (Z.of_nat i)) 0 = inr r /\
       columns r = _default_index K /\
       index r = [nth i (index f) 0] /\
       rows (data r) = [nth i (rows (data f)) []]) /\
  (forall l, Forall (fun i => 0 <= i < Z.of_nat n) l ->
     exists r, _ixs f (KeyArray l) 0 = inr r /\
       columns r = _default_index K /\
       index r = map (fun i => nth (Z.to_nat i) (index f) 0) l /\
       rows (data r) = map (fun i => nth (Z.to_nat i) (rows (data f)) []) l) /\
  (columns f <> _default_index K ->
   forall r,
     sort_index f = inr r \/ (exists s, _slice f s = inr r)
     \/ (exists key, _ixs f key 0 = inr r) ->
     columns r <> columns f).
Proof.
  intros Hwf K n. pose proof (wf_nrows _ Hwf) as Hn.
  pose proof Hwf as (H & Hr & Hi & Hc & Hs). fold n in Hi, Hn.
  repeat apply conj.
  - rewrite sort_index_eq_pairs by lia. eexists. split; [reflexivity|].
    split; [reflexivity|]. split; [reflexivity|].
    unfold n, nrows in Hi, Hn. set (body := rows (data f)) in *.
    unfold data, drop_last_row, index. cbn [_data _index rows].
    rewrite removelast_last. unfold sort_labels.
    rewrite combine_map_both. unfold sorted_pairs.
    rewrite (Permutation_map _ (sort_keyed_perm _)).
    unfold zlength. rewrite py_range_of_nat.
    rewrite (combine_positions_rows _ _ [] 0) by lia.
    simpl skipn. rewrite H.
    rewrite combine_app_r by exact Hi. reflexivity.
  - intros s Hstep. unfold _slice, slice_rows.
    destruct (py_slice_ok s (rows (_data f)) Hstep) as [rs Ers].
    destruct (py_slice_ok s (index f) Hstep) as [ls Els].
    rewrite Ers, Els. simpl. rewrite __init___eq. eexists.
    split; [reflexivity|]. split; [reflexivity|]. split; [reflexivity|].
    unfold data, drop_last_row. simpl. now rewrite removelast_last.
  - intros a b Hab. destruct (_slice_window f a b Hwf Hab) as (r & E & E1 & E2 & _).
    exists r. repeat split; try assumption. exact (_slice_columns _ _ _ E).
  - intros i Hlt. unfold _ixs, take_rows, index, py_take.
    change (negb (0 =? 0)) with false. cbv iota. cbn [mapM].
    rewrite (py_getitem_nonneg _ _ 0) by lia.
    rewrite (py_getitem_nonneg _ _ []) by (fold (nrows (_data f)); lia).
    cbn [bind ret]. rewrite __init___eq. eexists. split; [reflexivity|].
    split; [reflexivity|]. split; [reflexivity|].
    unfold data at 1, drop_last_row. simpl. f_equal.
    now apply wf_body_nth.
  - intros l Hl. unfold _ixs, take_rows, index.
    change (negb (0 =? 0)) with false. cbv iota.
    rewrite (py_take_nonneg _ 0)
      by (unfold zlength; rewrite Hi;
          exact Hl).
    cbn [bind]. rewrite (py_take_nonneg _ []).
    + cbn [bind ret]. rewrite __init___eq. eexists. split; [reflexivity|].
      split; [reflexivity|]. split; [reflexivity|].
      unfold data, drop_last_row. cbn [_data rows]. rewrite removelast_last.
      apply map_ext_in. intros i Hin. rewrite Forall_forall in Hl.
      specialize (Hl i Hin). apply wf_body_nth; [exact Hwf|]. fold n. lia.
    + unfold zlength. fold (nrows (_data f)). rewrite Hn.
      eapply Forall_impl; [|exact Hl]. simpl. intros; lia.
  - unfold K. intros Hnd r [E|[[s E]|[key E]]].
    + rewrite (sort_index_columns _ _ E). congruence.
    + rewrite (_slice_columns _ _ _ E). congruence.
    + rewrite (_ixs_columns _ _ _ _ E). congruence.
Qed.

Lemma positional_selection_resets_columns_witness :
  exists r,
    sort_index examples.frame_named = inr r /\
    columns r = _default_index 1 /\
    columns r <> columns examples.frame_named.
Proof.
  destruct (positional_selection_resets_columns examples.frame_named
              wf_frame_named) as [(r & E & Hc & _) (_ & _ & _ & _ & Hne)].
  exists r. split; [exact E|]. split; [exact Hc|].
  apply Hne; [vm_compute; discriminate|left; exact E].
Defined.

(** C10: the claim fails on the code.  The frame holds the rows [[1]] and
    [[2]] under the labels 0 and 1 and the column label 7.  The columns of
    every selection are the default ones, as the claim has it, but the
    labels and the rows are not selected consistently: the slice object
    and the positions are applied to the labels and to the stored matrix,
    which has one row more.  The slice [1:] returns the one label 1 for
    the two rows [[2]], [[0]]; the slice [:] returns the two labels for
    three rows; the position [-1] returns the label 1 with the row [[0]],
    where the frame holds [[2]] under that label; the positions [-1, 0]
    return the labels 1, 0 with the rows [[0]], [[1]]. *)
Theorem positional_selection_mispairs_rows :
  logical_row_for examples.frame_named 1 = [2] /\
  (exists r,
     _slice examples.frame_named (Slice (Some 1) None None) = inr r /\
     columns r = [0] /\ index r = [1] /\ rows (data r) = [[2]; [0]]) /\
  (exists r,
     _slice examples.frame_named (Slice None None None) = inr r /\
     columns r = [0] /\ index r = [0; 1] /\
     rows (data r) = [[1]; [2]; [0]]) /\
  (exists r,
     _ixs examples.frame_named (KeyInt (-1)) 0 = inr r /\
     columns r = [0] /\ index r = [1] /\ rows (data r) = [[0]]) /\
  (exists r,
     _ixs examples.frame_named (KeyArray [-1; 0]) 0 = inr r /\
     columns r = [0] /\ index r = [1; 0] /\ rows (data r) = [[0]; [1]]).
Proof.
  split; [reflexivity|].
  split; [eexists; split; [vm_compute; reflexivity|]; repeat split|].
  split; [eexists; split; [vm_compute; reflexivity|]; repeat split|].
  split; eexists; (split; [vm_compute; reflexivity|]); repeat split.
Qed.

(** *** [join] *)

(** Row-wise join of two frames with identical column labels: the short
    path stacks the logical rows and the row labels; the shape adds up. *)
Lemma join_axis0_shape (A B : SparseFrame) :
  wf A -> wf B -> _columns A = _columns B ->
  exists r,
    join A B 0 = inr r /\
    shape r = (fst (shape A) + fst (shape B), snd (shape A))%nat /\
    index r = index A ++ index B /\
    columns r = columns A /\
    rows (data r) = rows (data A) ++ rows (data B) /\
    wf r.
Proof.
  intros HA HB Hc.
  pose proof (wf_same_width A B HA HB Hc) as Hk.
  pose proof (wf_rect_data _ HA) as RA. pose proof (wf_rect_data _ HB) as RB.
  destruct HA as (_ & _ & HiA & HcA & HsA), HB as (_ & _ & HiB & _ & HsB).
  unfold join. change (negb ((0 =? 0) || (0 =? 1))) with false.
  change (0 =? 0) with true. cbv iota.
  rewrite (np_all_eq_of_eq _ _ (eq_sym Hc)).
  unfold join_fast. change (0 =? 0) with true. cbv iota.
  unfold sparse_vstack. cbn [forallb].
  assert (E : Nat.eqb (ncols (data B)) (ncols (data A)) = true)
    by (apply Nat.eqb_eq; exact Hk).
  rewrite Nat.eqb_refl, E. cbn [andb bind ret flat_map].
  rewrite app_nil_r, __init___eq. eexists. split; [reflexivity|].
  change (ncols (data A)) with (ncols (_data A)).
  unfold nrows in *. set (bA := rows (data A)) in *.
  set (bB := rows (data B)) in *.
  unfold data, drop_last_row, index, columns, mshape, nrows.
  cbn [_data _index _columns rows shape ncols].
  rewrite removelast_last, HsA, HsB. unfold mshape, nrows.
  cbn [fst snd ncols]. fold bA. fold bB. rewrite length_app.
  do 4 (split; [reflexivity|]).
  replace (length bA + length bB)%nat
    with (length (bA ++ bB)) by apply length_app.
  apply wf_built.
  - apply Forall_app. split; [exact RA|].
    unfold rect in RB. change (ncols (data B)) with (ncols (_data B)) in RB.
    rewrite Hk in RB. exact RB.
  - rewrite !length_app. lia.
  - exact HcA.
Qed.

(** X8: Column-wise join of two frames with identical unique row labels: the
    alignment path computes what the short path computes. *)
Lemma join_axis1_paths_agree (A B : SparseFrame) :
  wf A -> wf B -> NoDup (_index A) -> _index A = _index B ->
  join_general A B 1 = join_fast A B 1.
Proof.
  intros HA HB NA Hidx. unfold join_general, join_fast.
  change (1 =? 0) with false. cbv iota.
  assert (E : _matrix_join (_data A) (_data B) (index A) (index B)
              = d <- sparse_hstack (data A) (data B) ;; ret (d, index A)).
  { unfold _matrix_join, Index_join, index. rewrite <- Hidx.
    destruct (is_monotonic (_index A) && is_monotonic (_index A)
              && values_all_eq (_index A) (_index A)); [reflexivity|].
    assert (U : Index_union (_index A) (_index A) = _index A).
    { unfold Index_union. destruct (_index A); [reflexivity|].
      now rewrite (proj2 (values_all_eq_true _ _) eq_refl). }
    rewrite U. unfold take_rows.
    rewrite (take_rows_for A (_index A) HA).
    pose proof (take_rows_for B (_index A) HB) as EB. rewrite <- Hidx in EB.
    rewrite EB. cbn [bind ret].
    rewrite <- (body_rows_for A HA NA).
    assert (NB : NoDup (_index B)) by (rewrite <- Hidx; exact NA).
    pose proof (body_rows_for B HB NB) as FB. rewrite <- Hidx in FB.
    rewrite <- FB. reflexivity. }
  rewrite E. unfold index. destruct (sparse_hstack (data A) (data B)); reflexivity.
Qed.

(** C6: the claim fails on the code.  The frames [[1]] labelled 0 and
    [[2]] labelled 1 have the same single column label.  The short path of
    the row-wise join stacks them into a frame of shape (1 + 1, 1); the
    alignment path of the row-wise join raises [AttributeError] (it calls
    [to_csr], which no scipy matrix has), as it does on every input; a
    row-wise join of frames with different column labels, which takes the
    alignment path, raises it. *)
Theorem join_axis0_general_path_raises :
  join_fast examples.frame_a examples.frame_b 0
    = inr (Frame [0; 1] [0] (Matrix 1 [[1]; [2]; [0]]) (2%nat, 1%nat)) /\
  join_general examples.frame_a examples.frame_b 0 = inl AttributeError /\
  join examples.frame_a examples.frame_c 0 = inl AttributeError /\
  (forall A B r, join_general A B 0 <> inr r).
Proof.
  split; [reflexivity|]. split; [reflexivity|]. split; [reflexivity|].
  intros A B r. unfold join_general. change (0 =? 0) with true. cbv iota.
  destruct (_matrix_join _ _ _ _) as [e|[d i]]; discriminate.
Qed.

(** *** One-hot encoding *)

Lemma mem_In (x : Z) (l : list Z) : mem x l = true <-> In x l.
Proof.
  unfold mem. rewrite existsb_exists. split.
  - intros [y [Hy E]]. apply Z.eqb_eq in E. now subst.
  - intros H. exists x. split; [exact H|apply Z.eqb_refl].
Qed.

Lemma code_absent (cats : list Z) (v : Z) :
  (match find_index v cats with Some p => Z.of_nat p | None => -1 end =? -1)
  = negb (mem v cats).
Proof.
  destruct (find_index v cats) as [p|] eqn:E.
  - apply find_index_Some in E. destruct E as [E _].
    apply nth_error_In in E. apply mem_In in E. rewrite E.
    apply Z.eqb_neq. lia.
  - apply find_index_None in E.
    destruct (mem v cats) eqn:M; [apply mem_In in M; contradiction|reflexivity].
Qed.

Lemma one_hot_mask (cats s : list Z) :
  let mask := map (fun c => negb (c =? -1)) (get_indexer cats s) in
  existsb negb mask = existsb (fun v => negb (mem v cats)) s /\
  map fst (filter (fun vm : Z * bool => negb (snd vm)) (combine s mask))
  = filter (fun v => negb (mem v cats)) s.
Proof.
  unfold get_indexer. induction s as [|v t [IH1 IH2]]; simpl; [split; reflexivity|].
  rewrite code_absent, negb_involutive, IH1. split; [reflexivity|].
  destruct (mem v cats); simpl; now rewrite IH2.
Qed.

Lemma get_indexer_codes (cats s : list Z) :
  (forall v, In v s -> In v cats) ->
  Forall (fun c => 0 <= c < Z.of_nat (length cats)) (get_indexer cats s).
Proof.
  intros H. unfold get_indexer. apply Forall_forall. intros c Hc.
  apply in_map_iff in Hc. destruct Hc as [v [<- Hv]].
  destruct (find_index_In v cats (H v Hv)) as [p E]. rewrite E.
  apply find_index_Some in E. lia.
Qed.

Lemma indicator_row (k p : nat) :
  map (indicator (Z.of_nat p)) (py_range (Z.of_nat k)) = one_hot_row k p.
Proof.
  rewrite py_range_of_nat, map_map. unfold one_hot_row, indicator.
  apply map_ext. intros j.
  destruct (Z.eqb_spec (Z.of_nat p) (Z.of_nat j)), (Nat.eqb_spec j p);
    try reflexivity; lia.
Qed.

(** C8: against a fixed vocabulary of distinct categories, one-hot
    encoding fails with the [ValueError] whose message lists the offending
    values (exactly the input values outside the vocabulary, each once)
    whenever some input value is outside the vocabulary: no row is dropped
    and no matrix is returned; otherwise it returns a matrix of shape
    (n_samples, n_categories) whose row [i] holds a single 1, in the column
    of the category of the [i]-th input value, and zeros elsewhere. *)
Theorem csr_one_hot_series_spec (s cats : list Z) :
  NoDup cats ->
  ((exists v, In v s /\ ~ In v cats) ->
     exists offending,
       csr_one_hot_series s cats
         = inl (ValueError (UnknownCategorical offending)) /\
       offending <> [] /\ NoDup offending /\
       forall v, In v offending <-> In v s /\ ~ In v cats) /\
  ((forall v, In v s -> In v cats) ->
     exists m,
       csr_one_hot_series s cats = inr m /\
       mshape m = (length s, length cats) /\
       rect m /\
       forall i v, nth_error s i = Some v ->
         exists p, nth_error cats p = Some v /\
                   nth_error (rows m) i = Some (one_hot_row (length cats) p)).
Proof.
  intros Hnd. unfold csr_one_hot_series, pd_Categorical.
  rewrite (proj2 (nodupb_NoDup cats) Hnd). cbn [bind ret codes categories].
  destruct (one_hot_mask cats s) as [Hex Hfil]. cbv zeta in Hex, Hfil.
  rewrite Hex, Hfil. split.
  - intros [v [Hs Hc]].
    assert (E : existsb (fun v => negb (mem v cats)) s = true).
    { apply existsb_exists. exists v. split; [exact Hs|].
      destruct (mem v cats) eqn:M; [apply mem_In in M; contradiction|reflexivity]. }
    rewrite E. eexists. split; [reflexivity|].
    assert (Hin : forall x, In x (unique (filter (fun v => negb (mem v cats)) s))
                            <-> In x s /\ ~ In x cats).
    { intros x. rewrite unique_In, filter_In, negb_true_iff.
      split; intros [H1 H2]; split; try assumption.
      - intros Hx. apply mem_In in Hx. congruence.
      - destruct (mem x cats) eqn:M; [apply mem_In in M; contradiction|reflexivity]. }
    split; [|split; [apply unique_NoDup|exact Hin]].
    intros Hnil. assert (Hv : In v []) by (rewrite <- Hnil; apply Hin; tauto).
    destruct Hv.
  - intros Hall.
    assert (E : existsb (fun v => negb (mem v cats)) s = false).
    { destruct (existsb _ s) eqn:X; [|reflexivity].
      apply existsb_exists in X. destruct X as [v [Hv Hm]].
      apply negb_true_iff in Hm. apply Hall, mem_In in Hv. congruence. }
    rewrite E.
    assert (Hlen : length (get_indexer cats s) = length s)
      by (unfold get_indexer; apply length_map).
    rewrite coo_matrix_units by (try reflexivity; now apply get_indexer_codes).
    eexists. split; [reflexivity|]. unfold mshape, nrows, rect.
    cbn [rows ncols]. rewrite length_map, Hlen. split; [reflexivity|]. split.
    + apply Forall_forall. intros r Hr. apply in_map_iff in Hr.
      destruct Hr as [c [<- _]]. now rewrite length_map, py_range_length.
    + intros i v Hi. assert (Hv : In v s) by (eapply nth_error_In; exact Hi).
      destruct (find_index_In v cats (Hall v Hv)) as [p Ep].
      exists p. split; [apply (find_index_Some _ _ _ Ep)|].
      unfold get_indexer. rewrite map_map, nth_error_map, Hi. cbn [option_map].
      rewrite Ep. now rewrite indicator_row.
Qed.

Lemma csr_one_hot_series_spec_witness :
  (exists offending,
     csr_one_hot_series [0; 7; 1] [0; 1; 2]
       = inl (ValueError (UnknownCategorical offending)) /\
     offending <> [] /\ NoDup offending /\
     forall v, In v offending <-> In v [0; 7; 1] /\ ~ In v [0; 1; 2]) /\
  (exists m,
     csr_one_hot_series [2; 0] [0; 1; 2] = inr m /\
     mshape m = (2%nat, 3%nat) /\
     rect m /\
     forall i v, nth_error [2; 0] i = Some v ->
       exists p, nth_error [0; 1; 2] p = Some v /\
                 nth_error (rows m) i = Some (one_hot_row 3 p)).
Proof.
  assert (Hnd : NoDup [0; 1; 2]).
  { apply nodupb_NoDup. reflexivity. }
  split.
  - apply (proj1 (csr_one_hot_series_spec [0; 7; 1] [0; 1; 2] Hnd)).
    exists 7. split; [simpl; tauto|]. simpl. lia.
  - apply (proj2 (csr_one_hot_series_spec [2; 0] [0; 1; 2] Hnd)).
    simpl. intros v [<-|[<-|[]]]; tauto.
Defined.

(** *** [groupby] *)

Lemma sum_rows_perm (k : nat) (l1 l2 : list (list Z)) :
  Permutation l1 l2 -> sum_rows k l1 = sum_rows k l2.
Proof.
  unfold sum_rows. induction 1; simpl.
  - reflexivity.
  - now f_equal.
  - apply zip_add_swap.
  - congruence.
Qed.

Lemma rows_with_key_perm (u : Z) (keys keys' : list Z) (X X' : list (list Z)) :
  Permutation (combine keys X) (combine keys' X') ->
  Permutation (rows_with_key u keys X) (rows_with_key u keys' X').
Proof.
  intros H. unfold rows_with_key. apply Permutation_map.
  clear -H. induction H; simpl.
  - reflexivity.
  - destruct (fst x =? u); [now constructor|assumption].
  - destruct (fst x =? u), (fst y =? u); try reflexivity. apply perm_swap.
  - etransitivity; eassumption.
Qed.

(** The product of the columns of [X] with the membership column of one
    key is the sum of the rows of [X] that carry the key. *)
Lemma group_column_sums (k : nat) (u : Z) (keys : list Z) (X : list (list Z)) :
  length keys = length X -> Forall (fun r => length r = k) X ->
  map (fun c => dot_product (map (fun r => nth c r 0) X)
                            (map (fun v => if v =? u then 1 else 0) keys))
      (seq 0 k)
  = sum_rows k (rows_with_key u keys X).
Proof.
  revert keys. induction X as [|x X IH]; intros [|v t] Hlen HX; try discriminate.
  - simpl. apply map_zero_seq.
  - inversion HX as [|? ? Hx HX']; subst. injection Hlen as Hlen.
    specialize (IH t Hlen HX'). unfold rows_with_key in *. cbn [combine filter fst].
    cbn [map dot_product].
    destruct (Z.eqb_spec v u) as [E|E].
    + cbn [map snd]. unfold sum_rows in *. cbn [fold_right]. rewrite <- IH.
      rewrite zip_add_map_seq. apply map_ext. intros c. lia.
    + rewrite <- IH. apply map_ext. intros c. lia.
Qed.

Lemma membership_column (U sk : list Z) (j : nat) :
  NoDup U -> (forall v, In v sk -> In v U) -> (j < length U)%nat ->
  map (fun r => nth j r 0)
      (map (fun c => map (indicator c) (py_range (Z.of_nat (length U))))
           (get_indexer U sk))
  = map (fun v => if v =? nth j U 0 then 1 else 0) sk.
Proof.
  intros Hnd Hin Hj. unfold get_indexer. rewrite !map_map.
  apply map_ext_in. intros v Hv.
  rewrite py_range_of_nat, map_map, nth_map_seq by exact Hj.
  destruct (find_index_In v U (Hin v Hv)) as [p Ep]. rewrite Ep.
  apply find_index_Some in Ep. destruct Ep as [Ep Hp]. unfold indicator.
  destruct (Z.eqb_spec (Z.of_nat p) (Z.of_nat j)) as [E|E],
           (Z.eqb_spec v (nth j U 0)) as [F|F]; try reflexivity; exfalso.
  - apply Nat2Z.inj in E. subst p. apply F. symmetry. now apply nth_error_nth.
  - apply E. f_equal.
    assert (G : find_index v U = Some j) by (rewrite F; now apply find_index_nth).
    assert (G' : find_index v U = Some p).
    { rewrite <- (nth_error_nth _ _ 0 Ep). now apply find_index_nth. }
    congruence.
Qed.

Lemma _create_group_matrix_eq (g : list Z) :
  _create_group_matrix g
  = inr (Matrix (length (unique g))
           (map (fun c => map (indicator c)
                              (py_range (Z.of_nat (length (unique g)))))
                (get_indexer (unique g) g))).
Proof.
  unfold _create_group_matrix, pd_Categorical.
  rewrite (proj2 (nodupb_NoDup _) (unique_NoDup g)).
  cbn [bind ret codes categories]. unfold zlength.
  replace (length g) with (length (get_indexer (unique g) g))
    by (unfold get_indexer; apply length_map).
  apply coo_matrix_units; [reflexivity|].
  apply get_indexer_codes. intros v Hv. now apply unique_In.
Qed.

Lemma combine_sorted_rows (keys : list Z) (body : list (list Z)) (z : list Z) :
  length keys = length body ->
  Permutation
    (combine (sort_labels keys)
       (map (fun kp => nth (Z.to_nat (snd kp)) (body ++ [z]) [])
            (sorted_pairs keys)))
    (combine keys body).
Proof.
  intros Hlen. unfold sort_labels. rewrite combine_map_both.
  unfold sorted_pairs. rewrite (Permutation_map _ (sort_keyed_perm _)).
  unfold zlength. rewrite py_range_of_nat.
  rewrite (combine_positions_rows _ _ [] 0) by (rewrite length_app; lia).
  simpl skipn. now rewrite combine_app_r.
Qed.


Lemma wf_frame_dup : wf examples.frame_dup.
Proof. wf_by_computation. Defined.

End SparseFrameProps.

(** ** The partitioned frame *)

Module DaskProps.
Import dask_core.

(** C7: the claim fails on the code.  A frame of fifteen one-row
    partitions is repartitioned to eleven.  The ratio 15/11 and the products
    [i * ratio] are floats: [11 * (15 / 11)] is 14.999999999999998 and
    [int] truncates it to 14, where [floor(11 * 15 / 11)] is 15.  The
    boundaries stop at 14: the old partition 14 is read by no new
    partition, and the new partitions hold 14 rows where the old ones hold
    15. *)
Theorem repartition_npartitions_drops_a_partition :
  npartitions examples.fifteen = 15 /\
  new_partitions_boundaries 15 11
    = inr [0; 1; 2; 4; 5; 6; 8; 9; 10; 12; 13; 14] /\
  exists df,
    repartition_npartitions examples.fifteen 11 = inr (Merged df) /\
    npartitions df = 11 /\
    consumed_keys df = map (fun i => (Source 0, i)) (py_range 14) /\
    ~ In (Source 0, 14) (consumed_keys df) /\
    (counts <- partition_row_counts 1 examples.fifteen ;;
     ret (list_sum counts)) = inr 15%nat /\
    (counts <- partition_row_counts 2 df ;; ret (list_sum counts))
      = inr 14%nat.
Proof.
  split; [reflexivity|]. split; [vm_compute; reflexivity|].
  set (r := repartition_npartitions examples.fifteen 11).
  vm_compute in r. subst r. eexists. split; [reflexivity|].
  split; [reflexivity|].
  split; [vm_compute; reflexivity|].
  split.
  - vm_compute. intros H.
    repeat (destruct H as [H|H]; [discriminate H|]). exact H.
  - split; vm_compute; reflexivity.
Qed.

(** *** Merging under exact boundaries *)

Lemma gname_eqb_refl (a : gname) : gname_eqb a a = true.
Proof.
  induction a as [i|n a IH]; simpl; [apply Z.eqb_refl|].
  now rewrite Z.eqb_refl, IH.
Qed.

Lemma lookup_new_partition (nm : gname) (t : Z -> task) (js : list Z)
    (g : graph) (i : Z) :
  In i js ->
  lookup (merge g (map (fun j => ((nm, j), t j)) js)) (nm, i) = Some (t i).
Proof.
  unfold merge. induction js as [|j js IH]; intros Hin; [destruct Hin|].
  cbn [map app lookup]. unfold key_eqb. cbn [fst snd].
  rewrite gname_eqb_refl. cbn [andb].
  destruct (Z.eqb_spec i j) as [->|Hne]; [reflexivity|].
  apply IH. destruct Hin as [E|Hin]; [congruence|exact Hin].
Qed.

Lemma py_range2_eq (lo hi : Z) :
  py_range2 lo hi
  = map (fun i => lo + Z.of_nat i) (seq 0 (Z.to_nat (hi - lo))).
Proof.
  unfold py_range2.
  assert (G : forall fuel lo, Z.to_nat (hi - lo) = fuel ->
            py_range3 fuel lo hi 1
            = map (fun i => lo + Z.of_nat i) (seq 0 fuel)).
  { induction fuel as [|fuel IH]; intros l Hf; [reflexivity|].
    cbn [py_range3]. change (0 <? 1) with true. cbv iota.
    destruct (Z.ltb_spec l hi); [|lia].
    cbn [seq map]. f_equal; [lia|].
    rewrite <- seq_shift, map_map, IH by lia.
    apply map_ext. intros i. lia. }
  now apply G.
Qed.

Lemma py_range2_app (a b c : Z) :
  a <= b <= c -> py_range2 a b ++ py_range2 b c = py_range2 a c.
Proof.
  intros H. rewrite !py_range2_eq.
  replace (Z.to_nat (c - a)) with (Z.to_nat (b - a) + Z.to_nat (c - b))%nat by lia.
  rewrite seq_app, map_app. f_equal. cbn [Nat.add].
  assert (G : forall m s,
            map (fun i => b + Z.of_nat i) (seq s m)
            = map (fun i => a + Z.of_nat i) (seq (Z.to_nat (b - a) + s) m)).
  { induction m as [|m IH]; intros s; [reflexivity|].
    cbn [seq map]. f_equal; [lia|].
    rewrite IH. now rewrite Nat.add_succ_r. }
  rewrite G. now rewrite Nat.add_0_r.
Qed.

(** The groups cut by a non-decreasing list of boundaries, one after the
    other, are the range from the first boundary to the last. *)
Lemma groups_telescope (bs : list Z) :
  StronglySorted Z.le bs ->
  flat_map (fun q => py_range2 (nth q bs 0) (nth (S q) bs 0))
           (seq 0 (length bs - 1))
  = py_range2 (hd 0 bs) (last bs 0).
Proof.
  induction 1 as [|b t Ht IH Hall].
  - rewrite py_range2_eq. reflexivity.
  - destruct t as [|c t].
    + cbn. rewrite py_range2_eq. now rewrite Z.sub_diag.
    + replace (length (b :: c :: t) - 1)%nat with (S (length (c :: t) - 1))
        by (cbn [length]; lia).
      cbn [seq flat_map]. rewrite <- seq_shift, flat_map_concat_map, map_map.
      rewrite <- flat_map_concat_map.
      change (flat_map (fun q => py_range2 (nth (S q) (b :: c :: t) 0)
                                           (nth (S (S q)) (b :: c :: t) 0))
                       (seq 0 (length (c :: t) - 1)))
        with (flat_map (fun q => py_range2 (nth q (c :: t) 0)
                                           (nth (S q) (c :: t) 0))
                       (seq 0 (length (c :: t) - 1))).
      rewrite IH. cbn [nth hd].
      change (last (b :: c :: t) 0) with (last (c :: t) 0).
      apply py_range2_app. split.
      * inversion Hall; assumption.
      * inversion Ht as [|? ? _ Hc]; subst.
        destruct (exists_last (l := c :: t) ltac:(discriminate)) as [u [x E]].
        rewrite E, last_last.
        destruct u as [|y u]; [injection E as ->; lia|].
        injection E as -> E. rewrite Forall_forall in Hc. apply Hc.
        rewrite E. apply in_or_app. right. now left.
Qed.

(** X22: When the computed boundaries are the exact ones (they start at 0, do
    not decrease and end at the old partition count), the merged frame has
    the requested number of partitions and its tasks read every old
    partition exactly once, in order. *)
Lemma repartition_npartitions_exact (df : SparseFrame) (n : Z) (bounds : list Z) :
  0 < n < npartitions df ->
  new_partitions_boundaries (npartitions df) n = inr bounds ->
  StronglySorted Z.le bounds -> hd 0 bounds = 0 ->
  last bounds 0 = npartitions df ->
  exists df',
    repartition_npartitions df n = inr (Merged df') /\
    npartitions df' = n /\
    consumed_keys df' = _keys df.
Proof.
  intros Hn Hb Hs Hhd Hlast.
  assert (Hlen : length bounds = S (Z.to_nat n)).
  { unfold new_partitions_boundaries in Hb.
    destruct (py_truediv _ _); [discriminate|]. cbn [bind] in Hb.
    apply mapM_length in Hb. rewrite Hb. unfold py_range.
    rewrite length_map, length_seq. lia. }
  set (old := npartitions df) in *.
  assert (Hrange : Forall (fun b => 0 <= b <= old) bounds).
  { destruct bounds as [|b0 t]; [discriminate|]. cbn [hd] in Hhd. subst b0.
    inversion Hs as [|? ? Ht H0]; subst. constructor.
    - destruct (exists_last (l := 0 :: t) ltac:(discriminate)) as [u [x E]].
      rewrite E, last_last in Hlast. subst x.
      destruct u as [|y u]; [injection E as <-; lia|].
      injection E as <- E. rewrite Forall_forall in H0. split; [lia|].
      apply H0. rewrite E. apply in_or_app. right. now left.
    - apply Forall_forall. intros b Hin.
      rewrite Forall_forall in H0. split; [now apply H0|].
      destruct (exists_last (l := 0 :: t) ltac:(discriminate)) as [u [x E]].
      rewrite E, last_last in Hlast. subst x.
      assert (Hin' : In b (u ++ [old])) by (rewrite <- E; now right).
      apply in_app_or in Hin'. destruct Hin' as [Hu|[<-|[]]]; [|lia].
      clear -Hs E Hu. rewrite E in Hs. clear E.
      induction u as [|y u IH]; [destruct Hu|].
      inversion Hs as [|? ? Hs' Hy]; subst. destruct Hu as [<-|Hu].
      + rewrite Forall_forall in Hy. apply Hy. apply in_or_app. right. now left.
      + now apply IH. }
  set (nm := RepartitionName n (_name df)).
  set (t := fun j => VstackTask
              (map (fun old_partition_index => (_name df, old_partition_index))
                   (py_range2 (nth (Z.to_nat j) bounds 0)
                              (nth (S (Z.to_nat j)) bounds 0)))).
  assert (Hdsk : mapM (fun new_partition_index =>
                   lo <- py_getitem bounds new_partition_index ;;
                   hi <- py_getitem bounds (new_partition_index + 1) ;;
                   ret ((nm, new_partition_index),
                        VstackTask (map (fun old_partition_index =>
                                           (_name df, old_partition_index))
                                        (py_range2 lo hi))))
                (py_range n)
              = inr (map (fun j => ((nm, j), t j)) (py_range n))).
  { apply mapM_map_ok. intros j Hj. unfold py_range in Hj.
    apply in_map_iff in Hj. destruct Hj as [q [<- Hq]]. apply in_seq in Hq.
    rewrite (py_getitem_nonneg _ _ 0) by lia.
    replace (Z.of_nat q + 1) with (Z.of_nat (S q)) by lia.
    rewrite (py_getitem_nonneg _ _ 0) by lia.
    unfold t. now rewrite Nat2Z.id. }
  assert (Hdivs : exists divs,
             mapM (py_getitem (divisions df)) bounds = inr divs).
  { apply py_take_in_range. eapply Forall_impl; [|exact Hrange].
    cbn beta. intros b Hb'. unfold old, npartitions in Hb'. lia. }
  destruct Hdivs as [divs Hdivs].
  assert (Hdl : length divs = S (Z.to_nat n))
    by (rewrite (mapM_length _ _ _ Hdivs); exact Hlen).
  unfold repartition_npartitions. fold old. fold nm.
  destruct (Z.eqb_spec old n); [lia|].
  destruct (Z.gtb_spec old n); [|lia].
  rewrite Hb. cbn [bind]. rewrite Hdsk. cbn [bind]. rewrite Hdivs.
  cbn [bind ret]. eexists. split; [reflexivity|].
  assert (Hnp : npartitions (__init__ (merge (dask df)
                    (map (fun j => ((nm, j), t j)) (py_range n)))
                  nm (_meta df) divs) = n).
  { unfold npartitions, __init__, zlength. cbn [divisions]. lia. }
  split; [exact Hnp|].
  unfold consumed_keys, _keys. rewrite Hnp. cbn [__init__ dask _name].
  rewrite flat_map_concat_map, map_map.
  transitivity (concat (map (fun j => task_inputs (t j)) (py_range n))).
  { f_equal. apply map_ext_in. intros j Hj.
    now rewrite lookup_new_partition. }
  unfold t. cbn [task_inputs]. rewrite <- flat_map_concat_map.
  transitivity (map (fun i => (_name df, i))
                  (flat_map (fun q => py_range2 (nth q bounds 0)
                                                (nth (S q) bounds 0))
                            (seq 0 (length bounds - 1)))).
  { rewrite Hlen. replace (S (Z.to_nat n) - 1)%nat with (Z.to_nat n) by lia.
    unfold py_range. rewrite !flat_map_concat_map, map_map, concat_map, map_map.
    f_equal. apply map_ext. intros q. now rewrite Nat2Z.id. }
  rewrite (groups_telescope bounds Hs), Hhd, Hlast, py_range2_eq.
  f_equal. rewrite Z.sub_0_r. unfold py_range. apply map_ext. intros i. lia.
Qed.

(** The hypotheses are met, for instance, from fifteen partitions to five:
    the ratio 3.0 and its multiples are exact. *)
Lemma repartition_fifteen_to_five :
  exists df',
    repartition_npartitions examples.fifteen 5 = inr (Merged df') /\
    npartitions df' = 5 /\
    consumed_keys df' = _keys examples.fifteen.
Proof.
  apply (repartition_npartitions_exact examples.fifteen 5 [0; 3; 6; 9; 12; 15]).
  - vm_compute. split; reflexivity.
  - vm_compute. reflexivity.
  - repeat constructor; lia.
  - reflexivity.
  - reflexivity.
Defined.

End DaskProps.

(** ** More of the sparse frame *)

Module SparseFrameMore.
Import sparse_frame SparseFrameProps.

(** *** Construction *)

(** Construction of a frame from a matrix whose entries are binary64
    values already (no conversion changes them): the frame gives the matrix
    back through [data], records its shape, ends its storage with an
    all-zero row and satisfies the invariant. *)
Lemma construction_round_trip_exact_reading (d : csr_matrix) (index columns : option Index) :
  rect d ->
  match index with Some i => length i = nrows d | None => True end ->
  match columns with Some c => length c = ncols d | None => True end ->
  exists f,
    __init__ d index columns = inr f /\
    data f = d /\
    shape f = mshape d /\
    py_getitem (rows (_data f)) (-1) = inr (zero_row (ncols d)) /\
    nrows (_data f) = S (nrows d) /\
    wf f.
Proof.
  intros Hr Hi Hc.
  destruct (__init__ d index columns) as [e|f] eqn:E;
    [rewrite __init___eq in E; discriminate|].
  pose proof (__init___wf d index columns f Hr Hi Hc E) as Hwf.
  pose proof (data_of_init d index columns f E) as Hd.
  exists f. split; [reflexivity|]. split; [exact Hd|].
  pose proof (wf_sentinel f Hwf) as Hs. pose proof (wf_nrows f Hwf) as Hn.
  rewrite Hd in Hn. rewrite __init___eq in E. apply inr_inj in E. subst f.
  cbn [shape _data ncols] in *.
  split; [reflexivity|]. split; [exact Hs|]. split; [exact Hn|exact Hwf].
Qed.

(** *** [add] *)

Lemma nth_error_find_index (l : list Z) (i : nat) (x : Z) :
  NoDup l -> nth_error l i = Some x -> find_index x l = Some i.
Proof.
  intros Hnd Hn. rewrite <- (nth_error_nth _ _ 0 Hn).
  apply find_index_nth; [exact Hnd|].
  apply nth_error_Some. congruence.
Qed.

Lemma row_for_logical (f : SparseFrame) (l : Z) :
  wf f -> row_for f l = logical_row_for f l.
Proof.
  intros Hwf. unfold row_for, logical_row_for.
  destruct (find_index l (_index f)) as [p|] eqn:E.
  - apply find_index_Some in E. destruct E as [_ Hp].
    apply wf_body_nth; [exact Hwf|]. destruct Hwf as (_ & _ & Hi & _). lia.
  - destruct Hwf as (H & _). rewrite H. now rewrite last_last.
Qed.

(** [add] on sums that need no rounding aligns the right frame on the
    labels of the left one: the result has the labels, the columns and the
    shape of the left frame, and its row under a label is the left row
    plus the right frame's row of that label, or plus zeros when the right
    frame does not carry the label. *)
Lemma add_aligns_exact_reading (A B : SparseFrame) :
  wf A -> wf B -> NoDup (_index A) -> NoDup (_index B) ->
  _columns A = _columns B ->
  exists r,
    add A B = inr r /\
    index r = index A /\ columns r = columns A /\ shape r = shape A /\
    wf r /\
    forall i l, nth_error (index A) i = Some l ->
      nth_error (rows (data r)) i
      = Some (zip_add (nth i (rows (data A)) []) (logical_row_for B l)).
Proof.
  intros HA HB NA NB Hc.
  destruct (add_keeps_invariant A B HA HB NA NB Hc) as (r & E & Hwf & Hi & Hcol).
  exists r. split; [exact E|]. split; [exact Hi|]. split; [exact Hcol|].
  rewrite (add_eq A B HA HB NA NB Hc) in E. apply inr_inj in E. subst r.
  split.
  - destruct HA as (_ & _ & Hl & _ & Hs). rewrite Hs. unfold mshape.
    cbn [shape]. now rewrite Hl.
  - split; [exact Hwf|]. intros i l Hn.
    unfold data at 1, drop_last_row. cbn [_data rows].
    rewrite removelast_last, nth_error_map. unfold index in Hn. rewrite Hn.
    cbn [option_map]. do 2 f_equal.
    + rewrite (row_for_logical A l HA). unfold logical_row_for.
      now rewrite (nth_error_find_index _ _ _ NA Hn).
    + rewrite (row_for_logical B l HB). unfold logical_row_for.
      destruct (find_index l (_index B)); [reflexivity|].
      now rewrite (wf_same_width A B HA HB Hc).
Qed.




Lemma values_all_eq_false (a b : list Z) : a <> b -> values_all_eq a b = false.
Proof.
  intros H. destruct (values_all_eq a b) eqn:E; [|reflexivity].
  apply values_all_eq_true in E. contradiction.
Qed.

(** X4: [add] refuses a frame under other column labels, whatever the rows:
    with as many column labels the assertion fails, with another number of
    them the comparison of the two indexes raises first. *)
Theorem add_rejects_other_columns (A B : SparseFrame) :
  _columns A <> _columns B ->
  add A B = inl (if Nat.eqb (length (_columns A)) (length (_columns B))
                 then AssertionError else ValueError LengthsMustMatch).
Proof.
  intros H. unfold add, Index_all_eq, columns.
  destruct (Nat.eqb (length (_columns A)) (length (_columns B))); [|reflexivity].
  cbn [bind ret]. now rewrite (values_all_eq_false _ _ H).
Qed.

Lemma add_rejects_other_columns_witness :
  add examples.frame_a examples.frame_c = inl AssertionError.
Proof.
  apply (add_rejects_other_columns examples.frame_a examples.frame_c).
  simpl. discriminate.
Defined.


(** *** [join] and [concat] *)

(** X5: Row-wise concatenation: [concat] of frames that satisfy the invariant
    and share their column labels stacks the row labels and the logical
    rows, in order, keeps the columns, adds the heights up, and the result
    satisfies the invariant again (no sentinel row of an operand reaches
    the logical rows). *)
Theorem concat_stacks_rows (first : SparseFrame) (others : list SparseFrame) :
  wf first -> Forall wf others ->
  Forall (fun t => _columns t = _columns first) others ->
  exists r,
    concat first others 0 = inr r /\
    index r = flat_map index (first :: others) /\
    rows (data r) = flat_map (fun t => rows (data t)) (first :: others) /\
    columns r = columns first /\
    shape r = (list_sum (map (fun t => fst (shape t)) (first :: others)),
               snd (shape first)) /\
    wf r.
Proof.
  intros Hf Hall Hcols. unfold concat. revert first Hf Hcols.
  induction Hall as [|t rest Ht _ IH]; intros first Hf Hcols.
  - exists first. cbn [fold_left flat_map map list_sum fold_right].
    rewrite !app_nil_r, Nat.add_0_r. do 4 (split; [reflexivity|]).
    split; [now destruct (shape first)|exact Hf].
  - inversion Hcols as [|? ? Hc Hcols']; subst.
    destruct (join_axis0_shape first t Hf Ht (eq_sym Hc))
      as (r1 & E1 & Hs1 & Hi1 & Hc1 & Hr1 & Hw1).
    cbn [fold_left bind ret]. rewrite E1.
    assert (Hcols1 : Forall (fun u => _columns u = _columns r1) rest).
    { eapply Forall_impl; [|exact Hcols']. cbn beta. intros u Hu.
      unfold columns in Hc1. congruence. }
    destruct (IH r1 Hw1 Hcols1) as (r & E & Hi & Hr & Hc' & Hs & Hw).
    exists r. split; [exact E|]. cbn [flat_map map list_sum fold_right] in *.
    rewrite Hi, Hr, Hi1, Hr1, Hc', Hc1, Hs, Hs1. cbn [fst snd].
    rewrite <- !app_assoc, Nat.add_assoc. do 4 (split; [reflexivity|]). exact Hw.
Qed.

Lemma concat_stacks_rows_witness :
  exists r,
    concat examples.frame_a [examples.frame_b; examples.frame_two] 0 = inr r /\
    index r = [0; 1; 0; 1] /\
    rows (data r) = [[1]; [2]; [1]; [2]] /\
    columns r = [0] /\
    shape r = (4%nat, 1%nat) /\
    wf r.
Proof.
  apply (concat_stacks_rows examples.frame_a
           [examples.frame_b; examples.frame_two]).
  - exact wf_frame_a.
  - constructor; [exact wf_frame_b|].
    constructor; [exact wf_frame_two|constructor].
  - repeat constructor.
Defined.

Lemma zip_app_widths (a b : list (list Z)) (ka kb : nat) :
  length a = length b ->
  Forall (fun r => length r = ka) a -> Forall (fun r => length r = kb) b ->
  Forall (fun r => length r = (ka + kb)%nat) (zip_app a b)
  /\ length (zip_app a b) = length a.
Proof.
  revert b. induction a as [|x a IH]; destruct b as [|y b]; intros Hl Ha Hb;
    try discriminate; [split; constructor|].
  inversion Ha; inversion Hb; subst. injection Hl as Hl.
  destruct (IH b Hl) as [G1 G2]; try assumption.
  cbn [zip_app length]. split; [|congruence].
  constructor; [rewrite length_app; congruence|exact G1].
Qed.

(** X6: Column-wise join of two frames under the same row labels, in the same
    order: the rows are put side by side, the column labels one after the
    other; the row labels and the height stay, the widths add up. *)
Theorem join_columns_side_by_side (A B : SparseFrame) :
  wf A -> wf B -> _index A = _index B ->
  exists r,
    join A B 1 = inr r /\
    index r = index A /\
    columns r = columns A ++ columns B /\
    rows (data r) = zip_app (rows (data A)) (rows (data B)) /\
    shape r = (fst (shape A), (snd (shape A) + snd (shape B))%nat) /\
    wf r.
Proof.
  intros HA HB Hidx.
  pose proof (wf_rect_data A HA) as RA. pose proof (wf_rect_data B HB) as RB.
  destruct HA as (_ & _ & HiA & HcA & HsA), HB as (_ & _ & HiB & HcB & HsB).
  assert (Hrows : length (rows (data A)) = length (rows (data B))).
  { unfold nrows in *. congruence. }
  destruct (zip_app_widths _ _ _ _ Hrows RA RB) as [Hw Hl].
  unfold join. change (negb ((1 =? 0) || (1 =? 1))) with false.
  change (1 =? 0) with false. cbv iota.
  unfold index at 1 2. rewrite <- Hidx.
  rewrite (np_all_eq_of_eq _ _ eq_refl).
  unfold join_fast. change (1 =? 0) with false. cbv iota.
  unfold sparse_hstack, nrows. rewrite Hrows, Nat.eqb_refl.
  cbn [bind ret]. rewrite __init___eq. eexists. split; [reflexivity|].
  change (ncols (data A)) with (ncols (_data A)) in *.
  change (ncols (data B)) with (ncols (_data B)) in *.
  unfold nrows in *. set (bA := rows (data A)) in *.
  set (bB := rows (data B)) in *.
  unfold data, drop_last_row, index, columns, mshape, nrows.
  cbn [_data _index _columns rows shape ncols].
  rewrite removelast_last, HsA, HsB. unfold mshape, nrows.
  cbn [fst snd ncols]. fold bA. fold bB.
  do 3 (split; [reflexivity|]).
  split; [now rewrite Hl|]. apply wf_built.
  - exact Hw.
  - lia.
  - rewrite length_app. unfold columns in *. lia.
Qed.

Lemma join_columns_side_by_side_witness :
  exists r,
    join examples.frame_two examples.frame_named 1 = inr r /\
    index r = [0; 1] /\
    columns r = [0; 7] /\
    rows (data r) = [[1; 1]; [2; 2]] /\
    shape r = (2%nat, 2%nat) /\
    wf r.
Proof.
  apply (join_columns_side_by_side examples.frame_two examples.frame_named).
  - exact wf_frame_two.
  - exact wf_frame_named.
  - reflexivity.
Defined.

Lemma Index_union_In (a b : Index) (x : Z) :
  In x (Index_union a b) <-> In x a \/ In x b.
Proof.
  unfold Index_union. destruct b as [|y b]; [simpl; tauto|].
  destruct (values_all_eq a (y :: b)) eqn:E.
  - apply values_all_eq_true in E. subst a. tauto.
  - destruct a as [|z a]; [simpl; tauto|].
    rewrite unique_In, in_app_iff. tauto.
Qed.

Lemma Index_union_NoDup (a b : Index) :
  NoDup a -> NoDup b -> NoDup (Index_union a b).
Proof.
  intros Ha Hb. unfold Index_union. destruct b as [|y b]; [exact Ha|].
  destruct (values_all_eq a (y :: b)); [exact Ha|].
  destruct a; [exact Hb|apply unique_NoDup].
Qed.

Lemma zip_app_map {A} (f g : A -> list Z) (l : list A) :
  zip_app (map f l) (map g l) = map (fun x => f x ++ g x) l.
Proof. induction l as [|a t IH]; simpl; [reflexivity|]. now rewrite IH. Qed.

(** X7: Column-wise join of two frames whose unique row labels differ, one
    frame with a single label and one with no label apart (numpy
    broadcasts that comparison to true and the short path is taken): the
    labels of the result are the labels of both frames, each once; the
    row under a label is the row the left frame has under it followed by
    the row the right frame has under it, a frame that does not carry
    the label giving zeros. *)
Theorem join_columns_outer (A B : SparseFrame) :
  wf A -> wf B -> NoDup (_index A) -> NoDup (_index B) ->
  _index A <> _index B ->
  (length (_index A) + length (_index B) <> 1)%nat ->
  exists r,
    join A B 1 = inr r /\
    index r = Index_union (index A) (index B) /\
    NoDup (index r) /\
    (forall l, In l (index r) <-> In l (index A) \/ In l (index B)) /\
    columns r = columns A ++ columns B /\
    wf r /\
    forall i l, nth_error (index r) i = Some l ->
      nth_error (rows (data r)) i
      = Some (logical_row_for A l ++ logical_row_for B l).
Proof.
  intros HA HB NA NB Hne Hlen.
  unfold join. change (negb ((1 =? 0) || (1 =? 1))) with false.
  change (1 =? 0) with false. cbv iota. unfold index.
  rewrite (np_all_eq_false _ _ NA NB Hne Hlen).
  unfold join_general. change (1 =? 0) with false. cbv iota.
  unfold _matrix_join, Index_join, index.
  rewrite (values_all_eq_false _ _ Hne), andb_false_r.
  set (J := Index_union (_index A) (_index B)).
  unfold take_rows. rewrite (take_rows_for A J HA), (take_rows_for B J HB).
  cbn [bind ret]. unfold sparse_hstack, nrows. cbn [rows ncols].
  rewrite !length_map, Nat.eqb_refl. cbn [bind ret]. rewrite __init___eq.
  eexists. split; [reflexivity|]. cbn [_index _columns].
  split; [reflexivity|]. split; [now apply Index_union_NoDup|].
  split; [intros l; apply Index_union_In|]. split; [reflexivity|].
  rewrite zip_app_map. unfold mshape, nrows. cbn [rows ncols].
  split.
  - apply wf_built.
    + apply Forall_forall. intros x Hx. apply in_map_iff in Hx.
      destruct Hx as [l [<- _]].
      now rewrite length_app, (row_for_length A l HA), (row_for_length B l HB).
    + now rewrite length_map.
    + destruct HA as (_ & _ & _ & H1 & _), HB as (_ & _ & _ & H2 & _).
      rewrite length_app. lia.
  - intros i l Hn. unfold data, drop_last_row. cbn [_data rows].
    rewrite removelast_last, nth_error_map, Hn. cbn [option_map].
    now rewrite (row_for_logical A l HA), (row_for_logical B l HB).
Qed.

Lemma join_columns_outer_witness :
  exists r,
    join examples.frame_a examples.frame_c 1 = inr r /\
    index r = [0; 1] /\
    NoDup (index r) /\
    (forall l, In l (index r) <->
               In l (index examples.frame_a) \/ In l (index examples.frame_c)) /\
    columns r = [0; 5] /\
    wf r /\
    forall i l, nth_error (index r) i = Some l ->
      nth_error (rows (data r)) i
      = Some (logical_row_for examples.frame_a l
              ++ logical_row_for examples.frame_c l).
Proof.
  apply (join_columns_outer examples.frame_a examples.frame_c).
  - exact wf_frame_a.
  - wf_by_computation.
  - apply NoDup_singleton.
  - apply NoDup_singleton.
  - simpl. discriminate.
  - simpl. discriminate.
Defined.

(** The pair left apart: a frame of one label against a frame of no label
    takes the short path, which cannot put one row beside no row. *)
Lemma join_columns_broadcast_raises :
  join examples.frame_b examples.empty_meta 1
  = inl (ValueError IncompatibleDimensions).
Proof. vm_compute. reflexivity. Qed.


(** *** [sort_index] *)

Lemma sort_labels_sorted_id (l : list Z) :
  sort_labels (sort_labels l) = sort_labels l.
Proof.
  apply sorted_perm_eq; try apply sort_labels_sorted. apply sort_labels_perm.
Qed.

(** X9: Sorting a frame of unique labels twice is sorting it once: the result
    of [sort_index] has its labels in increasing order, satisfies the
    invariant, and [sort_index] leaves it as it is. *)
Theorem sort_index_idempotent (f : SparseFrame) :
  wf f -> NoDup (_index f) ->
  exists r,
    sort_index f = inr r /\
    StronglySorted Z.le (index r) /\
    Permutation (index r) (index f) /\
    wf r /\
    sort_index r = inr r.
Proof.
  intros Hwf Hnd. rewrite (sort_index_eq f Hwf Hnd).
  set (K := ncols (_data f)). set (S := sort_labels (_index f)).
  assert (HS : NoDup S).
  { apply (Permutation_NoDup (Permutation_sym (sort_labels_perm _)) Hnd). }
  assert (Hlen : length (_index f) = length (map (row_for f) S)).
  { unfold S. now rewrite length_map, sort_labels_length. }
  assert (Hw : wf (Frame S (_default_index K)
                     (Matrix K (map (row_for f) S ++ [zero_row K]))
                     (length (_index f), K))).
  { rewrite Hlen. apply wf_built.
    - apply Forall_forall. intros r Hr. apply in_map_iff in Hr.
      destruct Hr as [l [<- _]]. now apply row_for_length.
    - now rewrite length_map.
    - apply _default_index_length. }
  eexists. split; [reflexivity|]. cbn [index _index].
  split; [apply sort_labels_sorted|]. split; [apply sort_labels_perm|].
  split; [exact Hw|].
  assert (E2 : sort_labels S = S) by apply sort_labels_sorted_id.
  assert (L : length S = length (_index f)) by apply sort_labels_length.
  rewrite (sort_index_eq _ Hw HS). cbn [_index _data ncols].
  rewrite E2, L. do 3 f_equal. f_equal.
  apply map_ext_in. intros l Hl. now apply row_for_built.
Qed.

Lemma NoDup_dup_free_two : NoDup [1; 0].
Proof. apply nodupb_NoDup. reflexivity. Defined.

Lemma sort_index_idempotent_witness :
  exists r,
    sort_index (Frame [1; 0] [0] (Matrix 1 [[1]; [2]; [0]]) (2%nat, 1%nat))
      = inr r /\
    StronglySorted Z.le (index r) /\
    Permutation (index r) [1; 0] /\
    wf r /\
    sort_index r = inr r.
Proof.
  apply (sort_index_idempotent
           (Frame [1; 0] [0] (Matrix 1 [[1]; [2]; [0]]) (2%nat, 1%nat))).
  - wf_by_computation.
  - exact NoDup_dup_free_two.
Defined.

(** *** [groupby] *)

(** The steps of [groupby]: the product with the membership matrix is the
    matrix of the sums of the rows of each key. *)
Lemma groupby_rows_aux (f : SparseFrame) (by_ : option (list Z)) :
  wf f ->
  match by_ with Some b => length b = nrows (data f) | None => True end ->
  let keys := match by_ with Some b => b | None => index f end in
  let K := ncols (_data f) in
  exists G,
    groupby f by_ 0 = __init__ (Matrix K G) (Some (unique keys))
                               (Some (_columns f)) /\
    G = map (fun k => sum_rows K (rows_with_key k keys (rows (data f))))
            (unique keys).
Proof.
  intros Hwf Hby keys K0. pose proof (wf_nrows _ Hwf) as Hn.
  pose proof Hwf as (H & Hr & Hi & Hc & _).
  assert (Hlen : length keys = length (rows (data f))).
  { unfold keys. destruct by_; [exact Hby|exact Hi]. }
  subst K0. set (K := ncols (_data f)) in *. set (body := rows (data f)) in *.
  unfold nrows in Hn. fold body in Hn.
  set (X := map (fun kp => nth (Z.to_nat (snd kp)) (rows (_data f)) [])
                (sorted_pairs keys)).
  set (sk := sort_labels keys).
  set (U := unique keys).
  assert (HU : unique sk = U) by (apply unique_of_perm, sort_labels_perm).
  assert (HX : Forall (fun r => length r = K) X).
  { apply Forall_forall. intros r Hin. apply in_map_iff in Hin.
    destruct Hin as [[k p] [<- Hp]].
    destruct (sorted_pairs_In _ _ _ Hp) as [q (-> & Hq & _)]. simpl.
    rewrite Nat2Z.id. unfold rect in Hr. rewrite Forall_forall in Hr.
    apply Hr. apply nth_In. lia. }
  assert (HlenX : length sk = length X).
  { unfold sk, X, sort_labels. now rewrite !length_map. }
  set (G := map (fun j => map (fun c => dot_product (map (fun r => nth c r 0) X)
                                        (map (fun v => if v =? nth j U 0 then 1 else 0) sk))
                              (seq 0 K))
                (seq 0 (length U))).
  assert (E : groupby f by_ 0
              = __init__ (Matrix K G) (Some U) (Some (_columns f))).
  { unfold groupby.
    assert (E0 : match by_ with
                 | Some b =>
                     _ <- py_assert (Nat.eqb (length b) (nrows (data f))) ;; ret b
                 | None =>
                     if negb (0 =? 0) then raise (ValueError CannotUseLevel)
                     else ret (index f)
                 end = inr keys).
    { unfold keys. destruct by_ as [b|]; [|reflexivity].
      rewrite Hby, Nat.eqb_refl. reflexivity. }
    rewrite E0. cbn [bind]. rewrite py_take_argsort_keys. cbn [bind].
    fold sk. rewrite _create_group_matrix_eq. cbn [bind].
    unfold take_rows.
    rewrite (py_take_argsort keys (rows (_data f)) []) by lia.
    cbn [bind ret]. fold X. fold K. rewrite HU.
    set (GM := Matrix (length U) _).
    pose proof (transpose_dot_transpose (Matrix K X) GM) as HT.
    assert (Hrows : nrows (Matrix K X) = nrows GM).
    { unfold nrows, GM. cbn [rows]. unfold get_indexer.
      rewrite !length_map. symmetry. exact HlenX. }
    specialize (HT Hrows).
    destruct (dot (transpose (Matrix K X)) GM) as [e|prod]; [discriminate|].
    cbn [bind ret] in HT |- *. apply inr_inj in HT. rewrite HT.
    cbn [ncols]. f_equal. f_equal. unfold G.
    apply map_ext_in. intros j Hj. apply in_seq in Hj.
    apply map_ext. intros c. f_equal. unfold column, GM. cbn [rows].
    apply membership_column; [apply unique_NoDup| |lia].
    intros v Hv. apply unique_In.
    exact (Permutation_in _ (sort_labels_perm _) Hv). }
  assert (EG : G = map (fun k => sum_rows K (rows_with_key k keys body)) U).
  { unfold G.
    rewrite <- (map_nth_seq U 0) at 2. rewrite map_map.
    apply map_ext_in. intros j Hj.
    rewrite (group_column_sums K (nth j U 0) sk X HlenX HX).
    apply sum_rows_perm, rows_with_key_perm.
    unfold sk, X. rewrite H. fold body. now apply combine_sorted_rows. }
  exists G. split; [exact E|exact EG].
Qed.

(** The frame [groupby] returns, written out. *)
Lemma groupby_eq (f : SparseFrame) (by_ : option (list Z)) :
  wf f ->
  match by_ with Some b => length b = nrows (data f) | None => True end ->
  let keys := match by_ with Some b => b | None => index f end in
  let K := ncols (_data f) in
  groupby f by_ 0
  = inr (Frame (unique keys) (_columns f)
           (Matrix K
              (map (fun k => sum_rows K (rows_with_key k keys (rows (data f))))
                   (unique keys)
               ++ [zero_row K]))
           (length (unique keys), K)).
Proof.
  intros Hwf Hby keys K.
  destruct (groupby_rows_aux f by_ Hwf Hby) as [G [E EG]].
  fold keys in E, EG. fold K in E, EG.
  rewrite E, __init___eq. unfold mshape, nrows. cbn [rows ncols].
  rewrite EG. now rewrite length_map.
Qed.


Lemma rows_with_key_absent (k : Z) (keys : list Z) (body : list (list Z)) :
  ~ In k keys -> rows_with_key k keys body = [].
Proof.
  unfold rows_with_key. revert body.
  induction keys as [|x t IH]; intros [|y u] Hk; try reflexivity.
  cbn [combine filter fst]. destruct (Z.eqb_spec x k) as [->|_].
  - exfalso. apply Hk. now left.
  - apply IH. intros H. apply Hk. now right.
Qed.

Lemma rows_with_key_unique (k : Z) (keys : list Z) (body : list (list Z))
    (p : nat) :
  NoDup keys -> length keys = length body -> nth_error keys p = Some k ->
  rows_with_key k keys body = [nth p body []].
Proof.
  intros Hnd. revert body p.
  induction Hnd as [|x t Hx Hnd IH]; intros [|y u] p Hl Hp; try discriminate.
  - destruct p; discriminate.
  - injection Hl as Hl. unfold rows_with_key. cbn [combine filter fst].
    destruct p as [|p]; cbn [nth_error nth] in *.
    + injection Hp as <-. rewrite Z.eqb_refl. cbn [map snd]. f_equal.
      exact (rows_with_key_absent x t u Hx).
    + destruct (Z.eqb_spec x k) as [->|_].
      * exfalso. apply Hx. eapply nth_error_In. exact Hp.
      * exact (IH u p Hl Hp).
Qed.

Lemma rows_with_key_In (k : Z) (keys : list Z) (body : list (list Z))
    (r : list Z) :
  In r (rows_with_key k keys body) -> In r body.
Proof.
  unfold rows_with_key. intros H. apply in_map_iff in H.
  destruct H as [[v x] [<- H]]. apply filter_In in H. destruct H as [H _].
  exact (in_combine_r _ _ _ _ H).
Qed.

Lemma sum_rows_length (k : nat) (rs : list (list Z)) :
  Forall (fun r => length r = k) rs -> length (sum_rows k rs) = k.
Proof.
  unfold sum_rows. induction 1 as [|r rs Hr _ IH]; cbn [fold_right].
  - apply zero_row_length.
  - now apply zip_add_length.
Qed.

Lemma sum_rows_single (k : nat) (r : list Z) :
  length r = k -> sum_rows k [r] = r.
Proof. intros <-. unfold sum_rows. cbn [fold_right]. apply zip_add_zero_r. Qed.

Lemma sorted_lt_le (l : list Z) :
  StronglySorted Z.lt l -> StronglySorted Z.le l.
Proof.
  induction 1 as [|a t _ IH Hall]; constructor; [exact IH|].
  eapply Forall_impl; [|exact Hall]. cbn beta. intros; lia.
Qed.

Lemma unique_of_NoDup (l : list Z) : NoDup l -> unique l = sort_labels l.
Proof.
  intros Hnd. apply sorted_perm_eq.
  - apply sorted_lt_le, unique_sorted.
  - apply sort_labels_sorted.
  - apply NoDup_Permutation.
    + apply unique_NoDup.
    + exact (Permutation_NoDup (Permutation_sym (sort_labels_perm l)) Hnd).
    + intros x. rewrite unique_In. split; apply Permutation_in;
        [apply Permutation_sym|]; apply sort_labels_perm.
Qed.

Lemma unique_unique (l : list Z) : unique (unique l) = unique l.
Proof.
  apply strictly_sorted_ext; try apply unique_sorted.
  intros x. now rewrite !unique_In.
Qed.

(** X10: Grouping a frame of unique row labels by its labels changes nothing
    but the order of the rows: the result has the labels and the rows of
    [sort_index], under the columns of the input. *)
Theorem groupby_unique_labels_sorts (f : SparseFrame) :
  wf f -> NoDup (_index f) ->
  exists r s,
    groupby f None 0 = inr r /\
    sort_index f = inr s /\
    index r = index s /\
    data r = data s /\
    shape r = shape s /\
    columns r = columns f.
Proof.
  intros Hwf Hnd. rewrite (groupby_eq f None Hwf I).
  rewrite (sort_index_eq f Hwf Hnd). cbv zeta.
  eexists. eexists. split; [reflexivity|]. split; [reflexivity|].
  set (body := rows (data f)).
  unfold index, data, drop_last_row, columns.
  cbn [_index _data _columns rows ncols shape].
  rewrite !removelast_last, (unique_of_NoDup _ Hnd), sort_labels_length.
  split; [reflexivity|]. split; [|split; reflexivity].
  f_equal. apply map_ext_in. intros l Hl.
  assert (Hin : In l (_index f))
    by exact (Permutation_in _ (sort_labels_perm _) Hl).
  destruct (In_nth_error _ _ Hin) as [p Hp].
  pose proof Hwf as (_ & _ & Hi & _). unfold nrows in Hi. fold body in Hi.
  rewrite (rows_with_key_unique l (_index f) body p Hnd Hi Hp).
  unfold row_for. rewrite (nth_error_find_index _ _ _ Hnd Hp).
  assert (Hlt : (p < nrows (data f))%nat).
  { unfold nrows. fold body. rewrite <- Hi. apply nth_error_Some. congruence. }
  rewrite (wf_body_nth f p Hwf Hlt). fold body.
  apply sum_rows_single.
  pose proof (wf_rect_data f Hwf) as Hr. unfold rect in Hr.
  rewrite Forall_forall in Hr. apply Hr. apply nth_In. exact Hlt.
Qed.

Lemma groupby_unique_labels_sorts_witness :
  exists r s,
    groupby (Frame [1; 0] [7] (Matrix 1 [[1]; [2]; [0]]) (2%nat, 1%nat))
            None 0 = inr r /\
    sort_index (Frame [1; 0] [7] (Matrix 1 [[1]; [2]; [0]]) (2%nat, 1%nat))
      = inr s /\
    index r = index s /\
    data r = data s /\
    shape r = shape s /\
    columns r = [7].
Proof.
  apply (groupby_unique_labels_sorts
           (Frame [1; 0] [7] (Matrix 1 [[1]; [2]; [0]]) (2%nat, 1%nat))).
  - wf_by_computation.
  - exact NoDup_dup_free_two.
Defined.

(** X11: Grouping is idempotent: the frame [groupby] returns has one row per
    key, so grouping it again by its own labels gives the same frame. *)
Theorem groupby_idempotent (f : SparseFrame) (by_ : option (list Z)) :
  wf f ->
  match by_ with Some b => length b = nrows (data f) | None => True end ->
  exists r, groupby f by_ 0 = inr r /\ wf r /\ groupby r None 0 = inr r.
Proof.
  intros Hwf Hby. rewrite (groupby_eq f by_ Hwf Hby). cbv zeta.
  set (keys := match by_ with Some b => b | None => index f end).
  set (K := ncols (_data f)). set (U := unique keys).
  set (F := fun k => sum_rows K (rows_with_key k keys (rows (data f)))).
  assert (HF : forall k, length (F k) = K).
  { intros k. unfold F. apply sum_rows_length. apply Forall_forall.
    intros r Hr. apply rows_with_key_In in Hr.
    pose proof (wf_rect_data f Hwf) as Hrect. unfold rect in Hrect.
    rewrite Forall_forall in Hrect. now apply Hrect. }
  assert (Hw : wf (Frame U (_columns f)
                     (Matrix K (map F U ++ [zero_row K])) (length U, K))).
  { replace (length U) with (length (map F U)) by apply length_map.
    apply wf_built.
    - apply Forall_forall. intros r Hr. apply in_map_iff in Hr.
      destruct Hr as [k [<- _]]. apply HF.
    - now rewrite length_map.
    - now destruct Hwf as (_ & _ & _ & Hc & _). }
  eexists. split; [reflexivity|]. split; [exact Hw|].
  rewrite (groupby_eq _ None Hw I). cbv zeta.
  unfold index, data, drop_last_row. cbn [_index _data _columns rows ncols].
  rewrite removelast_last.
  assert (EU : unique U = U) by apply unique_unique. rewrite !EU.
  do 3 f_equal. f_equal. apply map_ext_in. intros k Hk.
  destruct (In_nth_error _ _ Hk) as [p Hp].
  rewrite (rows_with_key_unique k U (map F U) p (unique_NoDup keys)
             (eq_sym (length_map F U)) Hp).
  rewrite sum_rows_single.
  - rewrite (nth_indep _ [] (F k))
      by (rewrite length_map; apply nth_error_Some; congruence).
    rewrite map_nth. f_equal. now apply nth_error_nth.
  - assert (Hlt : (p < length (map F U))%nat)
      by (rewrite length_map; apply nth_error_Some; congruence).
    rewrite (nth_indep _ [] (F k)) by exact Hlt.
    rewrite map_nth. apply HF.
Qed.

Lemma groupby_idempotent_witness :
  exists r,
    groupby examples.frame_dup (Some [5; 3; 5]) 0 = inr r /\ wf r /\
    groupby r None 0 = inr r.
Proof.
  apply (groupby_idempotent examples.frame_dup (Some [5; 3; 5])).
  - exact wf_frame_dup.
  - reflexivity.
Defined.


Lemma zip_add_assoc (x y r : list Z) :
  zip_add x (zip_add y r) = zip_add (zip_add x y) r.
Proof.
  revert y r. induction x as [|a x IH]; intros [|b y] [|c r]; cbn [zip_add];
    try reflexivity.
  f_equal; [lia|apply IH].
Qed.

Lemma zip_add_zero_l (r : list Z) : zip_add (zero_row (length r)) r = r.
Proof. rewrite zip_add_comm. apply zip_add_zero_r. Qed.

Lemma sum_rows_app (k : nat) (a b : list (list Z)) :
  Forall (fun r => length r = k) b ->
  sum_rows k (a ++ b) = zip_add (sum_rows k a) (sum_rows k b).
Proof.
  intros Hb. induction a as [|x a IH].
  - cbn [app]. unfold sum_rows at 2. cbn [fold_right].
    rewrite <- (sum_rows_length k b Hb) at 2. now rewrite zip_add_zero_l.
  - cbn [app]. unfold sum_rows in *. cbn [fold_right].
    now rewrite IH, zip_add_assoc.
Qed.

Lemma sum_rows_concat (k : nat) (groups : list (list (list Z))) :
  Forall (Forall (fun r => length r = k)) groups ->
  sum_rows k (map (sum_rows k) groups) = sum_rows k (List.concat groups).
Proof.
  induction 1 as [|g gs Hg Hgs IH]; [reflexivity|].
  cbn [map List.concat]. rewrite sum_rows_app.
  - unfold sum_rows at 1. cbn [fold_right]. fold (sum_rows k (map (sum_rows k) gs)).
    now rewrite IH.
  - apply Forall_concat. exact Hgs.
Qed.

Lemma insert_into_group (U : list Z) (v : Z) (x : list Z)
    (h : Z -> list (list Z)) :
  NoDup U -> In v U ->
  Permutation
    (List.concat (map (fun k => if v =? k then x :: h k else h k) U))
    (x :: List.concat (map h U)).
Proof.
  induction 1 as [|a U Ha Hnd IH]; intros Hin; [destruct Hin|].
  cbn [map List.concat]. destruct (Z.eqb_spec v a) as [->|Hne].
  - cbn [app]. constructor. apply Permutation_app_head.
    assert (E : map (fun k => if a =? k then x :: h k else h k) U = map h U).
    { apply map_ext_in. intros k Hk. destruct (Z.eqb_spec a k); [|reflexivity].
      subst. contradiction. }
    now rewrite E.
  - destruct Hin as [E|Hin]; [congruence|].
    rewrite (IH Hin). symmetry. apply Permutation_middle.
Qed.

(** The groups of a keyed list, one after the other, are the list, in
    another order. *)
Lemma groups_partition (U : list Z) (l : list (Z * list Z)) :
  NoDup U -> (forall kr, In kr l -> In (fst kr) U) ->
  Permutation
    (List.concat (map (fun k => map snd (filter (fun kr : Z * list Z => fst kr =? k) l))
                 U))
    (map snd l).
Proof.
  intros Hnd. induction l as [|[v x] t IH]; intros Hin.
  - cbn [filter map]. clear. induction U as [|a U IHU]; [reflexivity|].
    cbn [map List.concat app]. exact IHU.
  - cbn [map snd].
    rewrite <- (IH (fun kr H => Hin kr (or_intror H))).
    rewrite <- (insert_into_group U v x _ Hnd (Hin (v, x) (or_introl eq_refl))).
    apply Permutation_refl'. f_equal. apply map_ext. intros k.
    cbn [filter fst]. destruct (v =? k); reflexivity.
Qed.

Lemma map_snd_combine {A B} (a : list A) (b : list B) :
  length a = length b -> map snd (combine a b) = b.
Proof.
  revert b. induction a as [|x a IH]; destruct b as [|y b]; intros H;
    try discriminate; [reflexivity|].
  cbn [combine map snd]. f_equal. apply IH. now injection H.
Qed.

(** Grouping on sums that need no rounding moves entries between rows
    only: the entrywise sum of all the rows of the result is the entrywise
    sum of all the rows of the input. *)
Lemma groupby_conserves_sums_exact_reading (f : SparseFrame) (by_ : option (list Z)) :
  wf f ->
  match by_ with Some b => length b = nrows (data f) | None => True end ->
  exists r,
    groupby f by_ 0 = inr r /\
    sum_rows (ncols (_data f)) (rows (data r))
    = sum_rows (ncols (_data f)) (rows (data f)).
Proof.
  intros Hwf Hby. rewrite (groupby_eq f by_ Hwf Hby). cbv zeta.
  set (keys := match by_ with Some b => b | None => index f end).
  set (K := ncols (_data f)). set (body := rows (data f)).
  eexists. split; [reflexivity|].
  unfold data at 1, drop_last_row. cbn [_data rows]. rewrite removelast_last.
  assert (Hlen : length keys = length body).
  { unfold keys. destruct by_; [exact Hby|].
    now destruct Hwf as (_ & _ & Hi & _). }
  pose proof (wf_rect_data f Hwf) as Hrect. unfold rect in Hrect.
  change (ncols (data f)) with K in Hrect. fold body in Hrect.
  rewrite <- (map_map (fun k => rows_with_key k keys body) (sum_rows K)).
  rewrite sum_rows_concat.
  - apply sum_rows_perm. unfold rows_with_key.
    rewrite groups_partition.
    + now rewrite map_snd_combine.
    + apply unique_NoDup.
    + intros [v x] Hin. apply unique_In. exact (in_combine_l _ _ _ _ Hin).
  - apply Forall_forall. intros g Hg. apply in_map_iff in Hg.
    destruct Hg as [k [<- _]]. apply Forall_forall. intros r Hr.
    apply rows_with_key_In in Hr. rewrite Forall_forall in Hrect.
    now apply Hrect.
Qed.


(** *** One-hot encoding and grouping *)

(** The matrix [csr_one_hot_series] returns on values of the vocabulary. *)
Lemma csr_one_hot_series_eq (s cats : list Z) :
  NoDup cats -> (forall v, In v s -> In v cats) ->
  csr_one_hot_series s cats
  = inr (Matrix (length cats)
           (map (fun v => map (indicator
                   (match find_index v cats with
                    | Some p => Z.of_nat p
                    | None => -1
                    end))
                   (py_range (Z.of_nat (length cats))))
                s)).
Proof.
  intros Hnd Hall. unfold csr_one_hot_series, pd_Categorical.
  rewrite (proj2 (nodupb_NoDup cats) Hnd). cbn [bind ret codes categories].
  destruct (one_hot_mask cats s) as [Hex _]. cbv zeta in Hex. rewrite Hex.
  assert (E : existsb (fun v => negb (mem v cats)) s = false).
  { destruct (existsb _ s) eqn:X; [|reflexivity].
    apply existsb_exists in X. destruct X as [v [Hv Hm]].
    apply negb_true_iff in Hm. apply Hall, mem_In in Hv. congruence. }
  rewrite E.
  rewrite coo_matrix_units by (try reflexivity; now apply get_indexer_codes).
  unfold get_indexer. now rewrite map_map.
Qed.

Lemma nth_zip_add (a b : list Z) (p : nat) :
  length a = length b ->
  nth p (zip_add a b) 0 = nth p a 0 + nth p b 0.
Proof.
  revert b p. induction a as [|x a IH]; intros [|y b] p H; try discriminate.
  - now destruct p.
  - destruct p as [|p]; cbn [zip_add nth]; [reflexivity|].
    apply IH. now injection H.
Qed.

Lemma one_hot_entry (cats : list Z) (v c : Z) (p : nat) :
  NoDup cats -> In v cats -> nth_error cats p = Some c ->
  nth p (map (indicator (match find_index v cats with
                         | Some q => Z.of_nat q
                         | None => -1
                         end))
             (py_range (Z.of_nat (length cats)))) 0
  = if v =? c then 1 else 0.
Proof.
  intros Hnd Hv Hp.
  assert (Hlt : (p < length cats)%nat) by (apply nth_error_Some; congruence).
  rewrite py_range_of_nat, map_map, nth_map_seq by exact Hlt.
  destruct (find_index_In v cats Hv) as [q Eq]. rewrite Eq.
  apply find_index_Some in Eq. destruct Eq as [Eq _]. unfold indicator.
  destruct (Z.eqb_spec (Z.of_nat q) (Z.of_nat p)) as [E|E],
           (Z.eqb_spec v c) as [F|F]; try reflexivity; exfalso.
  - apply Nat2Z.inj in E. subst q. congruence.
  - apply E. f_equal. subst c.
    pose proof (nth_error_find_index _ _ _ Hnd Eq) as G1.
    pose proof (nth_error_find_index _ _ _ Hnd Hp) as G2. congruence.
Qed.

Lemma group_counts (cats : list Z) (g c : Z) (p : nat)
    (row : Z -> list Z) (group cat : list Z) :
  (forall v, length (row v) = length cats) ->
  (forall v, In v cat -> nth p (row v) 0 = if v =? c then 1 else 0) ->
  nth p (sum_rows (length cats) (rows_with_key g group (map row cat))) 0
  = count_pairs g c group cat.
Proof.
  intros Hw Hrow. unfold count_pairs, rows_with_key, sum_rows.
  revert cat Hrow. induction group as [|x group IH]; intros [|v cat] Hrow;
    cbn [combine map filter fold_right length];
    try (unfold zero_row; now rewrite nth_repeat).
  cbn [fst snd].
  assert (Hrow' : forall u, In u cat -> nth p (row u) 0 = if u =? c then 1 else 0)
    by (intros u Hu; apply Hrow; now right).
  specialize (IH cat Hrow').
  destruct (Z.eqb_spec x g) as [_|_]; cbn [andb map snd fold_right].
  - rewrite nth_zip_add.
    + rewrite IH, (Hrow v (or_introl eq_refl)).
      destruct (v =? c); cbn [length]; lia.
    + rewrite Hw. symmetry. apply (sum_rows_length (length cats)).
      apply Forall_forall. intros r Hr. apply in_map_iff in Hr.
      destruct Hr as [[k r'] [<- Hr]]. apply filter_In in Hr.
      destruct Hr as [Hr _]. apply in_combine_r in Hr.
      apply in_map_iff in Hr. destruct Hr as [u [<- _]]. apply Hw.
  - exact IH.
Qed.

(** X14: The bagging of a clickstream partition: one-hot encoding the
    categorical column and grouping by the group column counts.  The
    result has one row per distinct group, in increasing order, one column
    per category, and its entry for a group and a category is the number
    of rows of the partition that hold that group and that category. *)
Theorem sparse_groupby_sum_counts (cs_group cs_categorical cats : list Z) :
  NoDup cats ->
  length cs_group = length cs_categorical ->
  (forall v, In v cs_categorical -> In v cats) ->
  exists r,
    _sparse_groupby_sum_cs cs_group cs_categorical cats = inr r /\
    index r = unique cs_group /\
    columns r = cats /\
    wf r /\
    forall i g p c,
      nth_error (index r) i = Some g -> nth_error cats p = Some c ->
      cell (data r) i p = count_pairs g c cs_group cs_categorical.
Proof.
  intros Hnd Hlen Hall. unfold _sparse_groupby_sum_cs.
  rewrite (csr_one_hot_series_eq _ _ Hnd Hall). cbn [bind].
  set (row := fun v => map (indicator (match find_index v cats with
                                       | Some p => Z.of_nat p
                                       | None => -1
                                       end))
                           (py_range (Z.of_nat (length cats)))).
  assert (Hw : forall v, length (row v) = length cats).
  { intros v. unfold row. now rewrite length_map, py_range_length. }
  assert (Hrect : rect (Matrix (length cats) (map row cs_categorical))).
  { unfold rect. cbn [rows ncols]. apply Forall_forall. intros r Hr.
    apply in_map_iff in Hr. destruct Hr as [v [<- _]]. apply Hw. }
  destruct (__init__ (Matrix (length cats) (map row cs_categorical))
              (Some cs_group) (Some cats)) as [e|table] eqn:Et;
    [rewrite __init___eq in Et; discriminate|].
  assert (Hwt : wf table).
  { apply (__init___wf _ _ _ _ Hrect) in Et; [exact Et| |reflexivity].
    unfold nrows. cbn [rows]. now rewrite length_map. }
  pose proof (data_of_init _ _ _ _ Et) as Hd.
  rewrite __init___eq in Et. apply inr_inj in Et.
  cbn [bind]. rewrite (groupby_eq table None Hwt I). cbv zeta.
  rewrite Hd. subst table. unfold index. cbn [_index _columns _data rows ncols].
  set (F := fun k => sum_rows (length cats)
                       (rows_with_key k cs_group (map row cs_categorical))).
  assert (HF : forall k, length (F k) = length cats).
  { intros k. unfold F. apply sum_rows_length. apply Forall_forall.
    intros r Hr. apply rows_with_key_In in Hr. apply in_map_iff in Hr.
    destruct Hr as [v [<- _]]. apply Hw. }
  eexists. split; [reflexivity|]. cbn [_index].
  split; [reflexivity|]. split; [reflexivity|]. split.
  - replace (length (unique cs_group))
      with (length (map F (unique cs_group))) by apply length_map.
    apply wf_built; [|now rewrite length_map|reflexivity].
    apply Forall_forall. intros r Hr. apply in_map_iff in Hr.
    destruct Hr as [k [<- _]]. apply HF.
  - intros i g p c Hi Hp. unfold cell, data, drop_last_row.
    cbn [_data rows]. rewrite removelast_last.
    assert (Hlt : (i < length (map F (unique cs_group)))%nat)
      by (rewrite length_map; apply nth_error_Some; congruence).
    rewrite (nth_indep _ [] (F g)) by exact Hlt.
    rewrite map_nth, (nth_error_nth _ _ g Hi). unfold F.
    apply group_counts; [exact Hw|].
    intros v Hv. unfold row. apply one_hot_entry; auto.
Qed.

Lemma sparse_groupby_sum_counts_witness :
  exists r,
    _sparse_groupby_sum_cs [7; 8; 7; 7] [0; 1; 0; 2] [0; 1; 2] = inr r /\
    index r = [7; 8] /\
    columns r = [0; 1; 2] /\
    wf r /\
    forall i g p c,
      nth_error (index r) i = Some g -> nth_error [0; 1; 2] p = Some c ->
      cell (data r) i p = count_pairs g c [7; 8; 7; 7] [0; 1; 0; 2].
Proof.
  apply (sparse_groupby_sum_counts [7; 8; 7; 7] [0; 1; 0; 2] [0; 1; 2]).
  - apply nodupb_NoDup. reflexivity.
  - reflexivity.
  - simpl. intros v H. intuition lia.
Defined.


(** *** Column assignment, read back *)

Lemma column_of_appended (body : list (list Z)) (value : list Z) (k j : nat) :
  length body = length value -> Forall (fun r => length r = k) body ->
  map (fun r => nth j r 0) (zip_app body (map (fun v => [v]) value))
  = if Nat.eqb j k then value
    else if Nat.ltb j k then map (fun r => nth j r 0) body
    else map (fun _ => 0) value.
Proof.
  revert value. induction body as [|x body IH]; intros [|v value] Hl Hb;
    try discriminate.
  - now destruct (Nat.eqb j k), (Nat.ltb j k).
  - inversion Hb as [|? ? Hx Hb']; subst. injection Hl as Hl.
    cbn [map zip_app]. rewrite (IH value Hl Hb').
    destruct (Nat.eqb_spec j (length x)) as [Ej|Hne].
    + f_equal. rewrite Ej, app_nth2 by lia. now rewrite Nat.sub_diag.
    + destruct (Nat.ltb_spec j (length x)).
      * cbn [map]. f_equal. now rewrite app_nth1.
      * cbn [map]. f_equal. rewrite app_nth2 by lia.
        destruct (j - length x)%nat as [|[|n]] eqn:E; [lia|reflexivity|reflexivity].
Qed.

(** Column assignment of values that are binary64 values already: after
    [frame[key] = values], with as many values as the frame has rows, the
    new last column of the logical matrix reads back as [values], every
    earlier column reads as before, and the row labels and the height are
    unchanged. *)
Lemma setitem_column_exact_reading (f : SparseFrame) (key : Z) (value : list Z) :
  wf f -> length value = nrows (data f) ->
  exists r,
    __setitem__ f key value = inr r /\
    column (data r) (ncols (data f)) = value /\
    (forall j, (j < ncols (data f))%nat -> column (data r) j = column (data f) j) /\
    ncols (data r) = S (ncols (data f)) /\
    nrows (data r) = nrows (data f) /\
    index r = index f.
Proof.
  intros Hwf Hlen.
  destruct (__setitem___storage f key value Hwf Hlen) as (r & E & Hk & Hr & _).
  destruct (__setitem___keeps_columns f key value r E) as (_ & Hi & _).
  pose proof (wf_rect_data f Hwf) as Hrect. unfold rect in Hrect.
  exists r. split; [exact E|].
  assert (Hcol : forall j, column (data r) j
            = if Nat.eqb j (ncols (data f)) then value
              else if Nat.ltb j (ncols (data f)) then column (data f) j
              else map (fun _ => 0) value).
  { intros j. unfold column at 1. rewrite Hr.
    now apply column_of_appended. }
  split; [rewrite Hcol; now rewrite Nat.eqb_refl|].
  split.
  - intros j Hj. rewrite Hcol.
    destruct (Nat.eqb_spec j (ncols (data f))); [lia|].
    destruct (Nat.ltb_spec j (ncols (data f))); [reflexivity|lia].
  - split; [change (ncols (data r)) with (ncols (_data r)); rewrite Hk;
            change (ncols (data f)) with (ncols (_data f)); lia|].
    split; [|exact Hi]. unfold nrows. rewrite Hr.
    destruct (zip_app_widths (rows (data f)) (map (fun v => [v]) value)
                (ncols (data f)) 1) as [_ Hl].
    + rewrite length_map. unfold nrows in Hlen. lia.
    + exact Hrect.
    + apply Forall_forall. intros x Hx. apply in_map_iff in Hx.
      now destruct Hx as [v [<- _]].
    + exact Hl.
Qed.

(** *** [head] *)

Lemma py_slice_stop {A} (l : list A) (n : Z) :
  py_slice (Slice None (Some n) None) l
  = inr (firstn (Z.to_nat (if n <? 0 then n + zlength l else n)) l).
Proof.
  unfold py_slice, slice_indices, zlength. cbn [step start stop].
  change (1 =? 0) with false. change (1 <? 0) with false. cbv iota.
  set (len := Z.of_nat (length l)).
  set (hi := if n <? 0 then Z.max (n + len) 0 else Z.min n len).
  cbn [bind ret].
  assert (Hhi : 0 <= hi <= len) by (unfold hi, len; destruct (Z.ltb_spec n 0); lia).
  replace hi with (Z.of_nat (Z.to_nat hi)) by lia.
  change 0 with (Z.of_nat 0) at 1.
  rewrite py_range3_unit by (unfold len in Hhi; lia).
  rewrite Nat.sub_0_r.
  assert (E : firstn (Z.to_nat (if n <? 0 then n + len else n)) l
              = firstn (Z.to_nat hi) l).
  { unfold hi. destruct (Z.ltb_spec n 0).
    - f_equal. lia.
    - destruct (Z.le_gt_cases n len); [f_equal; lia|].
      rewrite !firstn_all2 by (unfold len in *; lia). reflexivity. }
  rewrite E. destruct l as [|x t].
  - cbn in Hhi. replace (Z.to_nat hi) with 0%nat by (unfold len in Hhi; cbn in Hhi; lia).
    reflexivity.
  - rewrite (py_take_positions _ x).
    + f_equal. rewrite (map_nth_seq_window _ x 0) by (unfold len in Hhi; lia).
      reflexivity.
    + apply Forall_forall. intros p Hp. apply in_seq in Hp.
      unfold len in Hhi. lia.
Qed.

(** X17: [head(n)] for [n >= 0] shows the first [n] logical rows under their
    labels and the frame's own column labels: the reserved last row of the
    storage is never among them, however large [n] is. *)
Theorem head_shows_first_rows (f : SparseFrame) (n : Z) :
  wf f -> 0 <= n ->
  head f n
  = inr (MkDataFrame (firstn (Z.to_nat n) (rows (data f)))
                     (firstn (Z.to_nat n) (index f)) (columns f)).
Proof.
  intros Hwf Hn. pose proof (wf_nrows f Hwf) as Hrows.
  destruct Hwf as (H & _ & Hi & Hc & _). unfold nrows in *.
  unfold head, slice_rows. rewrite !py_slice_stop.
  set (m := Z.min n (zlength (_index f))).
  destruct (Z.ltb_spec m 0) as [Hneg|_];
    [unfold m, zlength in Hneg; lia|].
  cbn [bind ret]. unfold pd_DataFrame, nrows. cbn [rows ncols].
  assert (Hm : (Z.to_nat m <= length (rows (data f)))%nat)
    by (unfold m, zlength; lia).
  assert (E1 : firstn (Z.to_nat m) (rows (_data f))
               = firstn (Z.to_nat n) (rows (data f))).
  { rewrite H, firstn_app.
    replace (Z.to_nat m - length (rows (data f)))%nat with 0%nat by lia.
    cbn [firstn]. rewrite app_nil_r.
    destruct (Z.le_gt_cases n (zlength (_index f))) as [Hle|Hgt].
    - unfold m. now rewrite Z.min_l.
    - rewrite !firstn_all2; [reflexivity| |]; unfold m, zlength in *; lia. }
  assert (E2 : firstn (Z.to_nat m) (_index f)
               = firstn (Z.to_nat n) (_index f)).
  { destruct (Z.le_gt_cases n (zlength (_index f))) as [Hle|Hgt].
    - unfold m. now rewrite Z.min_l.
    - rewrite !firstn_all2; [reflexivity| |]; unfold m, zlength in *; lia. }
  rewrite E1, E2, !length_firstn, Hi, Hc, !Nat.eqb_refl. reflexivity.
Qed.

Lemma head_shows_first_rows_witness :
  head examples.frame_named 5
  = inr (MkDataFrame [[1]; [2]] [0; 1] [7]).
Proof.
  apply (head_shows_first_rows examples.frame_named 5).
  - exact wf_frame_named.
  - lia.
Defined.

(** X18: [head(n)] for a negative [n] that counts inside the frame cuts the
    stored rows and the labels at different places (the storage counts
    one row more than the labels): the dense frame cannot be built and
    a [ValueError] is raised. *)
Theorem head_negative_raises (f : SparseFrame) (n : Z) :
  wf f -> - Z.of_nat (nrows (data f)) <= n < 0 ->
  exists m, head f n = inl (ValueError m).
Proof.
  intros Hwf Hn. pose proof (wf_nrows f Hwf) as Hrows.
  destruct Hwf as (H & _ & Hi & Hc & _). unfold nrows in *.
  unfold head, slice_rows. rewrite !py_slice_stop.
  assert (Em : Z.min n (zlength (_index f)) = n) by (unfold zlength; lia).
  rewrite Em. destruct (Z.ltb_spec n 0); [|lia].
  cbn [bind ret]. unfold pd_DataFrame, nrows. cbn [rows ncols].
  rewrite !length_firstn. unfold zlength. rewrite Hrows, Hi.
  destruct (Nat.eqb_spec
              (Nat.min (Z.to_nat (n + Z.of_nat (length (rows (data f)))))
                       (length (rows (data f))))
              (Nat.min (Z.to_nat (n + Z.of_nat (S (length (rows (data f))))))
                       (S (length (rows (data f)))))) as [E|_]; [lia|].
  cbn [andb]. eauto.
Qed.

Lemma head_negative_raises_witness :
  exists m, head examples.frame_two (-1) = inl (ValueError m).
Proof.
  apply (head_negative_raises examples.frame_two (-1)).
  - exact wf_frame_two.
  - vm_compute. split; [discriminate|reflexivity].
Defined.

(** X16: A column assignment leaves a frame that no longer satisfies the
    invariant (one column label short), and [head], hence the printed
    form of the frame, raises on it whatever [n] is. *)
Theorem setitem_then_head_raises (f : SparseFrame) (key : Z) (value : list Z) :
  wf f -> length value = nrows (data f) ->
  exists r,
    __setitem__ f key value = inr r /\
    ~ wf r /\
    forall n, exists m, head r n = inl (ValueError m).
Proof.
  intros Hwf Hlen.
  destruct (__setitem___storage f key value Hwf Hlen) as (r & E & Hk & _).
  destruct (__setitem___keeps_columns f key value r E) as (Hc & _).
  assert (Hcols : length (_columns r) <> ncols (_data r)).
  { rewrite Hc, Hk. destruct Hwf as (_ & _ & _ & H & _). lia. }
  exists r. split; [exact E|]. split.
  - intros (_ & _ & _ & H & _). contradiction.
  - intros n. unfold head, slice_rows. rewrite !py_slice_stop.
    cbn [bind ret]. unfold pd_DataFrame. cbn [ncols].
    destruct (Nat.eqb_spec (length (_columns r)) (ncols (_data r)));
      [contradiction|].
    rewrite andb_false_r. eauto.
Qed.

Lemma setitem_then_head_raises_witness :
  exists r,
    __setitem__ examples.frame_two 6 [8; 9] = inr r /\
    ~ wf r /\
    forall n, exists m, head r n = inl (ValueError m).
Proof.
  apply (setitem_then_head_raises examples.frame_two 6 [8; 9]).
  - exact wf_frame_two.
  - reflexivity.
Defined.


(** *** Positions counted from the end, positions outside the frame *)

Lemma py_getitem_from_end {A} (l : list A) (k : nat) (d : A) :
  (1 <= k <= length l)%nat ->
  py_getitem l (- Z.of_nat k) = inr (nth (length l - k) l d).
Proof.
  intros H. unfold py_getitem, zlength.
  destruct (Z.ltb_spec (- Z.of_nat k) 0); [|lia].
  destruct (Z.leb_spec 0 (- Z.of_nat k + Z.of_nat (length l))); [|lia].
  replace (Z.to_nat (- Z.of_nat k + Z.of_nat (length l)))
    with (length l - k)%nat by lia.
  rewrite (nth_error_nth' l d) by lia. reflexivity.
Qed.

Lemma py_getitem_out_of_range {A} (l : list A) (i : Z) :
  i < - zlength l \/ zlength l <= i -> @py_getitem A l i = inl IndexError.
Proof.
  intros H. unfold py_getitem, zlength in *.
  destruct (Z.ltb_spec i 0).
  - destruct (Z.leb_spec 0 (i + Z.of_nat (length l))); [lia|reflexivity].
  - destruct (Z.leb_spec 0 i); [|reflexivity].
    destruct (nth_error l (Z.to_nat i)) eqn:E; [|reflexivity].
    assert (Z.to_nat i < length l)%nat by (apply nth_error_Some; congruence).
    lia.
Qed.

(** X19: A position counted from the end is resolved on the labels and on the
    stored matrix, which is one row longer: [_ixs(-k)] pairs the label at
    position [n - k] with the logical row one position further down, and
    for [k = 1] with the all-zero row that follows the logical rows. *)
Theorem _ixs_from_end_reads_next_row (f : SparseFrame) (k : nat) :
  wf f -> (1 <= k <= nrows (data f))%nat ->
  exists r,
    _ixs f (KeyInt (- Z.of_nat k)) 0 = inr r /\
    index r = [nth (nrows (data f) - k) (index f) 0] /\
    rows (data r)
    = [nth (nrows (data f) - k + 1)
           (rows (data f) ++ [zero_row (ncols (_data f))]) []].
Proof.
  intros Hwf Hk. pose proof (wf_nrows f Hwf) as Hn.
  destruct Hwf as (H & _ & Hi & _). unfold nrows in *.
  set (body := rows (data f)) in *.
  unfold _ixs. change (negb (0 =? 0)) with false. cbv iota.
  unfold index. rewrite (py_getitem_from_end (_index f) k 0) by lia.
  cbn [bind]. unfold take_rows, py_take. cbn [mapM].
  rewrite (py_getitem_from_end (rows (_data f)) k []) by lia.
  cbn [bind ret]. rewrite __init___eq. eexists. split; [reflexivity|].
  unfold data, drop_last_row. cbn [_index _data rows ncols].
  rewrite Hi, Hn. split; [reflexivity|].
  replace (S (length body) - k)%nat with (length body - k + 1)%nat by lia.
  rewrite H. fold body.
  exact (removelast_last [_] _).
Qed.

Lemma _ixs_from_end_reads_next_row_witness :
  exists r,
    _ixs examples.frame_two (KeyInt (-1)) 0 = inr r /\
    index r = [1] /\
    rows (data r) = [[0]].
Proof.
  apply (_ixs_from_end_reads_next_row examples.frame_two 1).
  - exact wf_frame_two.
  - vm_compute. split; repeat constructor.
Defined.

(** X20: A position outside [-n .. n - 1], where [n] is the number of row
    labels, raises [IndexError]: the label is looked up first, so the
    reserved last row of the storage is not reachable at position [n]. *)
Theorem _ixs_out_of_range (f : SparseFrame) (i : Z) :
  i < - zlength (index f) \/ zlength (index f) <= i ->
  _ixs f (KeyInt i) 0 = inl IndexError.
Proof.
  intros H. unfold _ixs. change (negb (0 =? 0)) with false. cbv iota.
  now rewrite (py_getitem_out_of_range (index f) i H).
Qed.

Lemma _ixs_out_of_range_witness :
  _ixs examples.frame_two (KeyInt 2) 0 = inl IndexError.
Proof.
  apply (_ixs_out_of_range examples.frame_two 2).
  right. vm_compute. intros E; discriminate E.
Defined.

(** *** Slices of slices *)

Lemma _slice_window_eq (f : SparseFrame) (a b : nat) :
  wf f -> (a <= b <= nrows (data f))%nat ->
  _slice f (Slice (Some (Z.of_nat a)) (Some (Z.of_nat b)) None)
  = inr (Frame (firstn (b - a) (skipn a (index f)))
               (_default_index (ncols (_data f)))
               (Matrix (ncols (_data f))
                  (firstn (b - a) (skipn a (rows (data f)))
                   ++ [zero_row (ncols (_data f))]))
               ((b - a)%nat, ncols (_data f))).
Proof.
  intros Hwf Hab. pose proof (wf_nrows _ Hwf) as Hn.
  destruct Hwf as (H & Hr & Hi & Hc & Hs). unfold nrows in *.
  set (body := rows (data f)) in *.
  unfold _slice, slice_rows, index.
  rewrite py_slice_window by lia. cbn [bind ret].
  rewrite py_slice_window by lia. cbn [bind ret].
  rewrite __init___eq. unfold mshape, nrows. cbn [rows ncols].
  assert (E : firstn (b - a) (skipn a (rows (_data f)))
              = firstn (b - a) (skipn a body)).
  { rewrite H. rewrite skipn_app, firstn_app, length_skipn.
    replace (b - a - (length body - a))%nat with 0%nat by lia.
    replace (a - length body)%nat with 0%nat by lia.
    cbn [skipn firstn]. now rewrite app_nil_r. }
  rewrite E, length_firstn, length_skipn.
  replace (Nat.min (b - a) (length body - a)) with (b - a)%nat by lia.
  reflexivity.
Qed.

Lemma window_of_window {A} (l : list A) (a b c d : nat) :
  (c <= d <= b - a)%nat ->
  firstn (d - c) (skipn c (firstn (b - a) (skipn a l)))
  = firstn (a + d - (a + c)) (skipn (a + c) l).
Proof.
  intros H. rewrite skipn_firstn_comm, firstn_firstn, skipn_skipn.
  replace (Nat.min (d - c) (b - a - c)) with (d - c)%nat by lia.
  replace (a + d - (a + c))%nat with (d - c)%nat by lia.
  now rewrite (Nat.add_comm c a).
Qed.

(** X21: Slices compose: a window [c:d] of the window [a:b] of a frame is the
    window [a+c:a+d] of the frame, as long as each window lies inside the
    logical rows of the frame it is taken from. *)
Theorem _slice_of_slice (f : SparseFrame) (a b c d : nat) :
  wf f -> (a <= b <= nrows (data f))%nat -> (c <= d <= b - a)%nat ->
  exists r1 r2,
    _slice f (Slice (Some (Z.of_nat a)) (Some (Z.of_nat b)) None) = inr r1 /\
    _slice r1 (Slice (Some (Z.of_nat c)) (Some (Z.of_nat d)) None) = inr r2 /\
    _slice f (Slice (Some (Z.of_nat (a + c))) (Some (Z.of_nat (a + d))) None)
    = inr r2.
Proof.
  intros Hwf Hab Hcd.
  pose proof (wf_rect_data f Hwf) as Hrect. unfold rect in Hrect.
  rewrite (_slice_window_eq f a b Hwf Hab).
  rewrite (_slice_window_eq f (a + c) (a + d) Hwf) by lia.
  set (K := ncols (_data f)) in *. set (body := rows (data f)) in *.
  set (X := firstn (b - a) (skipn a body)).
  assert (HX : length X = (b - a)%nat).
  { unfold X. rewrite length_firstn, length_skipn.
    unfold nrows in Hab. fold body in Hab. lia. }
  set (r1 := Frame (firstn (b - a) (skipn a (index f))) (_default_index K)
               (Matrix K (X ++ [zero_row K])) ((b - a)%nat, K)).
  assert (Hw1 : wf r1).
  { assert (W : wf (Frame (firstn (b - a) (skipn a (index f)))
                      (_default_index K) (Matrix K (X ++ [zero_row K]))
                      (length X, K))).
    { apply wf_built.
      - apply Forall_forall. intros r Hin.
        rewrite Forall_forall in Hrect. apply Hrect.
        exact (In_window _ _ _ _ Hin).
      - rewrite HX, length_firstn, length_skipn.
        destruct Hwf as (_ & _ & Hi & _). unfold index, nrows in *. lia.
      - apply _default_index_length. }
    rewrite HX in W. exact W. }
  assert (Hd1 : rows (data r1) = X).
  { unfold r1, data, drop_last_row. cbn [_data rows]. apply removelast_last. }
  exists r1. eexists. split; [reflexivity|]. split; [|reflexivity].
  rewrite (_slice_window_eq r1 c d Hw1)
    by (unfold nrows; rewrite Hd1, HX; exact Hcd).
  rewrite Hd1. unfold X. cbn [r1 index _index _data ncols].
  rewrite !window_of_window by exact Hcd.
  now replace (a + d - (a + c))%nat with (d - c)%nat by lia.
Qed.

Lemma _slice_of_slice_witness :
  exists r1 r2,
    _slice examples.frame_dup (Slice (Some 1) (Some 3) None) = inr r1 /\
    _slice r1 (Slice (Some 0) (Some 1) None) = inr r2 /\
    _slice examples.frame_dup (Slice (Some 1) (Some 2) None) = inr r2.
Proof.
  apply (_slice_of_slice examples.frame_dup 1 3 0 1).
  - exact wf_frame_dup.
  - vm_compute. split; repeat constructor.
  - vm_compute. split; repeat constructor.
Defined.

(** *** Grouping in two stages *)

Lemma rows_with_key_app (k : Z) (k1 k2 : list Z) (b1 b2 : list (list Z)) :
  length k1 = length b1 ->
  rows_with_key k (k1 ++ k2) (b1 ++ b2)
  = rows_with_key k k1 b1 ++ rows_with_key k k2 b2.
Proof.
  unfold rows_with_key. revert b1.
  induction k1 as [|x k1 IH]; intros [|y b1] H; try discriminate;
    [reflexivity|].
  injection H as H. cbn [app combine filter fst].
  destruct (x =? k); cbn [map snd app]; now rewrite (IH b1 H).
Qed.

Lemma regroup_row (K : nat) (keys : list Z) (X : list (list Z)) (k : Z) :
  Forall (fun r => length r = K) X ->
  sum_rows K (rows_with_key k (unique keys)
                (map (fun u => sum_rows K (rows_with_key u keys X))
                     (unique keys)))
  = sum_rows K (rows_with_key k keys X).
Proof.
  intros HX. set (F := fun u => sum_rows K (rows_with_key u keys X)).
  set (U := unique keys).
  assert (HF : forall u, length (F u) = K).
  { intros u. unfold F. apply sum_rows_length. apply Forall_forall.
    intros r Hr. apply rows_with_key_In in Hr.
    rewrite Forall_forall in HX. now apply HX. }
  destruct (in_dec Z.eq_dec k U) as [Hin|Hout].
  - destruct (In_nth_error _ _ Hin) as [p Hp].
    rewrite (rows_with_key_unique k U (map F U) p (unique_NoDup keys)
               (eq_sym (length_map F U)) Hp).
    assert (Hlt : (p < length (map F U))%nat)
      by (rewrite length_map; apply nth_error_Some; congruence).
    assert (E : nth p (map F U) [] = F k).
    { rewrite (nth_indep _ [] (F k)) by exact Hlt.
      rewrite map_nth. f_equal. now apply nth_error_nth. }
    rewrite E. apply sum_rows_single. apply HF.
  - rewrite (rows_with_key_absent k U (map F U) Hout).
    rewrite (rows_with_key_absent k keys X); [reflexivity|].
    intros Hk. apply Hout. unfold U. now apply unique_In.
Qed.

Lemma wf_grouped (f : SparseFrame) (keys : list Z) :
  wf f ->
  wf (Frame (unique keys) (_columns f)
        (Matrix (ncols (_data f))
           (map (fun k => sum_rows (ncols (_data f))
                            (rows_with_key k keys (rows (data f))))
                (unique keys)
            ++ [zero_row (ncols (_data f))]))
        (length (unique keys), ncols (_data f))).
Proof.
  intros Hwf.
  set (K := ncols (_data f)).
  set (F := fun k => sum_rows K (rows_with_key k keys (rows (data f)))).
  replace (length (unique keys)) with (length (map F (unique keys)))
    by apply length_map.
  apply wf_built.
  - apply Forall_forall. intros r Hr. apply in_map_iff in Hr.
    destruct Hr as [k [<- _]]. unfold F. apply sum_rows_length.
    apply Forall_forall. intros x Hx. apply rows_with_key_In in Hx.
    pose proof (wf_rect_data f Hwf) as Hrect. unfold rect in Hrect.
    rewrite Forall_forall in Hrect. now apply Hrect.
  - now rewrite length_map.
  - now destruct Hwf as (_ & _ & _ & Hc & _).
Qed.

(** Aggregation can be split, on sums that need no rounding: grouping two
    frames of the same columns each by its row labels, stacking the two
    results and grouping again gives the frame that grouping the stacked
    inputs gives. *)
Lemma groupby_two_stages_exact_reading (A B : SparseFrame) :
  wf A -> wf B -> _columns A = _columns B ->
  exists ga gb parts whole r,
    groupby A None 0 = inr ga /\
    groupby B None 0 = inr gb /\
    join ga gb 0 = inr parts /\
    join A B 0 = inr whole /\
    groupby parts None 0 = inr r /\
    groupby whole None 0 = inr r.
Proof.
  intros HA HB Hc.
  pose proof (wf_same_width A B HA HB Hc) as Hk.
  pose proof (wf_rect_data A HA) as RA. pose proof (wf_rect_data B HB) as RB.
  unfold rect in RA, RB.
  change (ncols (data A)) with (ncols (_data A)) in RA.
  change (ncols (data B)) with (ncols (_data B)) in RB.
  rewrite (groupby_eq A None HA I), (groupby_eq B None HB I). cbv zeta.
  pose proof (wf_grouped A (index A) HA) as HGA.
  pose proof (wf_grouped B (index B) HB) as HGB.
  rewrite Hk in RB, HGB |- *.
  set (K := ncols (_data A)) in *.
  set (XA := rows (data A)) in *. set (XB := rows (data B)) in *.
  set (IA := index A) in *. set (IB := index B) in *.
  set (FA := fun k => sum_rows K (rows_with_key k IA XA)) in *.
  set (FB := fun k => sum_rows K (rows_with_key k IB XB)) in *.
  set (ga := Frame (unique IA) (_columns A)
               (Matrix K (map FA (unique IA) ++ [zero_row K]))
               (length (unique IA), K)) in *.
  set (gb := Frame (unique IB) (_columns B)
               (Matrix K (map FB (unique IB) ++ [zero_row K]))
               (length (unique IB), K)) in *.
  destruct (join_axis0_shape ga gb HGA HGB Hc)
    as (parts & E1 & _ & Hi1 & Hc1 & Hr1 & Hw1).
  destruct (join_axis0_shape A B HA HB Hc)
    as (whole & E2 & _ & Hi2 & Hc2 & Hr2 & Hw2).
  exists ga, gb, parts, whole. eexists.
  do 2 (split; [reflexivity|]). split; [exact E1|]. split; [exact E2|].
  rewrite (groupby_eq parts None Hw1 I), (groupby_eq whole None Hw2 I).
  cbv zeta.
  assert (Hd1 : rows (data ga) = map FA (unique IA))
    by (unfold ga, data, drop_last_row; cbn [_data rows]; apply removelast_last).
  assert (Hd2 : rows (data gb) = map FB (unique IB))
    by (unfold gb, data, drop_last_row; cbn [_data rows]; apply removelast_last).
  rewrite Hi1, Hr1, Hi2, Hr2, Hd1, Hd2.
  fold XA XB IA IB. change (index ga) with (unique IA).
  change (index gb) with (unique IB).
  assert (Hcp : _columns parts = _columns A) by exact Hc1.
  assert (Hcw : _columns whole = _columns A) by exact Hc2.
  assert (Hkp : ncols (_data parts) = K).
  { destruct Hw1 as (_ & _ & _ & L & _). rewrite <- L, Hcp.
    now destruct HA as (_ & _ & _ & L' & _). }
  assert (Hkw : ncols (_data whole) = K).
  { destruct Hw2 as (_ & _ & _ & L & _). rewrite <- L, Hcw.
    now destruct HA as (_ & _ & _ & L' & _). }
  rewrite Hcp, Hcw, Hkp, Hkw.
  assert (EU : unique (unique IA ++ unique IB) = unique (IA ++ IB)).
  { apply strictly_sorted_ext; try apply unique_sorted.
    intros x. rewrite !unique_In, !in_app_iff, !unique_In. reflexivity. }
  rewrite EU. split; [reflexivity|]. do 3 f_equal. f_equal.
  apply map_ext. intros k.
  assert (LA : length IA = length XA)
    by (now destruct HA as (_ & _ & L & _)).
  rewrite (rows_with_key_app k IA IB XA XB LA).
  rewrite (rows_with_key_app k (unique IA) (unique IB) _ _
             (eq_sym (length_map FA (unique IA)))).
  rewrite !sum_rows_app.
  - unfold FA, FB. now rewrite !regroup_row.
  - apply Forall_forall. intros r Hr. apply rows_with_key_In in Hr.
    apply in_map_iff in Hr. destruct Hr as [u [<- _]]. unfold FB.
    apply sum_rows_length. apply Forall_forall. intros x Hx.
    apply rows_with_key_In in Hx. rewrite Forall_forall in RB. now apply RB.
  - apply Forall_forall. intros r Hr. apply rows_with_key_In in Hr.
    rewrite Forall_forall in RB. now apply RB.
Qed.

(** *** The two paths of the column-wise join *)

Lemma NoDup_zero_one : NoDup [0; 1].
Proof.
  constructor; [intros [E|[]]; discriminate E|].
  constructor; [intros []|constructor].
Defined.

Lemma join_axis1_paths_agree_witness :
  join_general examples.frame_two examples.frame_named 1
  = join_fast examples.frame_two examples.frame_named 1.
Proof.
  apply (join_axis1_paths_agree examples.frame_two examples.frame_named).
  - exact wf_frame_two.
  - exact wf_frame_named.
  - exact NoDup_zero_one.
  - reflexivity.
Defined.

End SparseFrameMore.

(** ** The binary64 arithmetic of the entries *)

Module Float64Props.
Import sparse_frame SparseFrameProps SparseFrameMore.

(** *** Rounding *)

Lemma round53_exact (z : Z) : Z.abs z <= 2 ^ 53 -> round53 z = z.
Proof.
  intros H. destruct (Z.eq_dec (Z.abs z) (2 ^ 53)) as [E|NE].
  - assert (Hz : z = 2 ^ 53 \/ z = - 2 ^ 53) by lia.
    destruct Hz as [-> | ->]; vm_compute; reflexivity.
  - unfold round53. cbv zeta.
    assert (Hl : Z.log2 (Z.abs z) < 53).
    { destruct (Z.eq_dec (Z.abs z) 0) as [E0|N0].
      - rewrite E0. vm_compute. reflexivity.
      - apply Z.log2_lt_pow2; lia. }
    destruct (Z.leb_spec (Z.log2 (Z.abs z) - 52) 0); [reflexivity|lia].
Qed.

(** A rounded value is a binary64 number: rounding it again changes
    nothing, so converting a [float64] matrix to [float64] is the
    identity. *)
Lemma round53_scaled (s q e : Z) :
  s = 1 \/ s = -1 -> 0 < e -> 2 ^ 52 <= q <= 2 ^ 53 ->
  round53 (s * (q * 2 ^ e)) = s * (q * 2 ^ e).
Proof.
  intros Hs He Hq.
  assert (Hp : 0 < 2 ^ e) by (apply Z.pow_pos_nonneg; lia).
  set (w := q * 2 ^ e).
  assert (Hw : 0 < w) by (unfold w; nia).
  assert (Habs : Z.abs (s * w) = w) by (destruct Hs; subst s; lia).
  assert (Hsgn : Z.sgn (s * w) = s) by (destruct Hs; subst s; lia).
  unfold round53. cbv zeta. rewrite Habs, Hsgn.
  destruct (Z.eq_dec q (2 ^ 53)) as [E|NE].
  - assert (Ew : w = 2 ^ (53 + e)).
    { unfold w. rewrite E, Z.pow_add_r by lia. reflexivity. }
    assert (El : Z.log2 w = 53 + e) by (rewrite Ew; apply Z.log2_pow2; lia).
    rewrite El. replace (53 + e - 52) with (e + 1) by lia.
    destruct (Z.leb_spec (e + 1) 0); [lia|].
    assert (Ew' : w = 2 ^ 52 * 2 ^ (e + 1)).
    { rewrite Ew, <- Z.pow_add_r by lia. f_equal. lia. }
    assert (Hp' : 0 < 2 ^ (e + 1)) by (apply Z.pow_pos_nonneg; lia).
    rewrite Ew'. rewrite Z.div_mul, Z.mod_mul by lia.
    replace (e + 1 - 1) with e by lia.
    destruct (Z.ltb_spec 0 (2 ^ e)); [reflexivity|lia].
  - assert (El : Z.log2 w = 52 + e).
    { apply Z.log2_unique; [lia|]. unfold w.
      replace (Z.succ (52 + e)) with (53 + e) by lia.
      rewrite !Z.pow_add_r by lia. nia. }
    rewrite El. replace (52 + e - 52) with e by lia.
    destruct (Z.leb_spec e 0); [lia|].
    unfold w. rewrite Z.div_mul, Z.mod_mul by lia.
    assert (Hh : 0 < 2 ^ (e - 1)) by (apply Z.pow_pos_nonneg; lia).
    destruct (Z.ltb_spec 0 (2 ^ (e - 1))); [reflexivity|lia].
Qed.

Lemma round53_idempotent (z : Z) : round53 (round53 z) = round53 z.
Proof.
  destruct (Z.leb_spec (Z.log2 (Z.abs z) - 52) 0) as [Hle|Hgt].
  - assert (E : round53 z = z).
    { unfold round53. cbv zeta.
      destruct (Z.leb_spec (Z.log2 (Z.abs z) - 52) 0); [reflexivity|lia]. }
    now rewrite !E.
  - set (m := Z.abs z) in *. set (e := Z.log2 m - 52) in *.
    assert (Hm : 0 < m).
    { destruct (Z.lt_ge_cases 0 m) as [H|H]; [exact H|].
      pose proof (Z.log2_nonpos m) as Hn. unfold e in Hgt. lia. }
    destruct (Z.log2_spec m Hm) as [Hlo Hhi].
    assert (Hp : 0 < 2 ^ e) by (apply Z.pow_pos_nonneg; lia).
    assert (EL : Z.log2 m = 52 + e) by (unfold e; lia).
    rewrite EL in Hlo, Hhi.
    replace (Z.succ (52 + e)) with (53 + e) in Hhi by lia.
    rewrite Z.pow_add_r in Hlo, Hhi by lia.
    assert (Hq : 2 ^ 52 <= m / 2 ^ e < 2 ^ 53).
    { split.
      - apply Z.div_le_lower_bound; lia.
      - apply Z.div_lt_upper_bound; lia. }
    assert (E : exists q, 2 ^ 52 <= q <= 2 ^ 53 /\
                          round53 z = Z.sgn z * (q * 2 ^ e)).
    { unfold round53. cbv zeta. fold m. fold e.
      destruct (Z.leb_spec e 0); [lia|].
      eexists. split; [|reflexivity].
      destruct (m mod 2 ^ e <? 2 ^ (e - 1)); [lia|].
      destruct (2 ^ (e - 1) <? m mod 2 ^ e); [lia|].
      destruct (Z.even (m / 2 ^ e)); lia. }
    destruct E as (q & Hq' & E). rewrite E.
    apply round53_scaled; [unfold m in Hm; lia|lia|exact Hq'].
Qed.

Lemma astype_float64_idempotent (m : csr_matrix) :
  astype_float64 (astype_float64 m) = astype_float64 m.
Proof.
  unfold astype_float64. cbn [rows ncols]. f_equal.
  rewrite map_map. apply map_ext. intros r. rewrite map_map.
  apply map_ext. intros v. apply round53_idempotent.
Qed.

(** The rounding is the conversion of the hardware: on integers below
    [2^63] it is what the binary64 conversion and addition of the
    primitive floats give. *)
Lemma round53_is_the_binary64_rounding :
  let samples := [0; 1; -3; 2 ^ 53 - 1; 2 ^ 53; 2 ^ 53 + 1; 2 ^ 53 + 2;
                  2 ^ 53 + 3; - (2 ^ 53 + 1); 2 ^ 54 + 2; 2 ^ 54 + 6;
                  2 ^ 60 + 12345; 2 ^ 62 - 1; - (2 ^ 62 - 1)] in
  map (fun z => py_int (float_of_Z z)) samples
    = map (fun z => inr (round53 z)) samples /\
  map (fun z => py_int (PrimFloat.add (float_of_Z z) (float_of_Z 1))) samples
    = map (fun z => inr (plus64 (round53 z) 1)) samples /\
  map (fun z => py_int (PrimFloat.mul (float_of_Z z) (float_of_Z 3))) samples
    = map (fun z => inr (times64 (round53 z) 3)) samples.
Proof. vm_compute. repeat split. Qed.

Lemma astype_float64_exact (m : csr_matrix) :
  bounded_entries (2 ^ 53) m -> astype_float64 m = m.
Proof.
  destruct m as [k rs]. unfold bounded_entries, astype_float64. cbn [rows ncols].
  intros H. f_equal. induction H as [|r rs Hr _ IH]; [reflexivity|].
  cbn [map]. rewrite IH. f_equal.
  induction Hr as [|v r Hv _ IHr]; [reflexivity|].
  cbn [map]. now rewrite IHr, (round53_exact v Hv).
Qed.

Lemma astype_float64_rect (m : csr_matrix) : rect m -> rect (astype_float64 m).
Proof.
  unfold rect, astype_float64. cbn [rows ncols]. intros H.
  apply Forall_forall. intros r Hr. apply in_map_iff in Hr.
  destruct Hr as [x [<- Hx]]. rewrite length_map.
  rewrite Forall_forall in H. now apply H.
Qed.

(** *** Sums *)

Lemma zip_plus64_exact (u v : list Z) :
  Forall (fun x => Z.abs x <= 2 ^ 52) u ->
  Forall (fun x => Z.abs x <= 2 ^ 52) v ->
  zip_plus64 u v = zip_add u v /\
  Forall (fun x => Z.abs x <= 2 ^ 53) (zip_add u v).
Proof.
  intros Hu. revert v. induction Hu as [|x u Hx _ IH]; intros v Hv.
  - split; [reflexivity|constructor].
  - destruct Hv as [|y v Hy Hv]; [split; [reflexivity|constructor]|].
    destruct (IH v Hv) as [E F]. cbn [zip_plus64 zip_add].
    assert (B : Z.abs (x + y) <= 2 ^ 53).
    { pose proof (Z.abs_triangle x y).
      change (2 ^ 53) with (2 ^ 52 + 2 ^ 52). lia. }
    split; [|constructor; assumption].
    rewrite E. unfold plus64. now rewrite (round53_exact _ B).
Qed.

Lemma zip_rows_plus64_exact (a b : list (list Z)) :
  Forall (Forall (fun x => Z.abs x <= 2 ^ 52)) a ->
  Forall (Forall (fun x => Z.abs x <= 2 ^ 52)) b ->
  zip_rows_plus64 a b = zip_rows_add a b /\
  Forall (Forall (fun x => Z.abs x <= 2 ^ 53)) (zip_rows_add a b).
Proof.
  intros Ha. revert b. induction Ha as [|r a Hr _ IH]; intros b Hb.
  - split; [reflexivity|constructor].
  - destruct Hb as [|s b Hs Hb]; [split; [reflexivity|constructor]|].
    destruct (IH b Hb) as [E F]. destruct (zip_plus64_exact r s Hr Hs) as [E1 F1].
    cbn [zip_rows_plus64 zip_rows_add]. rewrite E, E1.
    split; [reflexivity|constructor; assumption].
Qed.

(** *** Products *)

Lemma abs_dot_nonneg (u v : list Z) :
  0 <= dot_product (map Z.abs u) (map Z.abs v).
Proof.
  revert v. induction u as [|x u IH]; intros [|y v]; cbn [map dot_product];
    try lia.
  specialize (IH v). pose proof (Z.abs_nonneg x). pose proof (Z.abs_nonneg y).
  nia.
Qed.

Lemma dot_product_abs_le (u v : list Z) :
  Z.abs (dot_product u v) <= dot_product (map Z.abs u) (map Z.abs v).
Proof.
  revert v. induction u as [|x u IH]; intros [|y v]; cbn [map dot_product];
    try (change (Z.abs 0) with 0; lia).
  specialize (IH v). pose proof (Z.abs_triangle (x * y) (dot_product u v)).
  rewrite Z.abs_mul in *. lia.
Qed.

(** The running sum of a product in binary64 is the exact sum as long as
    the absolute values of the terms add up to at most [2^53]. *)
Lemma dot_product64_exact (acc : Z) (u v : list Z) :
  Z.abs acc + dot_product (map Z.abs u) (map Z.abs v) <= 2 ^ 53 ->
  dot_product64 acc u v = acc + dot_product u v.
Proof.
  revert acc v. induction u as [|x u IH]; intros acc [|y v];
    cbn [map dot_product dot_product64]; try (intros; lia).
  intros H. pose proof (abs_dot_nonneg u v) as Hn.
  pose proof (Z.abs_nonneg acc) as Ha.
  assert (Hxy : Z.abs (x * y) = Z.abs x * Z.abs y) by apply Z.abs_mul.
  pose proof (Z.abs_nonneg (x * y)) as Hp.
  pose proof (Z.abs_triangle acc (x * y)) as Ht.
  unfold times64. rewrite (round53_exact (x * y)) by lia.
  unfold plus64. rewrite (round53_exact (acc + x * y)) by lia.
  rewrite IH by lia. lia.
Qed.

Lemma dot64_exact (a b : csr_matrix) :
  (forall r j, In r (rows a) -> (j < ncols b)%nat ->
     dot_product (map Z.abs r) (map Z.abs (column b j)) <= 2 ^ 53) ->
  dot64 a b = dot a b /\
  forall p, dot a b = inr p -> bounded_entries (2 ^ 53) p.
Proof.
  intros H. unfold dot64, dot. destruct (Nat.eqb (ncols a) (nrows b)).
  - split.
    + unfold ret. do 2 f_equal. apply map_ext_in. intros r Hr.
      apply map_ext_in. intros j Hj. apply in_seq in Hj.
      rewrite dot_product64_exact; [reflexivity|].
      change (Z.abs 0) with 0. cbn [Z.add]. apply H; [exact Hr|lia].
    + intros p E. apply inr_inj in E. subst p. unfold bounded_entries.
      cbn [rows]. apply Forall_forall. intros x Hx. apply in_map_iff in Hx.
      destruct Hx as [r [<- Hr]]. apply Forall_forall. intros e He.
      apply in_map_iff in He. destruct He as [j [<- Hj]]. apply in_seq in Hj.
      etransitivity; [apply dot_product_abs_le|]. apply H; [exact Hr|lia].
  - split; [reflexivity|]. intros p E. discriminate E.
Qed.

Lemma transpose_bounded (b : Z) (m : csr_matrix) :
  0 <= b -> bounded_entries b m -> bounded_entries b (transpose m).
Proof.
  intros Hb H. unfold bounded_entries, transpose, column in *. cbn [rows].
  apply Forall_forall. intros c Hc. apply in_map_iff in Hc.
  destruct Hc as [j [<- _]]. apply Forall_forall. intros e He.
  apply in_map_iff in He. destruct He as [r [<- Hr]].
  rewrite Forall_forall in H. specialize (H r Hr).
  destruct (nth_in_or_default j r 0) as [Hin|E].
  - rewrite Forall_forall in H. now apply H.
  - rewrite E. change (Z.abs 0) with 0. exact Hb.
Qed.

Lemma sum_perm (l1 l2 : list Z) :
  Permutation l1 l2 -> fold_right Z.add 0 l1 = fold_right Z.add 0 l2.
Proof. induction 1; cbn [fold_right]; lia. Qed.

Lemma abs_dot_le_sum (u v : list Z) :
  Forall (fun y => Z.abs y <= 1) v ->
  dot_product (map Z.abs u) (map Z.abs v)
  <= fold_right Z.add 0 (map Z.abs u).
Proof.
  intros Hv. revert u. induction Hv as [|y v Hy _ IH]; intros [|x u];
    cbn [map dot_product fold_right]; try lia.
  - clear. induction u as [|a u IH]; cbn [map fold_right]; [lia|].
    pose proof (Z.abs_nonneg a). pose proof (Z.abs_nonneg x). lia.
  - specialize (IH u). pose proof (Z.abs_nonneg x). pose proof (Z.abs_nonneg y).
    nia.
Qed.


(** *** Construction *)

Lemma init64_eq (d : csr_matrix) (index columns : option Index) :
  float64.__init__ d index columns = __init__ (astype_float64 d) index columns.
Proof.
  unfold float64.__init__, __init__, float64._init_csr, _init_csr.
  unfold mshape, nrows, astype_float64. cbn [rows ncols].
  now rewrite length_map.
Qed.

Lemma init64_exact (d : csr_matrix) (index columns : option Index) :
  bounded_entries (2 ^ 53) d ->
  float64.__init__ d index columns = __init__ d index columns.
Proof. intros H. now rewrite init64_eq, astype_float64_exact. Qed.

(** X1: Construction round trip, with the conversion to [float64] that
    stacking the reserved row brings: a frame built from a rectangular
    matrix of integers and labels that fit it gives back, through [data],
    the matrix of the binary64 roundings of the entries, and the matrix
    itself when no entry exceeds [2^53] in absolute value; it records the
    shape, ends its storage with an all-zero row and satisfies the
    invariant. *)
Theorem construction_round_trip (d : csr_matrix) (index columns : option Index) :
  rect d ->
  match index with Some i => length i = nrows d | None => True end ->
  match columns with Some c => length c = ncols d | None => True end ->
  exists f,
    float64.__init__ d index columns = inr f /\
    data f = astype_float64 d /\
    (bounded_entries (2 ^ 53) d -> data f = d) /\
    shape f = mshape d /\
    py_getitem (rows (_data f)) (-1) = inr (zero_row (ncols d)) /\
    nrows (_data f) = S (nrows d) /\
    wf f.
Proof.
  intros Hr Hi Hc. rewrite init64_eq.
  assert (Hn : nrows (astype_float64 d) = nrows d)
    by (unfold nrows, astype_float64; cbn [rows]; apply length_map).
  destruct (construction_round_trip_exact_reading (astype_float64 d) index columns)
    as (f & E & Hd & Hs & Hl & Hrows & Hwf).
  - now apply astype_float64_rect.
  - destruct index; [now rewrite Hn|exact I].
  - exact Hc.
  - exists f. split; [exact E|]. split; [exact Hd|].
    split; [intros Hb; now rewrite Hd, astype_float64_exact|].
    unfold mshape in *. rewrite Hn in Hs, Hrows.
    split; [exact Hs|]. split; [exact Hl|]. split; [exact Hrows|exact Hwf].
Qed.

Lemma construction_round_trip_witness :
  exists f,
    float64.__init__ (Matrix 1 [[2 ^ 53 + 1]; [2]]) None (Some [7]) = inr f /\
    data f = Matrix 1 [[2 ^ 53]; [2]] /\
    (bounded_entries (2 ^ 53) (Matrix 1 [[2 ^ 53 + 1]; [2]]) ->
     data f = Matrix 1 [[2 ^ 53 + 1]; [2]]) /\
    shape f = (2%nat, 1%nat) /\
    py_getitem (rows (_data f)) (-1) = inr [0] /\
    nrows (_data f) = 3%nat /\
    wf f.
Proof.
  apply (construction_round_trip (Matrix 1 [[2 ^ 53 + 1]; [2]]) None (Some [7])).
  - unfold rect. cbn [rows ncols]. repeat constructor.
  - exact I.
  - reflexivity.
Defined.


(** *** Column assignment *)

Lemma setitem64_eq (f : SparseFrame) (key : Z) (value : list Z) :
  float64.__setitem__ f key value = __setitem__ f key (map round53 value).
Proof.
  unfold float64.__setitem__, __setitem__, astype_float64. cbn [rows ncols].
  assert (E : map (map round53) (map (fun v => [v]) (value ++ [0]))
              = map (fun v => [v]) (map round53 value ++ [0])).
  { rewrite !map_app, !map_map. reflexivity. }
  now rewrite E.
Qed.

Lemma map_round53_exact (l : list Z) : Forall exact64 l -> map round53 l = l.
Proof.
  induction 1 as [|v l Hv _ IH]; [reflexivity|].
  cbn [map]. now rewrite IH, (round53_exact v Hv).
Qed.

(** X15: Column assignment round trip.  After [frame[key] = values], with
    as many values as the frame has rows, the new last column of the
    logical matrix reads back as the binary64 roundings of the values
    ([hstack] converts the column of integers), and as the values
    themselves when none exceeds [2^53] in absolute value; every earlier
    column reads as before, and the row labels and the height are
    unchanged. *)
Theorem setitem_column_reads_back (f : SparseFrame) (key : Z) (value : list Z) :
  wf f -> length value = nrows (data f) ->
  exists r,
    float64.__setitem__ f key value = inr r /\
    column (data r) (ncols (data f)) = map round53 value /\
    (Forall exact64 value -> column (data r) (ncols (data f)) = value) /\
    (forall j, (j < ncols (data f))%nat -> column (data r) j = column (data f) j) /\
    ncols (data r) = S (ncols (data f)) /\
    nrows (data r) = nrows (data f) /\
    index r = index f.
Proof.
  intros Hwf Hlen. rewrite setitem64_eq.
  destruct (setitem_column_exact_reading f key (map round53 value) Hwf)
    as (r & E & Hv & Hrest); [now rewrite length_map|].
  exists r. split; [exact E|]. split; [exact Hv|].
  split; [|exact Hrest].
  intros Hex. now rewrite Hv, map_round53_exact.
Qed.

Lemma setitem_column_reads_back_witness :
  exists r,
    float64.__setitem__ examples.frame_two 6 [8; 2 ^ 53 + 1] = inr r /\
    column (data r) 1 = [8; 2 ^ 53] /\
    (Forall exact64 [8; 2 ^ 53 + 1] -> column (data r) 1 = [8; 2 ^ 53 + 1]) /\
    (forall j, (j < 1)%nat -> column (data r) j = column (data examples.frame_two) j) /\
    ncols (data r) = 2%nat /\
    nrows (data r) = 2%nat /\
    index r = [0; 1].
Proof.
  apply (setitem_column_reads_back examples.frame_two 6 [8; 2 ^ 53 + 1]).
  - exact wf_frame_two.
  - reflexivity.
Defined.


(** *** [add] *)

Lemma py_take_In {A} (l : list A) (idx : list Z) (rs : list A) :
  py_take l idx = inr rs -> Forall (fun x => In x l) rs.
Proof.
  unfold py_take. revert rs. induction idx as [|i idx IH]; intros rs; cbn [mapM].
  - intros E. apply inr_inj in E. subst rs. constructor.
  - destruct (py_getitem l i) as [e|a] eqn:Ei; cbn [bind]; [discriminate|].
    destruct (mapM (py_getitem l) idx) as [e|t]; cbn [bind ret]; [discriminate|].
    intros E. apply inr_inj in E. subst rs. constructor; [|now apply IH].
    unfold py_getitem in Ei.
    destruct (0 <=? (if i <? 0 then i + zlength l else i)); [|discriminate].
    destruct (nth_error l _) as [x|] eqn:En; [|discriminate].
    apply inr_inj in Ei. subst x. exact (nth_error_In _ _ En).
Qed.

Lemma take_rows_bounded (b : Z) (m p : csr_matrix) (idx : list Z) :
  take_rows m idx = inr p -> bounded_entries b m -> bounded_entries b p.
Proof.
  unfold take_rows, bounded_entries. intros E H.
  destruct (py_take (rows m) idx) as [e|rs] eqn:Et; cbn [bind ret] in E;
    [discriminate|].
  apply inr_inj in E. subst p. cbn [rows].
  pose proof (py_take_In _ _ _ Et) as Hin.
  rewrite Forall_forall in *. intros r Hr. apply H. now apply Hin.
Qed.

Lemma In_removelast {A} (l : list A) (x : A) : In x (removelast l) -> In x l.
Proof.
  induction l as [|a l IH]; [intros []|].
  destruct l as [|b l]; [intros []|].
  intros [E|H]; [now left|right; now apply IH].
Qed.

Lemma drop_last_row_bounded (b : Z) (m : csr_matrix) :
  bounded_entries b m -> bounded_entries b (drop_last_row m).
Proof.
  unfold bounded_entries, drop_last_row. cbn [rows]. intros H.
  rewrite Forall_forall in *. intros r Hr. apply H. now apply In_removelast.
Qed.

Lemma wf_bounded_stored (b : Z) (f : SparseFrame) :
  wf f -> 0 <= b -> bounded_entries b (data f) -> bounded_entries b (_data f).
Proof.
  intros (H & _) Hb Hd. unfold bounded_entries in *. rewrite H.
  apply Forall_app. split; [exact Hd|]. constructor; [|constructor].
  apply Forall_forall. intros x Hx. apply repeat_spec in Hx. subst x.
  exact Hb.
Qed.

Lemma aligned64_exact (a b : csr_matrix) (a_idx b_idx : Index) :
  bounded_entries (2 ^ 52) a -> bounded_entries (2 ^ 52) b ->
  float64._aligned_csr_elop a b a_idx b_idx = _aligned_csr_elop a b a_idx b_idx
  /\ forall d j, _aligned_csr_elop a b a_idx b_idx = inr (d, j) ->
                 bounded_entries (2 ^ 53) d.
Proof.
  intros Ha Hb. unfold float64._aligned_csr_elop, _aligned_csr_elop.
  destruct (Index_join a_idx b_idx how_left) as [[j l] r].
  destruct (match l with
            | Some l0 => take_rows a l0
            | None => ret (drop_last_row a)
            end) as [e|an] eqn:Ea; cbn [bind];
    [split; [reflexivity|discriminate]|].
  destruct (match r with
            | Some r0 => take_rows b r0
            | None => ret (drop_last_row b)
            end) as [e|bn] eqn:Eb; cbn [bind];
    [split; [reflexivity|discriminate]|].
  destruct (py_assert (shape_eqb (mshape bn) (mshape an))) as [e|u];
    cbn [bind ret]; [split; [reflexivity|discriminate]|].
  assert (Han : bounded_entries (2 ^ 52) an).
  { destruct l as [l0|].
    - exact (take_rows_bounded _ _ _ _ Ea Ha).
    - apply inr_inj in Ea. subst an. now apply drop_last_row_bounded. }
  assert (Hbn : bounded_entries (2 ^ 52) bn).
  { destruct r as [r0|].
    - exact (take_rows_bounded _ _ _ _ Eb Hb).
    - apply inr_inj in Eb. subst bn. now apply drop_last_row_bounded. }
  destruct (zip_rows_plus64_exact (rows an) (rows bn) Han Hbn) as [E F].
  unfold binopt_plus64, binopt_plus. rewrite E. split; [reflexivity|].
  intros d j' Hd. apply inr_inj in Hd. injection Hd as <- _. exact F.
Qed.

(** Where no entry of either frame exceeds [2^52] in absolute value, the
    binary64 sums of [add] are the exact sums. *)
Lemma add64_exact (A B : SparseFrame) :
  wf A -> wf B ->
  bounded_entries (2 ^ 52) (data A) -> bounded_entries (2 ^ 52) (data B) ->
  float64.add A B = add A B.
Proof.
  intros HA HB BA BB. unfold float64.add, add.
  destruct (Index_all_eq (_columns A) (columns B)) as [e|same]; cbn [bind];
    [reflexivity|].
  destruct (py_assert same) as [e|u]; cbn [bind]; [reflexivity|].
  destruct (aligned64_exact (_data A) (_data B) (index A) (index B)) as [E F].
  - apply wf_bounded_stored; [exact HA|lia|exact BA].
  - apply wf_bounded_stored; [exact HB|lia|exact BB].
  - rewrite E.
    destruct (_aligned_csr_elop (_data A) (_data B) (index A) (index B))
      as [e|[d j]]; cbn [bind]; [reflexivity|].
    apply init64_exact. exact (F d j eq_refl).
Qed.

(** X2: [add] aligns the right frame on the labels of the left one.  For
    two frames of unique row labels under the same columns, no entry of
    which exceeds [2^52] in absolute value (every binary64 sum of two of
    them is then exact), the result has the labels, the columns and the
    shape of the left frame, and its row under a label is the left row
    plus the right frame's row of that label, or plus zeros when the right
    frame does not carry the label. *)
Theorem add_aligns_on_left_labels (A B : SparseFrame) :
  wf A -> wf B -> NoDup (_index A) -> NoDup (_index B) ->
  _columns A = _columns B ->
  bounded_entries (2 ^ 52) (data A) -> bounded_entries (2 ^ 52) (data B) ->
  exists r,
    float64.add A B = inr r /\
    index r = index A /\ columns r = columns A /\ shape r = shape A /\
    wf r /\
    forall i l, nth_error (index A) i = Some l ->
      nth_error (rows (data r)) i
      = Some (zip_add (nth i (rows (data A)) []) (logical_row_for B l)).
Proof.
  intros HA HB NA NB Hc BA BB. rewrite (add64_exact A B HA HB BA BB).
  exact (add_aligns_exact_reading A B HA HB NA NB Hc).
Qed.

Ltac bounded_by_computation :=
  unfold bounded_entries, exact_sums, abs_column_sums, abs_column_sum, exact64;
  cbn; repeat constructor; lia.

Lemma add_aligns_on_left_labels_witness :
  exists r,
    float64.add examples.frame_two examples.frame_b = inr r /\
    index r = [0; 1] /\ columns r = [0] /\ shape r = (2%nat, 1%nat) /\
    wf r /\
    forall i l, nth_error [0; 1] i = Some l ->
      nth_error (rows (data r)) i
      = Some (zip_add (nth i [[1]; [2]] [])
                      (logical_row_for examples.frame_b l)).
Proof.
  apply (add_aligns_on_left_labels examples.frame_two examples.frame_b).
  - exact wf_frame_two.
  - exact wf_frame_b.
  - apply nodupb_NoDup. reflexivity.
  - apply NoDup_singleton.
  - reflexivity.
  - bounded_by_computation.
  - bounded_by_computation.
Defined.


(** *** [groupby] *)

Lemma indicator_column_units (codes rg : list Z) (j : nat) :
  Forall (fun y => Z.abs y <= 1)
         (map (fun r => nth j r 0) (map (fun c => map (indicator c) rg) codes)).
Proof.
  apply Forall_forall. intros y Hy. rewrite map_map in Hy.
  apply in_map_iff in Hy. destruct Hy as [c [<- _]].
  destruct (nth_in_or_default j (map (indicator c) rg) 0) as [Hin|E].
  - apply in_map_iff in Hin. destruct Hin as [x [<- _]]. unfold indicator.
    destruct (c =? x); [change (Z.abs 1) with 1|change (Z.abs 0) with 0]; lia.
  - rewrite E. change (Z.abs 0) with 0. lia.
Qed.

Lemma exact_sums_iff (m : csr_matrix) :
  exact_sums m <-> forall c, (c < ncols m)%nat -> abs_column_sum m c <= 2 ^ 53.
Proof.
  unfold exact_sums, abs_column_sums. rewrite Forall_forall. split.
  - intros H c Hc. apply H. apply in_map. apply in_seq. lia.
  - intros H s Hs. apply in_map_iff in Hs. destruct Hs as [c [<- Hc]].
    apply in_seq in Hc. apply H. lia.
Qed.

(** Where, in every column, the absolute values of the entries add up to
    at most [2^53], every sum [groupby] forms is exact: the binary64 product
    is the exact product. *)
Lemma groupby64_exact (f : SparseFrame) (by_ : option (list Z)) :
  wf f ->
  match by_ with Some b => length b = nrows (data f) | None => True end ->
  exact_sums (data f) ->
  float64.groupby f by_ 0 = groupby f by_ 0.
Proof.
  intros Hwf Hby Hex. pose proof (wf_nrows _ Hwf) as Hn.
  pose proof Hwf as (H & Hr & Hi & Hc & _).
  set (keys := match by_ with Some b => b | None => index f end).
  assert (Hlen : length keys = length (rows (data f))).
  { unfold keys. destruct by_; [exact Hby|exact Hi]. }
  set (K := ncols (_data f)) in *. set (body := rows (data f)) in *.
  unfold nrows in Hn. fold body in Hn.
  set (X := map (fun kp => nth (Z.to_nat (snd kp)) (rows (_data f)) [])
                (sorted_pairs keys)).
  set (sk := sort_labels keys).
  assert (HlenX : length sk = length X).
  { unfold sk, X, sort_labels. now rewrite !length_map. }
  assert (HP : Permutation X body).
  { pose proof (combine_sorted_rows keys body (zero_row K) Hlen) as P.
    apply (Permutation_map snd) in P.
    rewrite (map_snd_combine keys body Hlen) in P.
    fold sk in P. rewrite <- H in P. fold X in P.
    now rewrite (map_snd_combine sk X HlenX) in P. }
  unfold float64.groupby, groupby.
  assert (E0 : match by_ with
               | Some b =>
                   _ <- py_assert (Nat.eqb (length b) (nrows (data f))) ;; ret b
               | None =>
                   if negb (0 =? 0) then raise (ValueError CannotUseLevel)
                   else ret (index f)
               end = inr keys).
  { unfold keys. destruct by_ as [b|]; [|reflexivity].
    rewrite Hby, Nat.eqb_refl. reflexivity. }
  rewrite E0. cbn [bind]. rewrite py_take_argsort_keys. cbn [bind].
  fold sk. rewrite _create_group_matrix_eq. cbn [bind].
  unfold take_rows.
  rewrite (py_take_argsort keys (rows (_data f)) []) by lia.
  cbn [bind ret]. fold X. fold K.
  set (GM := Matrix (length (unique sk)) _).
  destruct (dot64_exact (transpose (Matrix K X)) GM) as [Ed Hb].
  - intros r j Hin Hj. unfold transpose in Hin. cbn [rows ncols] in Hin.
    apply in_map_iff in Hin. destruct Hin as [c [<- Hc']]. apply in_seq in Hc'.
    etransitivity; [apply abs_dot_le_sum|].
    + unfold column, GM. cbn [rows]. apply indicator_column_units.
    + unfold column. cbn [rows].
      rewrite (sum_perm _ (map Z.abs (map (fun r => nth c r 0) body))).
      * apply (proj1 (exact_sums_iff (data f)) Hex c).
        change (ncols (data f)) with K. lia.
      * now do 2 apply Permutation_map.
  - rewrite Ed.
    destruct (dot (transpose (Matrix K X)) GM) as [e|prod] eqn:Ep;
      cbn [bind]; [reflexivity|].
    apply init64_exact. apply transpose_bounded; [lia|].
    exact (Hb prod eq_refl).
Qed.





(** X12: Grouping conserves the column totals.  For a frame whose
    entries have, in every column, absolute values that add up to at most
    [2^53] (every sum of entries is then exact in binary64), the entrywise
    sum of all the rows of the result of [groupby] is the entrywise sum of
    all the rows of the input: entries are moved between rows, none is
    lost or counted twice. *)
Theorem groupby_conserves_column_sums (f : SparseFrame) (by_ : option (list Z)) :
  wf f ->
  match by_ with Some b => length b = nrows (data f) | None => True end ->
  exact_sums (data f) ->
  exists r,
    float64.groupby f by_ 0 = inr r /\
    sum_rows (ncols (_data f)) (rows (data r))
    = sum_rows (ncols (_data f)) (rows (data f)).
Proof.
  intros Hwf Hby Hex. rewrite (groupby64_exact f by_ Hwf Hby Hex).
  exact (groupby_conserves_sums_exact_reading f by_ Hwf Hby).
Qed.

Lemma groupby_conserves_column_sums_witness :
  exists r,
    float64.groupby examples.frame_dup (Some [5; 3; 5]) 0 = inr r /\
    sum_rows 1 (rows (data r)) = [6].
Proof.
  apply (groupby_conserves_column_sums examples.frame_dup (Some [5; 3; 5])).
  - exact wf_frame_dup.
  - reflexivity.
  - bounded_by_computation.
Defined.


(** *** Grouping in two stages *)

Local Abbreviation colsum X c :=
  (fold_right Z.add 0 (map Z.abs (map (fun r : list Z => nth c r 0) X))).

Lemma colsum_app (X Y : list (list Z)) (c : nat) :
  colsum (X ++ Y) c = colsum X c + colsum Y c.
Proof.
  induction X as [|x X IH]; cbn [app map fold_right]; [reflexivity|].
  rewrite IH. lia.
Qed.

Lemma colsum_nonneg (X : list (list Z)) (c : nat) : 0 <= colsum X c.
Proof.
  induction X as [|x X IH]; cbn [map fold_right]; [lia|].
  pose proof (Z.abs_nonneg (nth c x 0)). lia.
Qed.

Lemma nth_sum_rows_abs (K : nat) (rs : list (list Z)) (c : nat) :
  Forall (fun r => length r = K) rs ->
  Z.abs (nth c (sum_rows K rs) 0) <= colsum rs c.
Proof.
  induction 1 as [|r rs Hr Hrs IH]; unfold sum_rows; cbn [fold_right map].
  - destruct (nth_in_or_default c (zero_row K) 0) as [Hin|E].
    + apply repeat_spec in Hin. rewrite Hin. change (Z.abs 0) with 0. lia.
    + rewrite E. change (Z.abs 0) with 0. lia.
  - fold (sum_rows K rs). rewrite nth_zip_add
      by (rewrite Hr; symmetry; now apply sum_rows_length).
    pose proof (Z.abs_triangle (nth c r 0) (nth c (sum_rows K rs) 0)). lia.
Qed.

Lemma grouped_colsum (K : nat) (h : Z -> list (list Z)) (U : list Z) (c : nat) :
  (forall k, Forall (fun r => length r = K) (h k)) ->
  colsum (map (fun k => sum_rows K (h k)) U) c
  <= colsum (List.concat (map h U)) c.
Proof.
  intros Hh. induction U as [|k U IH]; cbn [map List.concat fold_right]; [lia|].
  rewrite colsum_app. pose proof (nth_sum_rows_abs K (h k) c (Hh k)). lia.
Qed.

(** Grouping does not raise the sum of the absolute values of a column. *)
Lemma groupby_abs_sums (f : SparseFrame) :
  wf f ->
  exists r,
    groupby f None 0 = inr r /\ wf r /\ _columns r = _columns f /\
    ncols (_data r) = ncols (_data f) /\
    forall c, abs_column_sum (data r) c <= abs_column_sum (data f) c.
Proof.
  intros Hwf. rewrite (groupby_eq f None Hwf I). cbv zeta.
  eexists. split; [reflexivity|]. split; [exact (wf_grouped f (index f) Hwf)|].
  do 2 (split; [reflexivity|]). intros c.
  pose proof (wf_rect_data f Hwf) as Hrect. unfold rect in Hrect.
  pose proof Hwf as (_ & _ & Hi & _). unfold nrows in Hi.
  set (K := ncols (_data f)) in *. set (body := rows (data f)) in *.
  change (ncols (data f)) with K in Hrect.
  unfold abs_column_sum, column. fold body.
  unfold data, drop_last_row. cbn [_data rows]. rewrite removelast_last.
  etransitivity.
  - apply (grouped_colsum K (fun k => rows_with_key k (index f) body)).
    intros k. apply Forall_forall. intros r Hr. apply rows_with_key_In in Hr.
    rewrite Forall_forall in Hrect. now apply Hrect.
  - apply Z.eq_le_incl. apply sum_perm. do 2 apply Permutation_map.
    unfold rows_with_key. rewrite groups_partition.
    + now rewrite (map_snd_combine (index f) body Hi).
    + apply unique_NoDup.
    + intros [v x] Hin. apply unique_In. exact (in_combine_l _ _ _ _ Hin).
Qed.

(** X13: Aggregation can be split, as [sparse_aggregate_cs] does per
    partition.  For two frames under the same columns whose rows, taken
    together, have in every column absolute values that add up to at most
    [2^53] (every sum of entries is then exact in binary64): grouping each
    frame by its labels, stacking the two results and grouping again gives
    the frame that grouping the stack of the two inputs gives. *)
Theorem groupby_in_two_stages (A B : SparseFrame) :
  wf A -> wf B -> _columns A = _columns B ->
  exact_sums (Matrix (ncols (_data A)) (rows (data A) ++ rows (data B))) ->
  exists ga gb parts whole r,
    float64.groupby A None 0 = inr ga /\
    float64.groupby B None 0 = inr gb /\
    join ga gb 0 = inr parts /\
    join A B 0 = inr whole /\
    float64.groupby parts None 0 = inr r /\
    float64.groupby whole None 0 = inr r.
Proof.
  intros HA HB Hc Hex.
  pose proof (wf_same_width A B HA HB Hc) as Hk.
  rewrite exact_sums_iff in Hex. cbn [ncols] in Hex.
  assert (Hsum : forall c, (c < ncols (_data A))%nat ->
            abs_column_sum (data A) c + abs_column_sum (data B) c <= 2 ^ 53).
  { intros c Hlt. specialize (Hex c Hlt).
    unfold abs_column_sum, column in *. cbn [rows] in Hex.
    now rewrite colsum_app in Hex. }
  assert (exA : exact_sums (data A)).
  { apply exact_sums_iff. intros c Hlt. specialize (Hsum c Hlt).
    pose proof (colsum_nonneg (rows (data B)) c) as Hn.
    unfold abs_column_sum, column in *. lia. }
  assert (exB : exact_sums (data B)).
  { apply exact_sums_iff. intros c Hlt.
    change (ncols (data B)) with (ncols (_data B)) in Hlt. rewrite Hk in Hlt.
    specialize (Hsum c Hlt).
    pose proof (colsum_nonneg (rows (data A)) c) as Hn.
    unfold abs_column_sum, column in *. lia. }
  destruct (groupby_abs_sums A HA) as (ga & EA & WA & CA & KA & SA).
  destruct (groupby_abs_sums B HB) as (gb & EB & WB & CB & KB & SB).
  assert (Hcg : _columns ga = _columns gb) by congruence.
  destruct (join_axis0_shape ga gb WA WB Hcg)
    as (parts & EP & _ & _ & CP & RP & WP).
  destruct (join_axis0_shape A B HA HB Hc)
    as (whole & EW & _ & _ & CW & RW & WW).
  assert (KP : ncols (_data parts) = ncols (_data A)).
  { destruct WP as (_ & _ & _ & L & _). rewrite <- L.
    unfold columns in CP. rewrite CP, CA.
    now destruct HA as (_ & _ & _ & L' & _). }
  assert (KW : ncols (_data whole) = ncols (_data A)).
  { destruct WW as (_ & _ & _ & L & _). rewrite <- L.
    unfold columns in CW. rewrite CW.
    now destruct HA as (_ & _ & _ & L' & _). }
  assert (exP : exact_sums (data parts)).
  { apply exact_sums_iff. intros c Hlt.
    change (ncols (data parts)) with (ncols (_data parts)) in Hlt.
    rewrite KP in Hlt. specialize (Hsum c Hlt).
    specialize (SA c). specialize (SB c).
    unfold abs_column_sum, column in *. rewrite RP, colsum_app. lia. }
  assert (exW : exact_sums (data whole)).
  { apply exact_sums_iff. intros c Hlt.
    change (ncols (data whole)) with (ncols (_data whole)) in Hlt.
    rewrite KW in Hlt. specialize (Hsum c Hlt).
    unfold abs_column_sum, column in *. rewrite RW, colsum_app. lia. }
  destruct (groupby_two_stages_exact_reading A B HA HB Hc)
    as (ga' & gb' & parts' & whole' & r & Q1 & Q2 & Q3 & Q4 & Q5 & Q6).
  rewrite EA in Q1. apply inr_inj in Q1. subst ga'.
  rewrite EB in Q2. apply inr_inj in Q2. subst gb'.
  rewrite EP in Q3. apply inr_inj in Q3. subst parts'.
  rewrite EW in Q4. apply inr_inj in Q4. subst whole'.
  exists ga, gb, parts, whole, r.
  rewrite (groupby64_exact A None HA I exA), (groupby64_exact B None HB I exB).
  rewrite (groupby64_exact parts None WP I exP).
  rewrite (groupby64_exact whole None WW I exW).
  do 5 (split; [assumption|]). assumption.
Qed.

Lemma groupby_in_two_stages_witness :
  exists ga gb parts whole r,
    float64.groupby examples.frame_dup None 0 = inr ga /\
    float64.groupby examples.frame_two None 0 = inr gb /\
    join ga gb 0 = inr parts /\
    join examples.frame_dup examples.frame_two 0 = inr whole /\
    float64.groupby parts None 0 = inr r /\
    float64.groupby whole None 0 = inr r.
Proof.
  apply (groupby_in_two_stages examples.frame_dup examples.frame_two).
  - exact wf_frame_dup.
  - exact wf_frame_two.
  - reflexivity.
  - bounded_by_computation.
Defined.

End Float64Props.

(** ** Repartitioning: edge cases and the shape of a merged frame *)

Module DaskMore.
Import dask_core DaskProps.

(** X24: Repartitioning a frame that has partitions to zero partitions divides
    by zero. *)
Theorem repartition_to_zero_raises (df : SparseFrame) :
  0 < npartitions df ->
  repartition_npartitions df 0 = inl ZeroDivisionError.
Proof.
  intros H. unfold repartition_npartitions.
  destruct (Z.eqb_spec (npartitions df) 0); [lia|].
  destruct (Z.gtb_spec (npartitions df) 0); [|lia].
  unfold new_partitions_boundaries, py_truediv.
  change (0 =? 0) with true. reflexivity.
Qed.

Lemma repartition_to_zero_raises_witness :
  repartition_npartitions examples.fifteen 0 = inl ZeroDivisionError.
Proof.
  apply (repartition_to_zero_raises examples.fifteen).
  vm_compute. reflexivity.
Defined.

Lemma py_range_nonpos (n : Z) : n <= 0 -> py_range n = [].
Proof.
  intros H. unfold py_range.
  replace (Z.to_nat n) with 0%nat by lia. reflexivity.
Qed.

(** X25: A negative partition count is not refused: both loops run over an
    empty range, and the result is a frame over the unchanged graph with
    no divisions at all, no keys, unknown divisions and a partition count
    of -1. *)
Theorem repartition_to_negative_is_empty (df : SparseFrame) (n : Z) :
  n < 0 -> 0 <= npartitions df ->
  exists df',
    repartition_npartitions df n = inr (Merged df') /\
    dask df' = dask df /\
    divisions df' = [] /\
    known_divisions df' = false /\
    npartitions df' = -1 /\
    _keys df' = [].
Proof.
  intros Hn Hp. unfold repartition_npartitions.
  destruct (Z.eqb_spec (npartitions df) n); [lia|].
  destruct (Z.gtb_spec (npartitions df) n); [|lia].
  unfold new_partitions_boundaries, py_truediv.
  destruct (Z.eqb_spec n 0); [lia|].
  rewrite (py_range_nonpos (n + 1)) by lia.
  rewrite (py_range_nonpos n) by lia.
  cbn [bind ret mapM]. eexists. split; [reflexivity|].
  repeat split.
Qed.

Lemma repartition_to_negative_is_empty_witness :
  exists df',
    repartition_npartitions examples.fifteen (-2) = inr (Merged df') /\
    dask df' = dask examples.fifteen /\
    divisions df' = [] /\
    known_divisions df' = false /\
    npartitions df' = -1 /\
    _keys df' = [].
Proof.
  apply (repartition_to_negative_is_empty examples.fifteen (-2)).
  - reflexivity.
  - vm_compute. intros E; discriminate E.
Defined.

Lemma gname_eqb_eq (a b : gname) : gname_eqb a b = true -> a = b.
Proof.
  revert b. induction a as [i|n a IH]; intros [j|m b]; cbn [gname_eqb];
    try discriminate.
  - intros H. apply Z.eqb_eq in H. now subst.
  - intros H. apply andb_true_iff in H. destruct H as [H1 H2].
    apply Z.eqb_eq in H1. apply IH in H2. now subst.
Qed.

Lemma gname_not_its_own_token (t : gname) (n : Z) : RepartitionName n t <> t.
Proof.
  revert n. induction t as [i|m t IH]; intros n E; [discriminate E|].
  injection E as _ E. exact (IH m E).
Qed.

Lemma lookup_other_name (nm : gname) (dsk g : graph) (k : key) :
  Forall (fun e => fst (fst e) = nm) dsk -> fst k <> nm ->
  lookup (merge g dsk) k = lookup g k.
Proof.
  unfold merge. intros Hd Hk. induction Hd as [|[[nm' j] t] dsk He _ IH];
    [reflexivity|].
  cbn [app lookup]. cbn [fst] in He. subst nm'.
  unfold key_eqb. cbn [fst snd].
  destruct (gname_eqb (fst k) nm) eqn:E.
  - exfalso. apply Hk. now apply gname_eqb_eq.
  - cbn [andb]. exact IH.
Qed.

Lemma mapM_Forall {A B} (f : A -> result B) (P : B -> Prop) (l : list A)
    (r : list B) :
  (forall a b, In a l -> f a = inr b -> P b) ->
  mapM f l = inr r -> Forall P r.
Proof.
  revert r. induction l as [|a t IH]; intros r HP; cbn [mapM].
  - intros E. apply inr_inj in E. subst r. constructor.
  - destruct (f a) as [e|b] eqn:Ef; cbn [bind]; [discriminate|].
    destruct (mapM f t) as [e|bs] eqn:Et; cbn [bind ret]; [discriminate|].
    intros E. apply inr_inj in E. subst r. constructor.
    + exact (HP a b (or_introl eq_refl) Ef).
    + apply (IH bs); [|reflexivity].
      intros a' b' Hin. apply HP. now right.
Qed.

(** X23: Whatever the computed boundaries are, a frame returned by the merging
    branch has the requested number of partitions, carries the new name and
    the meta of the input, and extends the graph of the input without
    replacing any of its entries: every key under another name, in
    particular every partition of the input, resolves as before. *)
Theorem repartition_merged_frame (df df' : SparseFrame) (n : Z) :
  repartition_npartitions df n = inr (Merged df') -> 0 <= n ->
  npartitions df' = n /\
  _name df' = RepartitionName n (_name df) /\
  _meta df' = _meta df /\
  (forall k, fst k <> RepartitionName n (_name df) ->
             lookup (dask df') k = lookup (dask df) k) /\
  (forall i, lookup (dask df') (_name df, i) = lookup (dask df) (_name df, i)).
Proof.
  unfold repartition_npartitions. intros H Hn.
  destruct (npartitions df =? n); [discriminate H|].
  destruct (npartitions df >? n); [|discriminate H].
  destruct (new_partitions_boundaries (npartitions df) n) as [e|bounds] eqn:Eb;
    cbn [bind] in H; [discriminate H|].
  match type of H with
  | bind ?m _ = _ => destruct m as [e|dsk] eqn:Ed
  end; cbn [bind] in H; [discriminate H|].
  destruct (mapM (py_getitem (divisions df)) bounds) as [e|divs] eqn:Ev;
    cbn [bind ret] in H; [discriminate H|].
  apply inr_inj in H. injection H as <-.
  assert (Hlen : length divs = S (Z.to_nat n)).
  { rewrite (mapM_length _ _ _ Ev).
    unfold new_partitions_boundaries in Eb.
    destruct (py_truediv _ _); cbn [bind] in Eb; [discriminate Eb|].
    rewrite (mapM_length _ _ _ Eb). unfold py_range.
    rewrite length_map, length_seq. lia. }
  assert (Hdsk : Forall (fun e => fst (fst e) = RepartitionName n (_name df)) dsk).
  { refine (mapM_Forall _ _ _ _ _ Ed). intros j e _.
    destruct (py_getitem bounds j); cbn [bind]; [discriminate|].
    destruct (py_getitem bounds (j + 1)); cbn [bind ret]; [discriminate|].
    intros E. apply inr_inj in E. now subst e. }
  assert (Hother : forall k, fst k <> RepartitionName n (_name df) ->
             lookup (merge (dask df) dsk) k = lookup (dask df) k).
  { intros k Hk. exact (lookup_other_name _ dsk (dask df) k Hdsk Hk). }
  unfold __init__, npartitions, zlength. cbn [divisions _name _meta dask].
  split; [lia|]. do 2 (split; [reflexivity|]). split; [exact Hother|].
  intros i. apply Hother. cbn [fst]. intros E.
  exact (gname_not_its_own_token _ _ (eq_sym E)).
Qed.

Lemma repartition_merged_frame_witness :
  exists df',
    repartition_npartitions examples.fifteen 4 = inr (Merged df') /\
    npartitions df' = 4 /\
    _name df' = RepartitionName 4 (_name examples.fifteen) /\
    _meta df' = _meta examples.fifteen /\
    (forall k, fst k <> RepartitionName 4 (_name examples.fifteen) ->
               lookup (dask df') k = lookup (dask examples.fifteen) k) /\
    (forall i, lookup (dask df') (_name examples.fifteen, i)
               = lookup (dask examples.fifteen) (_name examples.fifteen, i)).
Proof.
  assert (E : exists df',
             repartition_npartitions examples.fifteen 4 = inr (Merged df'))
    by (vm_compute; eexists; reflexivity).
  destruct E as [df' E]. exists df'. split; [exact E|].
  apply (repartition_merged_frame examples.fifteen df' 4 E).
  vm_compute. intros H; discriminate H.
Defined.

End DaskMore.
